(** * caltrain-status: incident reconciliation and uptime engine

    A shallow embedding of the two halves of the repository:

    - [scripts/ingest_emails_imap.js]: the event normalizer
      ([buildParsedEvent]), the incident reconciler
      ([findMatchingIncident], [upsertIncidentInShard],
      [applyEventToRepo]), the status file ([updateCurrentStatusFile]),
      the environment file ([parseDotEnvFile]) and the run over the
      fetched messages ([main], [passesFilters], [saveState]);
    - [app.js]: the uptime calculator ([clippedSegments],
      [mergedDowntimeBuckets], [uptimeForWindow], [uptimeBandForPercent],
      [normalizeSeverity]), the outage segments ([parseDate],
      [parseDelayMinutes], [severityForIncident], [buildOutageSegments])
      and [escapeHtml], together with the earlier revision of the same
      file ([mergedDowntimeMs], [severityForUptimePercent],
      [maxSeverityForWindow], [buildOutageSegments]), kept in
      [Module Legacy].

    Conventions of the embedding.

    - A JavaScript string is a [string]; the text functions work on its list
      of characters.  The character classes of the regular expressions
      ([\w], [\s], case folding) are the ASCII ones, so the model is exact
      on ASCII text.
    - A timestamp string is represented by the value [new Date(s)] gives it:
      epoch milliseconds in [Z] ([toISOString] and [new Date] are inverse
      on those), or [NotADate] when the string does not parse.  The
      timestamps of stored incidents and updates are those the script wrote,
      so they always parse.
    - JavaScript numbers that hold minute or millisecond counts are [Z];
      percentages are exact rationals ([Q]) in place of doubles.
    - Objects stored in an array and mutated in place are addressed by
      their index in the array.
    - The file system is a finite map from repository paths to shards; the
      state file and the status file are optional records, [None] when the
      file cannot be read.  A state file that can be read is one the
      script wrote, so it holds the list of the processed message ids.
    - [process.env] is a finite map from the names of the variables that
      are set to their values; the names it inherits as an object are those
      of [objectPrototypeKeys].
    - The mailbox is the list of the messages a run fetches. *)

From Stdlib Require Import Ascii String QArith Qminmax Lqa.
From stdpp Require Import gmap strings list fin_maps pretty sorting.

Local Open Scope string_scope.
Local Open Scope list_scope.

(** ** Characters and text *)

Module Text.

Definition code (c : ascii) : nat := nat_of_ascii c.

Definition between (lo hi : nat) (c : ascii) : bool :=
  Nat.leb lo (code c) && Nat.leb (code c) hi.

Definition isLower : ascii -> bool := between 97 122.
Definition isUpper : ascii -> bool := between 65 90.
Definition isDigit : ascii -> bool := between 48 57.

(** [\w] *)
Definition isWordChar (c : ascii) : bool :=
  isLower c || isUpper c || isDigit c || Nat.eqb (code c) 95.

(** [\s]: tab, line feed, vertical tab, form feed, carriage return, space *)
Definition isSpace (c : ascii) : bool :=
  between 9 13 c || Nat.eqb (code c) 32.

Definition toLowerChar (c : ascii) : ascii :=
  if isUpper c then ascii_of_nat (code c + 32) else c.

Definition toUpperChar (c : ascii) : ascii :=
  if isLower c then ascii_of_nat (code c - 32) else c.

Definition chars (s : string) : list ascii := list_ascii_of_string s.
Definition str (l : list ascii) : string := string_of_list_ascii l.

Definition toLowerCase (s : string) : string := str (map toLowerChar (chars s)).

Fixpoint dropWhile {A} (p : A -> bool) (l : list A) : list A :=
  match l with
  | [] => []
  | x :: r => if p x then dropWhile p r else l
  end.

Definition trimChars (l : list ascii) : list ascii :=
  rev (dropWhile isSpace (rev (dropWhile isSpace l))).

(** [String.prototype.trim] *)
Definition trim (s : string) : string := str (trimChars (chars s)).

(** [w] read case-insensitively at the head of [l]; the rest on success.
    [w] is given in lower case. *)
Fixpoint matchCI (w l : list ascii) : option (list ascii) :=
  match w, l with
  | [], _ => Some l
  | _ :: _, [] => None
  | a :: w', c :: l' =>
      if Ascii.eqb a (toLowerChar c) then matchCI w' l' else None
  end.

Definition atWordEnd (l : list ascii) : bool :=
  match l with
  | [] => true
  | c :: _ => negb (isWordChar c)
  end.

(** The first alternative of [(w1|w2|...)\b] that matches at the head of
    [l]; its length. *)
Fixpoint matchWordAt (words : list string) (l : list ascii) : option nat :=
  match words with
  | [] => None
  | w :: ws =>
      match matchCI (chars w) l with
      | Some rest =>
          if atWordEnd rest then Some (String.length w) else matchWordAt ws l
      | None => matchWordAt ws l
      end
  end.

(** [replace(/\b(w1|w2|...)\b/gi, "")].  [prev] tells whether the character
    before the head of [l] is a word character; [skip] counts the characters
    of a match still to be dropped. *)
Fixpoint removeWordsFrom (words : list string) (prev : bool) (skip : nat)
    (l : list ascii) : list ascii :=
  match l with
  | [] => []
  | c :: r =>
      match skip with
      | S k => removeWordsFrom words (isWordChar c) k r
      | O =>
          match (if prev then None else matchWordAt words l) with
          | Some n => removeWordsFrom words (isWordChar c) (pred n) r
          | None => c :: removeWordsFrom words (isWordChar c) 0 r
          end
      end
  end.

Definition removeWords (words : list string) (l : list ascii) : list ascii :=
  removeWordsFrom words false 0 l.

(** [/\b(w1|w2|...)\b/.test(l)] *)
Fixpoint hasWordFrom (words : list string) (prev : bool) (l : list ascii) : bool :=
  match l with
  | [] => false
  | c :: r =>
      match (if prev then None else matchWordAt words l) with
      | Some _ => true
      | None => hasWordFrom words (isWordChar c) r
      end
  end.

Definition hasWord (words : list string) (s : string) : bool :=
  hasWordFrom words false (chars s).

(** [replace(/\s+/g, " ")] *)
Fixpoint collapseSpaces (inRun : bool) (l : list ascii) : list ascii :=
  match l with
  | [] => []
  | c :: r =>
      if isSpace c
      then (if inRun then collapseSpaces true r else " "%char :: collapseSpaces true r)
      else c :: collapseSpaces false r
  end.

Fixpoint matchExact (w l : list ascii) : option (list ascii) :=
  match w, l with
  | [], _ => Some l
  | _ :: _, [] => None
  | a :: w', c :: l' => if Ascii.eqb a c then matchExact w' l' else None
  end.

Fixpoint includesFrom (needle l : list ascii) : bool :=
  match matchExact needle l with
  | Some _ => true
  | None => match l with [] => false | _ :: r => includesFrom needle r end
  end.

(** [String.prototype.includes] *)
Definition includes (s needle : string) : bool :=
  includesFrom (chars needle) (chars s).

End Text.

(** ** Dates

    A [Date] is its epoch milliseconds.  The calendar fields are those of
    the proleptic Gregorian calendar; the local-time getters add the host's
    UTC offset, a function of the instant. *)

Module JsDate.

Local Open Scope Z_scope.

Definition msPerDay : Z := 86400000.

(** Year, month (1-12) and day of month of a day number counted from
    1970-01-01. *)
Definition civilFromDays (days : Z) : Z * Z * Z :=
  let z := days + 719468 in
  let era := z / 146097 in
  let doe := z mod 146097 in
  let yoe := (doe - doe / 1460 + doe / 36524 - doe / 146096) / 365 in
  let doy := doe - (365 * yoe + yoe / 4 - yoe / 100) in
  let mp := (5 * doy + 2) / 153 in
  let d := doy - (153 * mp + 2) / 5 + 1 in
  let m := if mp <? 10 then mp + 3 else mp - 9 in
  let y := yoe + era * 400 + (if m <=? 2 then 1 else 0) in
  (y, m, d).

Definition utcFields (ms : Z) : Z * Z * Z := civilFromDays (ms / msPerDay).

(** [String(n).padStart(w, "0")] for [n >= 0] *)
Definition padStart (w : nat) (n : Z) : string :=
  let s := pretty n in
  String.concat "" (replicate (w - String.length s) "0") +:+ s.

(** The year field of [toISOString]: four digits, or a sign and six digits
    outside 0..9999. *)
Definition isoYear (y : Z) : string :=
  if (0 <=? y) && (y <=? 9999) then padStart 4 y
  else (if y <? 0 then "-" else "+") +:+ padStart 6 (Z.abs y).

Definition takeChars (n : nat) (s : string) : string :=
  Text.str (take n (Text.chars s)).

(** The date part of [toISOString], long enough for the slices taken of it. *)
Definition isoDatePart (ms : Z) : string :=
  let '(y, m, d) := utcFields ms in
  isoYear y +:+ "-" +:+ padStart 2 m +:+ "-" +:+ padStart 2 d.

(** [date.toISOString().slice(0, 10)] *)
Definition isoDay (ms : Z) : string := takeChars 10 (isoDatePart ms).

(** [date.toISOString().slice(0, 7)] *)
Definition isoMonth (ms : Z) : string := takeChars 7 (isoDatePart ms).

Section Local.
(** The host's offset from UTC, in milliseconds, at a given instant. *)
Variable tzOffsetMs : Z -> Z.

Definition localFields (ms : Z) : Z * Z * Z := utcFields (ms + tzOffsetMs ms).

(** [date.getFullYear()] *)
Definition getFullYear (ms : Z) : Z := (localFields ms).1.1.

(** [date.getMonth()], 0-11 *)
Definition getMonth (ms : Z) : Z := (localFields ms).1.2 - 1.
End Local.

End JsDate.

(** ** Event normalizer ([scripts/ingest_emails_imap.js]) *)

Section TextNormalizer.
Import Text.

(** [/^\s*(fwd?|fw|re)\s*:\s*/i], replaced by the empty string *)
Definition stripReplyPrefix (l : list ascii) : list ascii :=
  let l1 := dropWhile isSpace l in
  let afterColon (r : list ascii) : option (list ascii) :=
    match dropWhile isSpace r with
    | c :: r' => if Ascii.eqb c ":" then Some (dropWhile isSpace r') else None
    | [] => None
    end in
  let alt (w : string) : option (list ascii) :=
    match matchCI (chars w) l1 with
    | Some r => afterColon r
    | None => None
    end in
  match alt "fwd", alt "fw", alt "re" with
  | Some r, _, _ => r
  | None, Some r, _ => r
  | None, None, Some r => r
  | None, None, None => l
  end.

Definition normalizeSubject (subject : string) : string :=
  let s1 := stripReplyPrefix (chars subject) in
  let s2 := removeWords ["caltrain"] s1 in
  let s3 := removeWords ["alert"; "advisory"; "service update"; "notification"] s2 in
  let s4 := map (fun c => if isWordChar c || isSpace c || Ascii.eqb c "-"
                          then c else " "%char) s3 in
  let s5 := collapseSpaces false s4 in
  str (trimChars s5).

Definition isSlugChar (c : ascii) : bool := isLower c || isDigit c.

(** [replace(/[^a-z0-9]+/g, "-")] *)
Fixpoint dashRuns (inRun : bool) (l : list ascii) : list ascii :=
  match l with
  | [] => []
  | c :: r =>
      if isSlugChar c then c :: dashRuns false r
      else if inRun then dashRuns true r else "-"%char :: dashRuns true r
  end.

Definition isDash (c : ascii) : bool := Ascii.eqb c "-".

Definition slugify (text : string) : string :=
  let lowered := map toLowerChar (chars text) in
  let dashed := dashRuns false lowered in
  let stripped := rev (dropWhile isDash (rev (dropWhile isDash dashed))) in
  let sliced := str (take 60 stripped) in
  if decide (sliced = "") then "email-alert" else sliced.

(** [text.split(/\r?\n/)]; [cur] is the line being read, reversed. *)
Fixpoint splitLinesFrom (cur : list ascii) (l : list ascii) : list (list ascii) :=
  match l with
  | [] => [rev cur]
  | c :: r =>
      if Ascii.eqb c "010"
      then rev (match cur with
                | p :: cur' => if Ascii.eqb p "013" then cur' else cur
                | [] => cur
                end) :: splitLinesFrom [] r
      else splitLinesFrom (c :: cur) r
  end.

Definition splitLines (text : string) : list (list ascii) :=
  splitLinesFrom [] (chars text).

Fixpoint firstNonEmpty (lines : list (list ascii)) : string :=
  match lines with
  | [] => ""
  | line :: rest =>
      match trimChars line with
      | [] => firstNonEmpty rest
      | t => str t
      end
  end.

Definition firstNonEmptyLine (text : string) : string :=
  firstNonEmpty (splitLines text).

Definition summarizeBody (text : string) : string :=
  let oneLine := trimChars (collapseSpaces false (chars text)) in
  match oneLine with
  | [] => "Email alert received; parser placeholder used."
  | _ => str (take 300 oneLine)
  end.

Record SeverityInfo := {
  si_severity : string;
  si_status : string;
  si_updateState : string
}.

Definition inferSeverityAndStatus (subject bodyText : string) : SeverityInfo :=
  let haystack := toLowerCase (subject +:+ String "010" "" +:+ bodyText) in
  if hasWord ["resolved"; "restored"; "normal service"; "back to normal";
              "cleared"; "clear"] haystack
  then {| si_severity := "minor"; si_status := "resolved"; si_updateState := "operational" |}
  else if hasWord ["no service"; "service suspended"; "all trains stopped";
                   "shutdown"] haystack
  then {| si_severity := "critical"; si_status := "investigating"; si_updateState := "critical" |}
  else if hasWord ["major disruption"; "disabled train"; "signal issue";
                   "police activity"; "single-track"] haystack
  then {| si_severity := "major"; si_status := "investigating"; si_updateState := "major" |}
  else if hasWord ["delay"; "delays"; "late"; "reduced speed"; "inspection";
                   "holding"] haystack
  then {| si_severity := "minor"; si_status := "investigating"; si_updateState := "degraded" |}
  else {| si_severity := "minor"; si_status := "investigating"; si_updateState := "degraded" |}.

Definition inferAffectedSegments (subject bodyText : string) : list string :=
  let haystack := toLowerCase (subject +:+ String "010" "" +:+ bodyText) in
  let s1 := if includes haystack "northbound" then ["Northbound"] else [] in
  let s2 := if includes haystack "southbound" then s1 ++ ["Southbound"] else s1 in
  let s3 :=
    if includes haystack "both directions" then
      let a := if decide ("Northbound" ∈ s2) then s2 else s2 ++ ["Northbound"] in
      if decide ("Southbound" ∈ a) then a else a ++ ["Southbound"]
    else s2 in
  match s3 with
  | [] => ["System-wide"]
  | _ => s3
  end.

(** [s.charAt(0).toUpperCase() + s.slice(1)] *)
Definition capitalizeFirst (s : string) : string :=
  match chars s with
  | [] => ""
  | c :: r => str (toUpperChar c :: r)
  end.

End TextNormalizer.

(** ** Data model of the ingestion script *)

(** A non-empty timestamp string, as [new Date] reads it. *)
Inductive DateString :=
  | NotADate
  | IsoDate (ms : Z).

Inductive JsError := RangeError.

(** The outcome of a call that may throw. *)
Inductive result (A : Type) :=
  | Ok (a : A)
  | Throw (e : JsError).
Arguments Ok {A} a.
Arguments Throw {A} e.

(** [a || b] on strings: the empty string is falsy. *)
Definition orElse (a b : string) : string :=
  if decide (a = "") then b else a.

Module Message.
(** A field holds [""] or [None] when the message lacks it. *)
Record t := {
  messageId : string;
  subject : string;
  bodyText : string;
  receivedAt : option DateString
}.
End Message.

Module Event.
Record t := {
  messageId : string;
  receivedAt : DateString;
  subject : string;
  bodyText : string;
  subjectKey : string;
  title : string;
  summary : string;
  severity : string;
  incidentStatus : string;
  updateState : string;
  affectedSegments : list string;
  updateMessage : string
}.
End Event.

Module Update.
Record t := {
  timestamp : Z;
  state : string;
  message : string;
  source_message_id : string
}.
End Update.

Module Incident.
Record t := {
  id : string;
  title : string;
  severity : string;
  status : string;
  started_at : Z;
  resolved_at : option Z;
  affected_segments : list string;
  summary : string;
  updates : list Update.t;
  ingestion_key : string
}.
End Incident.

Module Shard.
Record t := {
  period : string;
  items : list Incident.t
}.
End Shard.

#[global] Instance DateString_eq_dec : EqDecision DateString.
Proof. solve_decision. Defined.
#[global] Instance Update_eq_dec : EqDecision Update.t.
Proof. solve_decision. Defined.
#[global] Instance Incident_eq_dec : EqDecision Incident.t.
Proof. solve_decision. Defined.

Definition buildParsedEvent (now : Z) (message : Message.t) : Event.t :=
  let subject := orElse (Message.subject message) "(No subject)" in
  let bodyText := Message.bodyText message in
  let receivedAt :=
    match Message.receivedAt message with
    | Some d => d
    | None => IsoDate now
    end in
  let normalizedSubject := normalizeSubject subject in
  let subjectKey := slugify (orElse normalizedSubject subject) in
  let headline :=
    orElse (orElse normalizedSubject (firstNonEmptyLine bodyText))
           "Caltrain service alert" in
  let severityInfo := inferSeverityAndStatus subject bodyText in
  let summary := summarizeBody bodyText in
  {| Event.messageId := Message.messageId message;
     Event.receivedAt := receivedAt;
     Event.subject := subject;
     Event.bodyText := bodyText;
     Event.subjectKey := subjectKey;
     Event.title := capitalizeFirst headline;
     Event.summary := summary;
     Event.severity := si_severity severityInfo;
     Event.incidentStatus := si_status severityInfo;
     Event.updateState := si_updateState severityInfo;
     Event.affectedSegments := inferAffectedSegments subject bodyText;
     Event.updateMessage := orElse (firstNonEmptyLine bodyText) subject |}.

(** ** Sorting

    [Array.prototype.sort] is stable; so is this insertion sort, and a
    stable sort has one result.  [le a b] says that the comparator does not
    put [b] before [a]. *)

Section Sort.
Context {A : Type} (le : A -> A -> bool).

Fixpoint insertBy (x : A) (l : list A) : list A :=
  match l with
  | [] => [x]
  | y :: r => if le x y then x :: l else y :: insertBy x r
  end.

Definition sortBy (l : list A) : list A := foldr insertBy [] l.
End Sort.

(** ** Incident reconciler *)

Local Open Scope Z_scope.

(** [`${base}-${counter}`] *)
Definition candidateId (base : string) (counter : Z) : string :=
  base +:+ "-" +:+ pretty counter.

(** The while loop of [createIncidentId]: the first counter from [counter]
    on whose id is free.  At most [size existingIds] counters can be taken,
    so that much fuel lets the loop run to its end
    ([firstFreeCounter_free]). *)
Fixpoint firstFreeCounter (existingIds : gset string) (base : string)
    (fuel : nat) (counter : Z) : Z :=
  match fuel with
  | O => counter
  | S fuel' =>
      if decide (candidateId base counter ∈ existingIds)
      then firstFreeCounter existingIds base fuel' (counter + 1)
      else counter
  end.

Definition createIncidentId (date : Z) (subjectKey : string)
    (existingIds : gset string) : string :=
  let day := JsDate.isoDay date in
  let base := "inc-" +:+ day +:+ "-" +:+ subjectKey in
  if decide (base ∈ existingIds)
  then candidateId base (firstFreeCounter existingIds base (size existingIds) 2)
  else base.

(** Names every object inherits from [Object.prototype]: looking one of
    them up in an object literal gives a function or an object, and the
    [in] operator answers true for them on any object. *)
Definition objectPrototypeKeys : list string :=
  ["constructor"; "__proto__"; "hasOwnProperty"; "isPrototypeOf";
   "propertyIsEnumerable"; "toLocaleString"; "toString"; "valueOf";
   "__defineGetter__"; "__defineSetter__"; "__lookupGetter__";
   "__lookupSetter__"].

(** The string the value found under an inherited name converts to:
    [Object.prototype] itself under [__proto__], the function [Object]
    under [constructor], and the method of that name otherwise, as V8
    prints them. *)
Definition inheritedText (name : string) : string :=
  if decide (name = "__proto__") then "[object Object]"
  else if decide (name = "constructor") then "function Object() { [native code] }"
  else "function " +:+ name +:+ "() { [native code] }".

(** What a lookup in the rank table gives: a number, or for an inherited
    name a function or an object, kept as the string it converts to. *)
Inductive Rank :=
  | RankNumber (n : Z)
  | RankObject (text : string).

Definition severityRank (severity : string) : Rank :=
  if decide (severity = "operational") then RankNumber 0
  else if decide (severity = "minor") then RankNumber 1
  else if decide (severity = "degraded") then RankNumber 1
  else if decide (severity = "major") then RankNumber 2
  else if decide (severity = "critical") then RankNumber 3
  else if decide (severity ∈ objectPrototypeKeys)
       then RankObject (inheritedText severity)
       else RankNumber 0.

(** [a > b] on ranks: numbers compare as numbers and two objects as the
    strings they convert to, by code units; an object against a number
    converts to NaN, and the comparison is false. *)
Definition rankGt (a b : Rank) : bool :=
  match a, b with
  | RankNumber x, RankNumber y => y <? x
  | RankObject s, RankObject t => String.ltb t s
  | _, _ => false
  end.

Definition isCandidate (event : Event.t) (incident : Incident.t) : bool :=
  bool_decide (Incident.ingestion_key incident = Event.subjectKey event)
  || bool_decide (normalizeSubject (Incident.title incident)
                  = normalizeSubject (Event.title event)).

Definition isOpen (incident : Incident.t) : bool :=
  negb (bool_decide (Incident.status incident = "resolved")).

(** Most recent first: [new Date(b.started_at) - new Date(a.started_at)] *)
Definition startedDesc (a b : Incident.t) : bool :=
  Incident.started_at b <=? Incident.started_at a.

(** The candidates, each with its index in [shard.items], most recent
    first. *)
Definition candidatesOf (items : list Incident.t) (event : Event.t)
    : list (nat * Incident.t) :=
  sortBy (fun a b => startedDesc a.2 b.2)
         (filter (fun p => isCandidate event p.2 = true) (imap pair items)).

Definition findMatchingIncident (shard : Shard.t) (event : Event.t)
    : option (nat * Incident.t) :=
  let candidates := candidatesOf (Shard.items shard) event in
  match List.find (fun p => isOpen p.2) candidates with
  | Some p => Some p
  | None => head candidates
  end.

(** [Array.from(new Set(l))]: first occurrences, in order. *)
Definition uniqueInto {A} `{EqDecision A} (seen : list A) (l : list A) : list A :=
  fold_left (fun acc x => if decide (x ∈ acc) then acc else acc ++ [x]) l seen.

Definition arrayFromSet {A} `{EqDecision A} (l : list A) : list A :=
  uniqueInto [] l.

(** The incident created when nothing matches (its [updates] still empty). *)
Definition newIncident (existingIds : gset string) (event : Event.t)
    (timestamp : Z) : Incident.t :=
  {| Incident.id := createIncidentId timestamp (Event.subjectKey event) existingIds;
     Incident.title := Event.title event;
     Incident.severity := Event.severity event;
     Incident.status := Event.incidentStatus event;
     Incident.started_at := timestamp;
     Incident.resolved_at :=
       if decide (Event.incidentStatus event = "resolved") then Some timestamp else None;
     Incident.affected_segments := Event.affectedSegments event;
     Incident.summary := Event.summary event;
     Incident.updates := [];
     Incident.ingestion_key := Event.subjectKey event |}.

(** The field merge applied to a matched incident. *)
Definition mergeEvent (incident : Incident.t) (event : Event.t)
    (timestamp : Z) : Incident.t :=
  let resolving := bool_decide (Event.incidentStatus event = "resolved") in
  let wasResolved := bool_decide (Incident.status incident = "resolved") in
  {| Incident.id := Incident.id incident;
     Incident.title := orElse (Incident.title incident) (Event.title event);
     Incident.severity :=
       if rankGt (severityRank (Event.severity event))
                 (severityRank (Incident.severity incident))
       then Event.severity event
       else Incident.severity incident;
     Incident.status :=
       if resolving then "resolved"
       else if wasResolved then "investigating"
       else orElse (Event.incidentStatus event) (Incident.status incident);
     Incident.started_at := Incident.started_at incident;
     Incident.resolved_at :=
       if resolving then Some timestamp
       else if wasResolved then None
       else Incident.resolved_at incident;
     Incident.affected_segments :=
       arrayFromSet (Incident.affected_segments incident
                     ++ Event.affectedSegments event);
     Incident.summary := orElse (Event.summary event) (Incident.summary incident);
     Incident.updates := Incident.updates incident;
     Incident.ingestion_key := Incident.ingestion_key incident |}.

Definition withUpdates (incident : Incident.t) (us : list Update.t) : Incident.t :=
  {| Incident.id := Incident.id incident;
     Incident.title := Incident.title incident;
     Incident.severity := Incident.severity incident;
     Incident.status := Incident.status incident;
     Incident.started_at := Incident.started_at incident;
     Incident.resolved_at := Incident.resolved_at incident;
     Incident.affected_segments := Incident.affected_segments incident;
     Incident.summary := Incident.summary incident;
     Incident.updates := us;
     Incident.ingestion_key := Incident.ingestion_key incident |}.

Definition updateOf (event : Event.t) (timestamp : Z) : Update.t :=
  {| Update.timestamp := timestamp;
     Update.state := Event.updateState event;
     Update.message := Event.updateMessage event;
     Update.source_message_id := Event.messageId event |}.

Definition alreadyHasMessage (us : list Update.t) (event : Event.t) : bool :=
  existsb (fun u => bool_decide (Update.source_message_id u = Event.messageId event)) us.

(** [new Date(a.timestamp) - new Date(b.timestamp)] *)
Definition timestampAsc (a b : Update.t) : bool :=
  Update.timestamp a <=? Update.timestamp b.

(** The update history after the event: appended and re-sorted unless the
    message is already there. *)
Definition recordUpdate (us : list Update.t) (event : Event.t)
    (timestamp : Z) : list Update.t :=
  if alreadyHasMessage us event then us
  else sortBy timestampAsc (us ++ [updateOf event timestamp]).

(** Returns the shard after the call, and the incident the call returns
    with its index in [items]. *)
Definition upsertIncidentInShard (shard : Shard.t) (event : Event.t)
    : result (Shard.t * (nat * Incident.t)) :=
  let items := Shard.items shard in
  let existingIds : gset string := list_to_set (map Incident.id items) in
  let found := findMatchingIncident shard event in
  match Event.receivedAt event with
  | NotADate => Throw RangeError
  | IsoDate timestamp =>
      let touched :=
        match found with
        | None => newIncident existingIds event timestamp
        | Some (_, incident) => mergeEvent incident event timestamp
        end in
      let incident :=
        withUpdates touched (recordUpdate (Incident.updates touched) event timestamp) in
      match found with
      | None =>
          Ok ({| Shard.period := Shard.period shard;
                 Shard.items := items ++ [incident] |},
              (length items, incident))
      | Some (idx, _) =>
          Ok ({| Shard.period := Shard.period shard;
                 Shard.items := <[idx := incident]> items |},
              (idx, incident))
      end
  end.

(** ** The repository of shards *)

Module Store.
Record t := {
  indexFiles : list string;
  shards : gmap string Shard.t
}.
Definition empty : t := {| indexFiles := []; shards := ∅ |}.
End Store.

Section Repo.
Variable tzOffsetMs : Z -> Z.

Definition getShardRepoPathForDate (date : Z) : string :=
  let year := JsDate.getFullYear tzOffsetMs date in
  let month := JsDate.padStart 2 (JsDate.getMonth tzOffsetMs date + 1) in
  "data/incidents/" +:+ pretty year +:+ "-" +:+ month +:+ "/incidents.json".

(** [unique.sort().reverse()] of the index *)
Definition saveIncidentsIndex (files : list string) : list string :=
  rev (sortBy String.leb (arrayFromSet files)).

Definition saveShard (shard : Shard.t) : Shard.t :=
  {| Shard.period := Shard.period shard;
     Shard.items := sortBy startedDesc (Shard.items shard) |}.

Definition loadShard (store : Store.t) (path period : string) : Shard.t :=
  match Store.shards store !! path with
  | Some shard => shard
  | None => {| Shard.period := period; Shard.items := [] |}
  end.

(** Returns the repository after the call, and the incident the call
    returns or the error it throws. *)
Definition applyEventToRepo (store : Store.t) (event : Event.t)
    : Store.t * result Incident.t :=
  match Event.receivedAt event with
  | NotADate => (store, Throw RangeError)
  | IsoDate eventDate =>
      let period := JsDate.isoMonth eventDate in
      let path := getShardRepoPathForDate eventDate in
      let files :=
        if decide (path ∈ Store.indexFiles store) then Store.indexFiles store
        else saveIncidentsIndex (Store.indexFiles store ++ [path]) in
      let store1 := {| Store.indexFiles := files; Store.shards := Store.shards store |} in
      let loaded := loadShard store1 path period in
      let shard := {| Shard.period := period; Shard.items := Shard.items loaded |} in
      match upsertIncidentInShard shard event with
      | Throw e => (store1, Throw e)
      | Ok (shard', (_, incident)) =>
          ({| Store.indexFiles := files;
              Store.shards := <[path := saveShard shard']> (Store.shards store) |},
           Ok incident)
      end
  end.

(** [collectAllIncidents]: every incident of every shard the index lists,
    most recent first. *)
Definition collectAllIncidents (store : Store.t) : list Incident.t :=
  sortBy startedDesc
    (concat (map (fun path =>
                    match Store.shards store !! path with
                    | Some shard => Shard.items shard
                    | None => []
                    end)
                 (Store.indexFiles store))).

(** The events of a run, one at a time; a throw ends the run. *)
Fixpoint applyEvents (store : Store.t) (events : list Event.t) : Store.t :=
  match events with
  | [] => store
  | event :: rest =>
      match applyEventToRepo store event with
      | (store', Ok _) => applyEvents store' rest
      | (store', Throw _) => store'
      end
  end.

(** One message of the ingestion loop: normalize, then reconcile. *)
Definition ingestMessage (now : Z) (store : Store.t) (message : Message.t)
    : Store.t * result Incident.t :=
  applyEventToRepo store (buildParsedEvent now message).
End Repo.

(** ** The status file ([updateCurrentStatusFile]) *)

Module CurrentStatus.
Record t := {
  service_name : string;
  overall_status : string;
  status_message : string;
  updated_at : Z;
  active_incident_ids : list string
}.
End CurrentStatus.

(** [a - b] on ranks; [None] is NaN, which the difference is as soon as
    one of the two is not a number. *)
Definition rankDiff (a b : Rank) : option Z :=
  match a, b with
  | RankNumber x, RankNumber y => Some (x - y)
  | _, _ => None
  end.

(** The comparator of the sort of the active incidents: by severity, highest
    first, then most recent first.  It answers whether the comparator leaves
    [a] before [b], which it does when its value is not positive, NaN
    included. *)
Definition bySeverityThenStart (a b : Incident.t) : bool :=
  match rankDiff (severityRank (Incident.severity b))
                 (severityRank (Incident.severity a)) with
  | None => true
  | Some bySeverity =>
      if decide (bySeverity <> 0) then bySeverity <=? 0
      else Incident.started_at b - Incident.started_at a <=? 0
  end.

(** [current] is the content of the status file, [None] when it cannot be
    read. *)
Definition updateCurrentStatusFile (current : option CurrentStatus.t)
    (store : Store.t) (processedAtIso : Z) : CurrentStatus.t :=
  let current :=
    match current with
    | Some c => c
    | None =>
        {| CurrentStatus.service_name := "Caltrain";
           CurrentStatus.overall_status := "operational";
           CurrentStatus.status_message := "No active incidents.";
           CurrentStatus.updated_at := processedAtIso;
           CurrentStatus.active_incident_ids := [] |}
    end in
  let incidents := collectAllIncidents store in
  let active :=
    sortBy bySeverityThenStart
           (filter (fun i => Incident.status i <> "resolved") incidents) in
  let '(overallStatus, statusMessage) :=
    match active with
    | top :: _ =>
        (if decide (Incident.severity top = "critical") then "critical"
         else if decide (Incident.severity top = "major") then "major"
         else "degraded",
         orElse (Incident.summary top) (Incident.title top))
    | [] =>
        ("operational",
         "No active incidents. Trains are currently running under normal operations.")
    end in
  {| CurrentStatus.service_name := orElse (CurrentStatus.service_name current) "Caltrain";
     CurrentStatus.overall_status := overallStatus;
     CurrentStatus.status_message := statusMessage;
     CurrentStatus.updated_at := processedAtIso;
     CurrentStatus.active_incident_ids := map Incident.id active |}.

(** ** The environment file ([parseDotEnvFile]) *)

Section EnvFile.
Import Text.

(** [l.indexOf(c)] *)
Fixpoint indexOfChar (c : ascii) (l : list ascii) : option nat :=
  match l with
  | [] => None
  | x :: r => if Ascii.eqb x c then Some 0%nat else S <$> indexOfChar c r
  end.

Definition startsWithChar (c : ascii) (l : list ascii) : bool :=
  match l with
  | x :: _ => Ascii.eqb x c
  | [] => false
  end.

Definition endsWithChar (c : ascii) (l : list ascii) : bool :=
  startsWithChar c (rev l).

(** The quotes around a value are removed: [value.slice(1, -1)]. *)
Definition unquote (value : list ascii) : list ascii :=
  if (startsWithChar "034" value && endsWithChar "034" value)
     || (startsWithChar "'" value && endsWithChar "'" value)
  then removelast (tail value)
  else value.

(** The variable a line defines, if it defines one. *)
Definition parseDotEnvLine (line : list ascii) : option (string * string) :=
  let trimmed := trimChars line in
  match trimmed with
  | [] => None
  | _ =>
      if startsWithChar "#" trimmed then None
      else
        match indexOfChar "=" trimmed with
        | None => None
        | Some eq =>
            Some (str (trimChars (take eq trimmed)),
                  str (unquote (trimChars (drop (S eq) trimmed))))
        end
  end.

(** [if (!(key in process.env)) process.env[key] = value].  [in] holds of
    the variables that are set and of the names [process.env] inherits as
    an object, so a line never sets one of those.  The environment holds
    no variable with an empty name: the assignment of one is dropped. *)
Definition setIfAbsent (env : gmap string string) (key value : string)
    : gmap string string :=
  if decide (is_Some (env !! key)) then env
  else if decide (key ∈ objectPrototypeKeys) then env
  else if decide (key = "") then env
  else <[key := value]> env.

Definition parseDotEnvStep (env : gmap string string) (line : list ascii)
    : gmap string string :=
  match parseDotEnvLine line with
  | Some (key, value) => setIfAbsent env key value
  | None => env
  end.

(** [file] is the text of the file, [None] when there is no file. *)
Definition parseDotEnvFile (file : option string) (env : gmap string string)
    : gmap string string :=
  match file with
  | None => env
  | Some text => foldl parseDotEnvStep env (splitLines text)
  end.

(** [process.env[name] || fallback] *)
Definition envOr (env : gmap string string) (name fallback : string) : string :=
  orElse (default "" (env !! name)) fallback.

(** [/^(1|true|yes|on)$/i.test(raw)], or the default when the variable is
    not set. *)
Definition envBool (env : gmap string string) (name : string) (defaultValue : bool)
    : bool :=
  match env !! name with
  | None => defaultValue
  | Some raw => bool_decide (toLowerCase raw ∈ ["1"; "true"; "yes"; "on"])
  end.

End EnvFile.

(** ** The ingestion run ([main]) *)

Module IngestState.
Record t := {
  processed_message_ids : list string;
  last_run_at : option Z
}.
End IngestState.

(** [file] is the content of the state file, [None] when it cannot be
    read. *)
Definition loadState (file : option IngestState.t) : IngestState.t :=
  match file with
  | Some state => state
  | None => {| IngestState.processed_message_ids := [];
               IngestState.last_run_at := None |}
  end.

(** [l.slice(-n)] *)
Definition sliceLast {A} (n : nat) (l : list A) : list A :=
  drop (length l - n) l.

Definition saveState (now : Z) (state : IngestState.t) : IngestState.t :=
  {| IngestState.processed_message_ids :=
       sliceLast 5000 (arrayFromSet (IngestState.processed_message_ids state));
     IngestState.last_run_at := Some now |}.

Module Parsed.
(** A fetched message as the parser gives it, with the [uid] and the
    [internalDate] of the fetch.  A text field holds [""] when the message
    lacks it; [date] is [None] when the message has no date, and a date
    that is not valid is [NotADate]. *)
Record t := {
  uid : Z;
  messageId : string;
  subject : string;
  text : string;
  html : string;
  from : string;
  date : option DateString;
  internalDate : DateString
}.
End Parsed.

(** [date.toISOString()], read back as a timestamp string. *)
Definition toISOString (date : DateString) : result DateString :=
  match date with
  | NotADate => Throw RangeError
  | IsoDate ms => Ok (IsoDate ms)
  end.

Module Run.
(** The variables of the loop of [main]: the repository, [processedIds],
    [state.processed_message_ids], [processedCount], [changed], and the
    uids flagged as seen, in order. *)
Record t := {
  store : Store.t;
  processedIds : gset string;
  processed_message_ids : list string;
  processedCount : Z;
  changed : bool;
  seen : list Z
}.
End Run.

Module Files.
(** The three files the run reads and writes: the repository, the state
    file and the status file. *)
Record t := {
  store : Store.t;
  state : option IngestState.t;
  current : option CurrentStatus.t
}.
End Files.

Inductive MainError :=
  | MissingCredentials
  | Uncaught (e : JsError).

Section Main.
Import Text.
Variable tzOffsetMs : Z -> Z.
Variable env : gmap string string.

Definition passesFilters (parsed : Parsed.t) : bool :=
  let fromMatch := toLowerCase (trim (envOr env "INGEST_FROM_MATCH" "")) in
  let subjectMatch := toLowerCase (trim (envOr env "INGEST_SUBJECT_MATCH" "")) in
  let from := toLowerCase (Parsed.from parsed) in
  let subject := toLowerCase (Parsed.subject parsed) in
  if negb (bool_decide (fromMatch = "")) && negb (includes from fromMatch) then false
  else if negb (bool_decide (subjectMatch = "")) && negb (includes subject subjectMatch)
       then false
       else true.

(** [parsed.messageId || `uid-${msg.uid}`] *)
Definition messageIdOf (msg : Parsed.t) : string :=
  orElse (Parsed.messageId msg) ("uid-" +:+ pretty (Parsed.uid msg)).

(** [if (markSeen) await client.messageFlagsAdd(msg.uid, ["\\Seen"])] *)
Definition flagSeen (markSeen : bool) (seen : list Z) (msg : Parsed.t) : list Z :=
  if markSeen then seen ++ [Parsed.uid msg] else seen.

(** The body of the loop for one fetched message; the error is the
    exception that ends the run, if one is thrown. *)
Definition processMessage (now : Z) (markSeen : bool) (run : Run.t) (msg : Parsed.t)
    : Run.t * option JsError :=
  let messageId := messageIdOf msg in
  if decide (messageId ∈ Run.processedIds run) then
    ({| Run.store := Run.store run;
        Run.processedIds := Run.processedIds run;
        Run.processed_message_ids := Run.processed_message_ids run;
        Run.processedCount := Run.processedCount run;
        Run.changed := Run.changed run;
        Run.seen := flagSeen markSeen (Run.seen run) msg |}, None)
  else if negb (passesFilters msg) then
    ({| Run.store := Run.store run;
        Run.processedIds := {[messageId]} ∪ Run.processedIds run;
        Run.processed_message_ids := Run.processed_message_ids run ++ [messageId];
        Run.processedCount := Run.processedCount run;
        Run.changed := Run.changed run;
        Run.seen := flagSeen markSeen (Run.seen run) msg |}, None)
  else
    match toISOString (match Parsed.date msg with
                       | Some date => date
                       | None => Parsed.internalDate msg
                       end) with
    | Throw e => (run, Some e)
    | Ok receivedAt =>
        let event :=
          buildParsedEvent now
            {| Message.messageId := messageId;
               Message.subject := orElse (Parsed.subject msg) "";
               Message.bodyText := orElse (Parsed.text msg) (orElse (Parsed.html msg) "");
               Message.receivedAt := Some receivedAt |} in
        match applyEventToRepo tzOffsetMs (Run.store run) event with
        | (store, Throw e) =>
            ({| Run.store := store;
                Run.processedIds := Run.processedIds run;
                Run.processed_message_ids := Run.processed_message_ids run;
                Run.processedCount := Run.processedCount run;
                Run.changed := Run.changed run;
                Run.seen := Run.seen run |}, Some e)
        | (store, Ok _) =>
            ({| Run.store := store;
                Run.processedIds := {[messageId]} ∪ Run.processedIds run;
                Run.processed_message_ids := Run.processed_message_ids run ++ [messageId];
                Run.processedCount := Run.processedCount run + 1;
                Run.changed := true;
                Run.seen := flagSeen markSeen (Run.seen run) msg |}, None)
        end
    end.

(** The loop over the fetched messages. *)
Fixpoint processAll (now : Z) (markSeen : bool) (run : Run.t) (fetched : list Parsed.t)
    : Run.t * option JsError :=
  match fetched with
  | [] => (run, None)
  | msg :: rest =>
      match processMessage now markSeen run msg with
      | (run', None) => processAll now markSeen run' rest
      | (run', Some e) => (run', Some e)
      end
  end.

(** One run over the unseen messages [fetched], the mail server answering
    every request.  [now] is the time of the run.  Returns the files the
    run leaves, the uids it flagged as seen, and the error it ends with, if
    any. *)
Definition main (now : Z) (files : Files.t) (fetched : list Parsed.t)
    : Files.t * list Z * option MainError :=
  if bool_decide (envOr env "GMAIL_USER" "" = "")
     || bool_decide (envOr env "GMAIL_APP_PASSWORD" "" = "")
  then (files, [], Some MissingCredentials)
  else
    let state := loadState (Files.state files) in
    let markSeen := envBool env "IMAP_MARK_SEEN" true in
    let run0 :=
      {| Run.store := Files.store files;
         Run.processedIds := list_to_set (IngestState.processed_message_ids state);
         Run.processed_message_ids := IngestState.processed_message_ids state;
         Run.processedCount := 0;
         Run.changed := false;
         Run.seen := [] |} in
    match fetched with
    | [] =>
        ({| Files.store := Files.store files;
            Files.state := Some (saveState now state);
            Files.current := Files.current files |}, [], None)
    | _ =>
        match processAll now markSeen run0 fetched with
        | (run, Some e) =>
            ({| Files.store := Run.store run;
                Files.state := Files.state files;
                Files.current := Files.current files |}, Run.seen run, Some (Uncaught e))
        | (run, None) =>
            ({| Files.store := Run.store run;
                Files.state :=
                  Some (saveState now
                          {| IngestState.processed_message_ids :=
                               Run.processed_message_ids run;
                             IngestState.last_run_at := IngestState.last_run_at state |});
                Files.current :=
                  if Run.changed run
                  then Some (updateCurrentStatusFile (Files.current files)
                                                     (Run.store run) now)
                  else Files.current files |}, Run.seen run, None)
        end
    end.

End Main.

(** ** Uptime calculator ([app.js]) *)

Module Segment.
(** [end_] is the field [end] of the source. *)
Record t := {
  start : Z;
  end_ : Z;
  severity : string
}.
End Segment.

Definition HOUR_MS : Z := 60 * 60 * 1000.
Definition DAY_MS : Z := 24 * HOUR_MS.

Definition clipSegment (windowStart windowEnd : Z) (segment : Segment.t)
    : option Segment.t :=
  let start := Z.max (Segment.start segment) windowStart in
  let end_ := Z.min (Segment.end_ segment) windowEnd in
  if end_ <=? start then None
  else Some {| Segment.start := start; Segment.end_ := end_;
               Segment.severity := Segment.severity segment |}.

Definition startAsc (a b : Segment.t) : bool :=
  Segment.start a <=? Segment.start b.

Definition clippedSegments (segments : list Segment.t)
    (windowStart windowEnd : Z) : list Segment.t :=
  sortBy startAsc (omap (clipSegment windowStart windowEnd) segments).

(** [Math.floor(x / 60_000)] and [Math.ceil(x / 60_000)] *)
Definition floorMinute (x : Z) : Z := x / 60000.
Definition ceilMinute (x : Z) : Z := - ((- x) / 60000).

(** The buckets the inner loop adds for one segment. *)
Definition bucketsOf (segment : Segment.t) : list Z :=
  let startBucket := floorMinute (Segment.start segment) in
  let endExclusiveBucket := ceilMinute (Segment.end_ segment) in
  seqZ startBucket (endExclusiveBucket - startBucket).

Definition occupy (occupiedBuckets : gset Z) (segment : Segment.t) : gset Z :=
  foldl (fun occupied bucket => {[bucket]} ∪ occupied) occupiedBuckets
        (bucketsOf segment).

Definition mergedDowntimeBuckets (segments : list Segment.t)
    (windowStart windowEnd : Z) : Z :=
  let clipped := clippedSegments segments windowStart windowEnd in
  match clipped with
  | [] => 0
  | _ => Z.of_nat (size (foldl occupy ∅ clipped))
  end.

Definition uptimeForWindow (segments : list Segment.t)
    (windowStart windowEnd : Z) : Q :=
  let denominator := ceilMinute windowEnd - floorMinute windowStart in
  if denominator <=? 0 then 100%Q
  else
    let downtime := mergedDowntimeBuckets segments windowStart windowEnd in
    Qmax 0 (Qmin 100 ((inject_Z (denominator - downtime) / inject_Z denominator) * 100))%Q.

Definition uptimeBandForPercent (value : Q) : string :=
  if Qle_bool 98 value then "operational"
  else if Qle_bool 95 value then "degraded"
  else "major".

Definition addDays (date days : Z) : Z := date + days * DAY_MS.

Module DayRow.
Record t := {
  date : string;
  uptime_percent : Q;
  uptime_band : string
}.
End DayRow.

(** One row of [recent_days] in [computeUptimeFromIncidents]. *)
Definition recentDay (segments : list Segment.t) (completedDayBoundary offset : Z)
    : DayRow.t :=
  let dayStart := addDays completedDayBoundary offset in
  let dayEnd := addDays dayStart 1 in
  let dayUptime := uptimeForWindow segments dayStart dayEnd in
  {| DayRow.date := JsDate.isoDay dayStart;
     DayRow.uptime_percent := dayUptime;
     DayRow.uptime_band := uptimeBandForPercent dayUptime |}.

(** The [recent_days] of [computeUptimeFromIncidents]: offsets -29 to 0
    from the start of the current day. *)
Definition recentDays (segments : list Segment.t) (completedDayBoundary : Z)
    : list DayRow.t :=
  map (recentDay segments completedDayBoundary) (seqZ (-29) 30).

(** The [summary] of [computeUptimeFromIncidents]: last 24 hours, 30 days
    and 90 days. *)
Definition summaryOf (segments : list Segment.t) (referenceNow : Z) : Q * Q * Q :=
  (uptimeForWindow segments (referenceNow - DAY_MS) referenceNow,
   uptimeForWindow segments (referenceNow - 30 * DAY_MS) referenceNow,
   uptimeForWindow segments (referenceNow - 90 * DAY_MS) referenceNow).

(** Values a field read from a JSON document can hold. *)
Inductive JsValue :=
  | JsUndefined
  | JsNull
  | JsBool (b : bool)
  | JsNumber (x : Q)
  | JsString (s : string)
  | JsObject.

(** [!value] *)
Definition falsy (value : JsValue) : bool :=
  match value with
  | JsUndefined | JsNull => true
  | JsBool b => negb b
  | JsNumber x => Qeq_bool x 0
  | JsString s => bool_decide (s = "")
  | JsObject => false
  end.

(** [value === "..."] *)
Definition isString (value : JsValue) (s : string) : bool :=
  match value with
  | JsString s' => bool_decide (s' = s)
  | _ => false
  end.

Definition normalizeSeverity (value : JsValue) : string :=
  if falsy value then "operational"
  else if isString value "degraded" then "degraded"
  else if isString value "minor" then "minor"
  else if isString value "major" then "major"
  else if isString value "critical" then "critical"
  else if isString value "identified" || isString value "investigating"
          || isString value "monitoring" then "degraded"
  else if isString value "resolved" then "operational"
  else "degraded".

(** ** Outage segments ([app.js])

    What the page reads of an incident file.  A text field holds [""] when
    the incident lacks it. *)

(** A date field of an incident file: absent, [null], or a string. *)
Inductive DateField :=
  | DateAbsent
  | DateNull
  | DateText (d : DateString).

Module Note.
Record t := {
  message : string;
  timestamp : DateField;
  state : JsValue
}.
End Note.

Module Entry.
Record t := {
  title : string;
  summary : string;
  severity : JsValue;
  started_at : DateField;
  resolved_at : DateField;
  updates : list Note.t
}.
End Entry.

(** [new Date(undefined)] is not a date; [new Date(null)] is the epoch. *)
Definition parseDate (value : DateField) : option Z :=
  match value with
  | DateAbsent => None
  | DateNull => Some 0
  | DateText NotADate => None
  | DateText (IsoDate ms) => Some ms
  end.

Section DelayText.
Import Text.

Fixpoint takeWhile {A} (p : A -> bool) (l : list A) : list A :=
  match l with
  | [] => []
  | x :: r => if p x then x :: takeWhile p r else []
  end.

(** [Number(digits)] for a run of decimal digits *)
Definition digitsValue (digits : list ascii) : Z :=
  fold_left (fun acc c => 10 * acc + (Z.of_nat (code c) - 48)) digits 0.

(** [(\d+)\s*(?:min|mins|minute|minutes)\b] read at the head of [l]: the
    number of the group. *)
Definition delayAt (l : list ascii) : option Z :=
  match takeWhile isDigit l with
  | [] => None
  | digits =>
      match matchWordAt ["min"; "mins"; "minute"; "minutes"]
                        (dropWhile isSpace (dropWhile isDigit l)) with
      | Some _ => Some (digitsValue digits)
      | None => None
      end
  end.

(** The leftmost match. *)
Fixpoint firstDelay (l : list ascii) : option Z :=
  match delayAt l with
  | Some minutes => Some minutes
  | None => match l with [] => None | _ :: r => firstDelay r end
  end.

Definition parseDelayMinutes (text : string) : option Z :=
  if decide (text = "") then None else firstDelay (chars text).

(** [a ?? b] *)
Definition orNullish {A} (a b : option A) : option A :=
  match a with Some _ => a | None => b end.

Definition severityForIncident (incident : Entry.t) : string :=
  let title := toLowerCase (Entry.title incident) in
  let summary := toLowerCase (Entry.summary incident) in
  let updateMessages :=
    String.concat " " (map (fun update => toLowerCase (Note.message update))
                           (Entry.updates incident)) in
  let haystack := title +:+ " " +:+ summary +:+ " " +:+ updateMessages in
  if hasWord ["canceled"; "cancelled"; "cancellation"; "cancel"] haystack
  then "critical"
  else if includes haystack "platform change" then "operational"
  else
    match orNullish (parseDelayMinutes title)
            (orNullish (parseDelayMinutes summary) (parseDelayMinutes updateMessages)) with
    | Some delayMinutes => if 30 <=? delayMinutes then "major" else "minor"
    | None => normalizeSeverity (Entry.severity incident)
    end.

End DelayText.

(** The segment one incident contributes, if any. *)
Definition outageSegmentOf (referenceNow : Z) (incident : Entry.t) : option Segment.t :=
  let incidentSeverity := severityForIncident incident in
  if decide (incidentSeverity = "operational") then None
  else
    match parseDate (Entry.started_at incident) with
    | None => None
    | Some startedAt =>
        let incidentEnd :=
          match parseDate (Entry.resolved_at incident) with
          | Some resolvedAt => resolvedAt
          | None => referenceNow
          end in
        if incidentEnd <=? startedAt then None
        else Some {| Segment.start := startedAt; Segment.end_ := incidentEnd;
                     Segment.severity := incidentSeverity |}
    end.

Definition buildOutageSegments (incidents : list Entry.t) (referenceNow : Z)
    : list Segment.t :=
  omap (outageSegmentOf referenceNow) incidents.

(** ** Escaping ([escapeHtml]) *)

Section Escaping.
Import Text.

(** [s.replaceAll(c, by)] for a one-character [c] *)
Definition replaceAllChar (c : ascii) (replacement : string) (l : list ascii)
    : list ascii :=
  flat_map (fun x => if Ascii.eqb x c then chars replacement else [x]) l.

Definition escapeHtml (value : string) : string :=
  let s1 := replaceAllChar "&" "&amp;" (chars value) in
  let s2 := replaceAllChar "<" "&lt;" s1 in
  let s3 := replaceAllChar ">" "&gt;" s2 in
  let s4 := replaceAllChar "034" "&quot;" s3 in
  let s5 := replaceAllChar "'" "&#39;" s4 in
  str s5.

End Escaping.

(** ** The earlier revision of [app.js] *)

Module Legacy.

(** The loop of [mergedDowntimeMs] over the segments after the first. *)
Fixpoint mergeRuns (total currentStart currentEnd : Z) (rest : list Segment.t) : Z :=
  match rest with
  | [] => total + (currentEnd - currentStart)
  | segment :: rest' =>
      if Segment.start segment <=? currentEnd
      then mergeRuns total currentStart (Z.max currentEnd (Segment.end_ segment)) rest'
      else mergeRuns (total + (currentEnd - currentStart))
                     (Segment.start segment) (Segment.end_ segment) rest'
  end.

Definition mergedDowntimeMs (segments : list Segment.t)
    (windowStart windowEnd : Z) : Z :=
  match clippedSegments segments windowStart windowEnd with
  | [] => 0
  | first :: rest => mergeRuns 0 (Segment.start first) (Segment.end_ first) rest
  end.

Definition uptimeForWindow (segments : list Segment.t)
    (windowStart windowEnd : Z) : Q :=
  let denominator := windowEnd - windowStart in
  if denominator <=? 0 then 100%Q
  else
    let downtime := mergedDowntimeMs segments windowStart windowEnd in
    Qmax 0 (Qmin 100 ((inject_Z (denominator - downtime) / inject_Z denominator) * 100))%Q.

Definition severityForUptimePercent (value : Q) : string :=
  if Qle_bool 99.95 value then "operational"
  else if Qle_bool 99.0 value then "degraded"
  else if Qle_bool 97.0 value then "major"
  else "critical".

Definition normalizeSeverity : JsValue -> string := normalizeSeverity.

(** [SEVERITY_RANK[severity] || 0] is [severityRank severity]: the number of
    the table, 0 for a name the table lacks, and the inherited function or
    object, which is truthy, otherwise. *)
Definition maxSeverityForWindow (segments : list Segment.t)
    (windowStart windowEnd : Z) : string :=
  foldl (fun max segment =>
           if (Segment.end_ segment <=? windowStart)
              || (windowEnd <=? Segment.start segment)
           then max
           else if rankGt (severityRank (Segment.severity segment)) (severityRank max)
                then Segment.severity segment
                else max)
        "operational" segments.

(** The updates of an incident that carry a date, each with the severity
    of its state, in order of time. *)
Definition datedUpdates (updates : list Note.t) : list (Z * string) :=
  sortBy (fun a b => a.1 <=? b.1)
         (omap (fun update =>
                  match parseDate (Note.timestamp update) with
                  | Some timestampDate =>
                      Some (timestampDate, normalizeSeverity (Note.state update))
                  | None => None
                  end)
               updates).

(** The loop over the updates: one segment from each update to the next. *)
Fixpoint updateSegments (startedAt incidentEnd : Z) (updates : list (Z * string))
    : list Segment.t :=
  match updates with
  | [] => []
  | currentUpdate :: rest =>
      let segStart := Z.max startedAt currentUpdate.1 in
      let segEnd :=
        Z.min incidentEnd
              (match rest with
               | nextUpdate :: _ => nextUpdate.1
               | [] => incidentEnd
               end) in
      (if (segEnd <=? segStart) || bool_decide (currentUpdate.2 = "operational")
       then []
       else [{| Segment.start := segStart; Segment.end_ := segEnd;
                Segment.severity := currentUpdate.2 |}])
      ++ updateSegments startedAt incidentEnd rest
  end.

Definition incidentSegments (referenceNow : Z) (incident : Entry.t) : list Segment.t :=
  match parseDate (Entry.started_at incident) with
  | None => []
  | Some startedAt =>
      let incidentEnd :=
        match parseDate (Entry.resolved_at incident) with
        | Some resolvedAt => resolvedAt
        | None => referenceNow
        end in
      if incidentEnd <=? startedAt then []
      else
        match datedUpdates (Entry.updates incident) with
        | [] =>
            let severity := normalizeSeverity (Entry.severity incident) in
            if decide (severity = "operational") then []
            else [{| Segment.start := startedAt; Segment.end_ := incidentEnd;
                     Segment.severity := severity |}]
        | updates => updateSegments startedAt incidentEnd updates
        end
  end.

Definition buildOutageSegments (incidents : list Entry.t) (referenceNow : Z)
    : list Segment.t :=
  concat (map (incidentSegments referenceNow) incidents).

End Legacy.

(** ** Vocabulary of the properties *)

(** The incident a call leaves when it matched one, and when it created
    one. *)
Definition touchedBy (incident : Incident.t) (event : Event.t) (timestamp : Z)
    : Incident.t :=
  withUpdates (mergeEvent incident event timestamp)
              (recordUpdate (Incident.updates incident) event timestamp).

Definition createdBy (items : list Incident.t) (event : Event.t) (timestamp : Z)
    : Incident.t :=
  withUpdates
    (newIncident (list_to_set (map Incident.id items)) event timestamp)
    (recordUpdate [] event timestamp).

(** Putting [incident'] in the place of the incident at [idx]. *)
Definition replaceAt (idx : nat) (incident' : Incident.t)
    (p : nat * Incident.t) : nat * Incident.t :=
  if decide (p.1 = idx) then (idx, incident') else p.

Definition byTimestamp (a b : Update.t) : Prop :=
  Update.timestamp a <= Update.timestamp b.

(** The update history the call starts from: that of the matched incident,
    or the empty history of the incident it creates. *)
Definition updatesBefore (shard : Shard.t) (event : Event.t) : list Update.t :=
  match findMatchingIncident shard event with
  | Some (_, incident) => Incident.updates incident
  | None => []
  end.

Definition keysUnique (items : list Incident.t) : Prop :=
  NoDup (Incident.ingestion_key <$> items).

Definition idsUnique (items : list Incident.t) : Prop :=
  NoDup (Incident.id <$> items).

Definition historiesSorted (items : list Incident.t) : Prop :=
  Forall (fun incident => Sorted byTimestamp (Incident.updates incident)) items.

(** A property of the items of every shard of the repository. *)
Definition everyShard (P : list Incident.t -> Prop) (store : Store.t) : Prop :=
  forall path shard, Store.shards store !! path = Some shard ->
                     P (Shard.items shard).

Definition canonicalSeverities : list string :=
  ["operational"; "minor"; "degraded"; "major"; "critical"].

(** The minute [b] is touched by [segment] once clipped to the window. *)
Definition touches (windowStart windowEnd : Z) (b : Z) (segment : Segment.t) : Prop :=
  let start := Z.max (Segment.start segment) windowStart in
  let end_ := Z.min (Segment.end_ segment) windowEnd in
  start < end_ /\ floorMinute start <= b < ceilMinute end_.

#[global] Instance touches_dec ws we b segment : Decision (touches ws we b segment).
Proof. unfold touches. apply _. Defined.

Definition occupiedBuckets (segments : list Segment.t) (ws we : Z) : gset Z :=
  foldl occupy ∅ (clippedSegments segments ws we).

(** The measure of the union of the segments within a window, in the words
    of the specification: the number of instants of the window that some
    segment covers.  Instants and window bounds are in the same unit. *)
Definition covers (segments : list Segment.t) (t : Z) : Prop :=
  Exists (fun segment => Segment.start segment <= t < Segment.end_ segment) segments.

Definition unionMeasure (segments : list Segment.t) (windowStart windowEnd : Z) : Z :=
  Z.of_nat (length (filter (covers segments)
                           (seqZ windowStart (windowEnd - windowStart)))).

(** The number of instants of [lo, hi) that satisfy [P]. *)
Definition countIn (P : Z -> Prop) `{forall t, Decision (P t)} (lo hi : Z) : Z :=
  Z.of_nat (length (filter P (seqZ lo (hi - lo)))).

Definition startsBefore (a b : Segment.t) : Prop :=
  Segment.start a <= Segment.start b.

(** A clipped segment that starts at [from] or later and ends by [upto]. *)
Definition within (from upto : Z) (c : Segment.t) : Prop :=
  from <= Segment.start c /\ Segment.start c < Segment.end_ c
  /\ Segment.end_ c <= upto.

(** A segment given in minutes, in the milliseconds of the code. *)
Definition wholeMinutes (segment : Segment.t) : Segment.t :=
  {| Segment.start := 60000 * Segment.start segment;
     Segment.end_ := 60000 * Segment.end_ segment;
     Segment.severity := Segment.severity segment |}.

Definition seg (start end_ : Z) (severity : string) : Segment.t :=
  {| Segment.start := start; Segment.end_ := end_; Segment.severity := severity |}.

(** The character [c] never comes twice in a row. *)
Definition noRepeat (c : ascii) (l : list ascii) : Prop :=
  forall i, l !! i = Some c -> l !! S i <> Some c.

(** What every event of the normalizer looks like. *)
Definition eventShape (event : Event.t) : Prop :=
  (Event.severity event, Event.incidentStatus event, Event.updateState event)
    ∈ [("minor", "resolved", "operational");
       ("critical", "investigating", "critical");
       ("major", "investigating", "major");
       ("minor", "investigating", "degraded")]
  /\ Event.affectedSegments event
       ∈ [["System-wide"]; ["Northbound"]; ["Southbound"];
          ["Northbound"; "Southbound"]; ["Southbound"; "Northbound"]]
  /\ Event.subject event <> ""
  /\ Event.subjectKey event <> ""
  /\ Event.title event <> ""
  /\ Event.summary event <> ""
  /\ Event.updateMessage event <> "".

(** What every incident written by the script looks like. *)
Definition incidentShape (incident : Incident.t) : Prop :=
  Incident.status incident ∈ ["investigating"; "resolved"]
  /\ (Incident.status incident = "resolved" <-> is_Some (Incident.resolved_at incident))
  /\ Incident.severity incident ∈ ["minor"; "major"; "critical"]
  /\ Incident.title incident <> ""
  /\ Incident.summary incident <> ""
  /\ Incident.ingestion_key incident <> ""
  /\ Incident.affected_segments incident <> []
  /\ NoDup (Incident.affected_segments incident)
  /\ Incident.affected_segments incident ⊆ ["Northbound"; "Southbound"; "System-wide"]
  /\ Incident.updates incident <> [].

(** No incident records a message twice. *)
Definition messagesOnce (items : list Incident.t) : Prop :=
  Forall (fun incident =>
            NoDup (Update.source_message_id <$> Incident.updates incident)) items.

Definition mostRecentFirst (items : list Incident.t) : Prop :=
  Sorted (fun a b => Incident.started_at b <= Incident.started_at a) items.

(** Every shard file is listed in the index. *)
Definition indexed (store : Store.t) : Prop :=
  forall path, is_Some (Store.shards store !! path) -> path ∈ Store.indexFiles store.

(** [incident'] continues [incident]: same id, key and start, and nothing
    of its history or of its affected segments is lost. *)
Definition continues (incident incident' : Incident.t) : Prop :=
  Incident.id incident' = Incident.id incident
  /\ Incident.ingestion_key incident' = Incident.ingestion_key incident
  /\ Incident.started_at incident' = Incident.started_at incident
  /\ (forall u, u ∈ Incident.updates incident -> u ∈ Incident.updates incident')
  /\ (forall s, s ∈ Incident.affected_segments incident ->
                s ∈ Incident.affected_segments incident').

(** The incidents that count for the status: those not resolved. *)
Definition activeIncidents (store : Store.t) : list Incident.t :=
  filter (fun i => Incident.status i <> "resolved") (collectAllIncidents store).

(** The severity of the incident has a rank that is a number. *)
Definition ranked (incident : Incident.t) : Prop :=
  exists rank, severityRank (Incident.severity incident) = RankNumber rank.

(** [processedIds] is the set of [state.processed_message_ids]. *)
Definition idsInStep (run : Run.t) : Prop :=
  forall id, id ∈ Run.processedIds run <-> id ∈ Run.processed_message_ids run.

(** The uids a completed run flags as seen. *)
Definition flagged (markSeen : bool) (fetched : list Parsed.t) : list Z :=
  if markSeen then Parsed.uid <$> fetched else [].

(** The date the event of a fetched message is given. *)
Definition dateOf (msg : Parsed.t) : DateString :=
  match Parsed.date msg with
  | Some date => date
  | None => Parsed.internalDate msg
  end.

(** The event a run builds for a fetched message. *)
Definition eventOf (now : Z) (msg : Parsed.t) : Event.t :=
  buildParsedEvent now
    {| Message.messageId := messageIdOf msg;
       Message.subject := Parsed.subject msg;
       Message.bodyText := orElse (Parsed.text msg) (Parsed.html msg);
       Message.receivedAt := Some (dateOf msg) |}.

(** The fetched messages a run reconciles: those that pass the filters and
    whose id is not among the [known] ones nor that of an earlier message
    of the run. *)
Fixpoint reconciled (env : gmap string string) (known : gset string)
    (fetched : list Parsed.t) : list Parsed.t :=
  match fetched with
  | [] => []
  | msg :: rest =>
      if decide (messageIdOf msg ∈ known) then reconciled env known rest
      else (if passesFilters env msg then [msg] else [])
           ++ reconciled env ({[messageIdOf msg]} ∪ known) rest
  end.

(** What [escapeHtml] puts in the place of a character. *)
Definition escapeChar (c : ascii) : list ascii :=
  if Ascii.eqb c "&" then Text.chars "&amp;"
  else if Ascii.eqb c "<" then Text.chars "&lt;"
  else if Ascii.eqb c ">" then Text.chars "&gt;"
  else if Ascii.eqb c "034" then Text.chars "&quot;"
  else if Ascii.eqb c "'" then Text.chars "&#39;"
  else [c].

(** Reading the five entities back.  [skip] counts the characters of an
    entity still to be dropped. *)
Definition entityAt (l : list ascii) : option (ascii * nat) :=
  match Text.matchExact (Text.chars "&amp;") l with
  | Some _ => Some ("&"%char, 5%nat)
  | None =>
  match Text.matchExact (Text.chars "&lt;") l with
  | Some _ => Some ("<"%char, 4%nat)
  | None =>
  match Text.matchExact (Text.chars "&gt;") l with
  | Some _ => Some (">"%char, 4%nat)
  | None =>
  match Text.matchExact (Text.chars "&quot;") l with
  | Some _ => Some ("034"%char, 6%nat)
  | None =>
  match Text.matchExact (Text.chars "&#39;") l with
  | Some _ => Some ("'"%char, 5%nat)
  | None => None
  end end end end end.

Fixpoint unescapeFrom (skip : nat) (l : list ascii) : list ascii :=
  match l with
  | [] => []
  | c :: r =>
      match skip with
      | S k => unescapeFrom k r
      | O =>
          match entityAt l with
          | Some (x, n) => x :: unescapeFrom (pred n) r
          | None => c :: unescapeFrom 0 r
          end
      end
  end.

Definition unescapeHtml (s : string) : string :=
  Text.str (unescapeFrom 0 (Text.chars s)).

(** The incident as the page reads it from the file the script wrote. *)
Definition entryOf (incident : Incident.t) : Entry.t :=
  {| Entry.title := Incident.title incident;
     Entry.summary := Incident.summary incident;
     Entry.severity := JsString (Incident.severity incident);
     Entry.started_at := DateText (IsoDate (Incident.started_at incident));
     Entry.resolved_at :=
       match Incident.resolved_at incident with
       | Some resolvedAt => DateText (IsoDate resolvedAt)
       | None => DateNull
       end;
     Entry.updates :=
       map (fun u => {| Note.message := Update.message u;
                        Note.timestamp := DateText (IsoDate (Update.timestamp u));
                        Note.state := JsString (Update.state u) |})
           (Incident.updates incident) |}.

(** [s] lies inside [s']. *)
Definition insideOf (s s' : Segment.t) : Prop :=
  Segment.start s' <= Segment.start s /\ Segment.end_ s <= Segment.end_ s'.

(** The end the page gives an incident. *)
Definition incidentEndOf (referenceNow : Z) (incident : Entry.t) : Z :=
  match parseDate (Entry.resolved_at incident) with
  | Some resolvedAt => resolvedAt
  | None => referenceNow
  end.

(** The severities of an outage. *)
Definition outageSeverities : list string := ["minor"; "degraded"; "major"; "critical"].

(** The segment meets the window. *)
Definition overlaps (windowStart windowEnd : Z) (segment : Segment.t) : Prop :=
  windowStart < Segment.end_ segment /\ Segment.start segment < windowEnd.

(** One turn of the loop of [maxSeverityForWindow] (earlier revision). *)
Definition maxStep (windowStart windowEnd : Z) (max : string) (segment : Segment.t)
    : string :=
  if (Segment.end_ segment <=? windowStart) || (windowEnd <=? Segment.start segment)
  then max
  else if rankGt (severityRank (Segment.severity segment)) (severityRank max)
       then Segment.severity segment
       else max.

(** [a] ends before [b] starts. *)
Definition endsBefore (a b : Segment.t) : Prop := Segment.end_ a <= Segment.start b.

(** ** Scenarios

    Concrete mails and shards on which the properties are exercised. *)

Module Scenario.

(** A host on UTC. *)
Definition utc (_ : Z) : Z := 0.

(** 2024-03-01 at 08:00, 09:00 and 10:00 UTC; 2024-01-15 and 2024-02-15 at
    10:00 UTC. *)
Definition at0800 : Z := 1709280000000.
Definition at0900 : Z := 1709283600000.
Definition at1000 : Z := 1709287200000.
Definition jan15 : Z := 1705312800000.
Definition feb15 : Z := 1707991200000.

Definition mail (messageId subject bodyText : string) (receivedAt : Z) : Message.t :=
  {| Message.messageId := messageId;
     Message.subject := subject;
     Message.bodyText := bodyText;
     Message.receivedAt := Some (IsoDate receivedAt) |}.

Definition newline : string := String "010" "".

(** A signal problem is reported, resolved, and reported again. *)
Definition signalOpen : Event.t :=
  buildParsedEvent 0 (mail "m1" "Caltrain Alert: Signal problem"
                           "Delays of 10 minutes northbound" at0800).
Definition signalResolved : Event.t :=
  buildParsedEvent 0 (mail "m2" "Caltrain Alert: Signal problem"
                           "Service restored" at0900).
Definition signalAgain : Event.t :=
  buildParsedEvent 0 (mail "m3" "Caltrain Alert: Signal problem"
                           "Delays again" at1000).

Definition signalWorse : Event.t :=
  buildParsedEvent 0 (mail "m4" "Caltrain Alert: Signal problem"
                           "Major disruption, trains holding" at0900).

Definition emptyShard : Shard.t := {| Shard.period := "2024-03"; Shard.items := [] |}.

Definition openIncident : Incident.t := createdBy [] signalOpen at0800.

Definition openShard : Shard.t :=
  {| Shard.period := "2024-03"; Shard.items := [openIncident] |}.

(** Two mails open two incidents; a third has the key of the first and the
    headline of the second. *)
Definition fooMail : Message.t := mail "m1" "Caltrain" "Foo" at0800.
Definition barMail : Message.t := mail "m2" "Bar" "Delays" at0900.
Definition barRestoredMail : Message.t :=
  mail "m3" "Caltrain" ("Bar" +:+ newline +:+ "Service restored") at1000.

Definition marchPath : string := "data/incidents/2024-03/incidents.json".

Definition twoOpenShard : Shard.t :=
  loadShard (applyEvents utc Store.empty
               [buildParsedEvent 0 fooMail; buildParsedEvent 0 barMail])
            marchPath "2024-03".

(** What is looked at in an incident: its id, its status and how many
    updates it has. *)
Definition observe (items : list Incident.t) : list (string * string * nat) :=
  map (fun incident => (Incident.id incident, Incident.status incident,
                        length (Incident.updates incident))) items.

(** The same problem in January and in February. *)
Definition januaryMail : Message.t :=
  mail "j1" "Caltrain Alert: Signal problem" "Delays of 10 minutes" jan15.
Definition februaryMail : Message.t :=
  mail "f1" "Caltrain Alert: Signal problem" "Delays of 10 minutes" feb15.

(** A mail with neither a date nor a subject. *)
Definition bareMail : Message.t :=
  {| Message.messageId := "x1"; Message.subject := ""; Message.bodyText := "";
     Message.receivedAt := None |}.

(** The repository after the first report. *)
Definition openStore : Store.t := applyEvents utc Store.empty [signalOpen].

(** An environment with the credentials of the mailbox, a fetched message,
    and a first run at 09:00 where there was no file. *)
Definition credentials : gmap string string :=
  <["GMAIL_USER" := "status@example.org"]>
    (<["GMAIL_APP_PASSWORD" := "app-password"]> ∅).

Definition delayMail : Parsed.t :=
  {| Parsed.uid := 7;
     Parsed.messageId := "m1";
     Parsed.subject := "Caltrain Alert: Signal problem";
     Parsed.text := "Delays of 10 minutes northbound";
     Parsed.html := "";
     Parsed.from := "alerts@caltrain.com";
     Parsed.date := Some (IsoDate at0800);
     Parsed.internalDate := IsoDate at0800 |}.

Definition noFiles : Files.t :=
  {| Files.store := Store.empty; Files.state := None; Files.current := None |}.

Definition afterFirstRun : Files.t :=
  (main utc credentials at0900 noFiles [delayMail]).1.1.

End Scenario.

(** * Properties *)

(** ** Sorting *)

Section SortFacts.
Context {A : Type} (le : A -> A -> bool).

Lemma insertBy_Permutation (x : A) (l : list A) : insertBy le x l ≡ₚ x :: l.
Proof.
  induction l as [|y r IH]; simpl; [done|].
  destruct (le x y); [done|].
  rewrite IH. apply Permutation_swap.
Qed.

Lemma sortBy_Permutation (l : list A) : sortBy le l ≡ₚ l.
Proof.
  induction l as [|x r IH]; simpl; [done|].
  rewrite insertBy_Permutation. by rewrite IH.
Qed.

Lemma sortBy_elem_of (x : A) (l : list A) : x ∈ sortBy le l <-> x ∈ l.
Proof. by rewrite sortBy_Permutation. Qed.

Lemma sortBy_length (l : list A) : length (sortBy le l) = length l.
Proof. by rewrite sortBy_Permutation. Qed.

Lemma sortBy_nil_inv (l : list A) : sortBy le l = [] -> l = [].
Proof.
  intros H. pose proof (sortBy_length l) as Hlen. rewrite H in Hlen.
  by destruct l.
Qed.

Lemma sortBy_singleton (x : A) : sortBy le [x] = [x].
Proof. reflexivity. Qed.

Hypothesis le_total : forall a b, le a b = true \/ le b a = true.

Lemma insertBy_Sorted (x : A) (l : list A) :
  Sorted (fun a b => le a b = true) l ->
  Sorted (fun a b => le a b = true) (insertBy le x l).
Proof.
  induction 1 as [|y r Hr IH Hhd]; simpl.
  - by repeat constructor.
  - destruct (le x y) eqn:Hxy.
    + constructor; [by constructor|by constructor].
    + constructor; [done|].
      destruct (le_total x y) as [Hc|Hyx]; [congruence|].
      destruct Hhd as [|z r' Hyz]; simpl.
      * by constructor.
      * destruct (le x z); by constructor.
Qed.

Lemma sortBy_Sorted (l : list A) :
  Sorted (fun a b => le a b = true) (sortBy le l).
Proof.
  induction l as [|x r IH]; simpl; [constructor|].
  by apply insertBy_Sorted.
Qed.

(** Sorting a sorted list changes nothing: the sort is stable. *)
Lemma sortBy_sorted_id (l : list A) :
  Sorted (fun a b => le a b = true) l -> sortBy le l = l.
Proof.
  induction 1 as [|x r Hr IH Hhd]; simpl; [done|].
  rewrite IH. destruct Hhd as [|y r' Hxy]; simpl; [done|].
  by rewrite Hxy.
Qed.
End SortFacts.

(** ** [Array.from(new Set(...))] *)

Section UniqueFacts.
Context {A : Type} `{EqDecision A}.
Implicit Types l seen : list A.

Lemma uniqueInto_app seen l1 l2 :
  uniqueInto seen (l1 ++ l2) = uniqueInto (uniqueInto seen l1) l2.
Proof. unfold uniqueInto. apply fold_left_app. Qed.

Lemma uniqueInto_cons seen x l :
  uniqueInto seen (x :: l)
  = uniqueInto (if decide (x ∈ seen) then seen else seen ++ [x]) l.
Proof. reflexivity. Qed.

Lemma uniqueInto_elem_of seen l x :
  x ∈ uniqueInto seen l <-> x ∈ seen \/ x ∈ l.
Proof.
  revert seen. induction l as [|y l IH]; intros seen.
  - simpl. rewrite elem_of_nil. tauto.
  - rewrite uniqueInto_cons, IH, elem_of_cons. case_decide.
    + split; [tauto|]. intros [?|[->|?]]; tauto.
    + rewrite elem_of_app, list_elem_of_singleton. tauto.
Qed.

Lemma uniqueInto_NoDup seen l : NoDup seen -> NoDup (uniqueInto seen l).
Proof.
  revert seen. induction l as [|y l IH]; intros seen Hseen; [done|].
  rewrite uniqueInto_cons. apply IH. case_decide; [done|].
  apply NoDup_app. split_and!; [done| |apply NoDup_singleton].
  intros x Hx Hx'. apply list_elem_of_singleton in Hx'. by subst.
Qed.

Lemma uniqueInto_absorb seen l :
  (forall x, x ∈ l -> x ∈ seen) -> uniqueInto seen l = seen.
Proof.
  induction l as [|y l IH]; intros Hsub; [done|].
  rewrite uniqueInto_cons. rewrite decide_True by (apply Hsub; left).
  apply IH. intros x Hx. apply Hsub. by right.
Qed.

Lemma uniqueInto_fresh seen l :
  NoDup (seen ++ l) -> uniqueInto seen l = seen ++ l.
Proof.
  revert seen. induction l as [|y l IH]; intros seen Hnd.
  - by rewrite app_nil_r.
  - rewrite uniqueInto_cons.
    assert (y ∉ seen) as Hy.
    { apply NoDup_app in Hnd as (_ & Hdisj & _). intros Hin.
      apply (Hdisj y Hin). left. }
    rewrite decide_False by done.
    rewrite IH; rewrite <- app_assoc; done.
Qed.

Lemma arrayFromSet_NoDup l : NoDup (arrayFromSet l).
Proof. apply uniqueInto_NoDup. constructor. Qed.

Lemma arrayFromSet_id l : NoDup l -> arrayFromSet l = l.
Proof. intros H. unfold arrayFromSet. by rewrite uniqueInto_fresh. Qed.

Lemma arrayFromSet_elem_of l x : x ∈ arrayFromSet l <-> x ∈ l.
Proof.
  unfold arrayFromSet. rewrite uniqueInto_elem_of, elem_of_nil. tauto.
Qed.

(** Merging the same segments a second time adds nothing. *)
Lemma arrayFromSet_merge_twice l1 l2 :
  arrayFromSet (arrayFromSet (l1 ++ l2) ++ l2) = arrayFromSet (l1 ++ l2).
Proof.
  unfold arrayFromSet at 1. rewrite uniqueInto_app.
  fold (arrayFromSet (arrayFromSet (l1 ++ l2))).
  rewrite (arrayFromSet_id (arrayFromSet (l1 ++ l2))) by apply arrayFromSet_NoDup.
  apply uniqueInto_absorb. intros x Hx.
  apply arrayFromSet_elem_of, elem_of_app. by right.
Qed.
End UniqueFacts.

Lemma Sorted_weaken {A} (R1 R2 : A -> A -> Prop) (l : list A) :
  (forall a b, R1 a b -> R2 a b) -> Sorted R1 l -> Sorted R2 l.
Proof.
  intros Himp. induction 1 as [|x r Hr IH Hhd]; constructor; [done|].
  destruct Hhd; constructor; auto.
Qed.

Lemma find_Some_split {A} (P : A -> bool) (l : list A) (x : A) :
  List.find P l = Some x ->
  exists pre post, l = pre ++ x :: post
                   /\ Forall (fun y => P y = false) pre /\ P x = true.
Proof.
  induction l as [|y r IH]; simpl; [done|].
  destruct (P y) eqn:Hy.
  - intros [= ->]. by exists [], r.
  - intros Hfind. destruct (IH Hfind) as (pre & post & -> & Hpre & Hx).
    exists (y :: pre), post. split_and!; [done|by constructor|done].
Qed.

Lemma find_skip {A} (P : A -> bool) (pre post : list A) (x : A) :
  Forall (fun y => P y = false) pre -> P x = true ->
  List.find P (pre ++ x :: post) = Some x.
Proof.
  intros Hpre Hx. induction Hpre as [|y r Hy _ IH]; simpl.
  - by rewrite Hx.
  - by rewrite Hy.
Qed.

(** Sorting commutes with a change of the elements that the comparator
    does not see. *)
Lemma insertBy_fmap {A} (le : A -> A -> bool) (f : A -> A) (x : A) (l : list A) :
  (forall y, y ∈ l -> le (f x) (f y) = le x y) ->
  insertBy le (f x) (f <$> l) = f <$> insertBy le x l.
Proof.
  induction l as [|y r IH]; intros Hle; [done|].
  rewrite fmap_cons. cbn [insertBy]. rewrite (Hle y) by left.
  destruct (le x y); [done|].
  rewrite fmap_cons. f_equal. apply IH. intros z Hz. apply Hle. by right.
Qed.

Lemma sortBy_fmap {A} (le : A -> A -> bool) (f : A -> A) (l : list A) :
  (forall a b, a ∈ l -> b ∈ l -> le (f a) (f b) = le a b) ->
  sortBy le (f <$> l) = f <$> sortBy le l.
Proof.
  induction l as [|x r IH]; intros Hle; [done|].
  rewrite fmap_cons. cbn [sortBy foldr]. fold (sortBy le (f <$> r)) (sortBy le r).
  rewrite IH by (intros a b Ha Hb; apply Hle; by right).
  apply insertBy_fmap. intros y Hy. apply Hle; [left|].
  right. by apply sortBy_elem_of in Hy.
Qed.

Lemma filter_all_id {A} (P : A -> Prop) `{forall x, Decision (P x)} (l : list A) :
  (forall x, x ∈ l -> P x) -> filter P l = l.
Proof.
  induction l as [|x r IH]; intros Hall; [done|].
  rewrite filter_cons, decide_True by (apply Hall; left).
  f_equal. apply IH. intros y Hy. apply Hall. by right.
Qed.

Lemma fmap_id_on {A} (f : A -> A) (l : list A) :
  (forall x, x ∈ l -> f x = x) -> f <$> l = l.
Proof.
  induction l as [|x r IH]; intros Hid; [done|].
  rewrite fmap_cons, (Hid x) by left. f_equal. apply IH.
  intros y Hy. apply Hid. by right.
Qed.

Lemma filter_fmap_same {A} (P : A -> Prop) `{forall x, Decision (P x)}
    (f : A -> A) (l : list A) :
  (forall x, x ∈ l -> P (f x) <-> P x) ->
  filter P (f <$> l) = f <$> filter P l.
Proof.
  induction l as [|x r IH]; intros Hsame; [done|].
  rewrite fmap_cons, !filter_cons.
  rewrite IH by (intros y Hy; apply Hsame; by right).
  pose proof (Hsame x ltac:(left)) as Hx.
  destruct (decide (P (f x))), (decide (P x)); tauto || done.
Qed.

(** ** Incident ids

    The loop of [createIncidentId] ends on a free id: the fuel given to
    [firstFreeCounter] is never used up. *)

Section IdFacts.
Variables (existingIds : gset string) (base : string).

Lemma candidateId_inj (j k : Z) : candidateId base j = candidateId base k -> j = k.
Proof.
  unfold candidateId. intros H.
  apply (inj (String.app base)), (inj (String.app "-")) in H.
  by apply (inj pretty) in H.
Qed.

Lemma candidateId_not_base (k : Z) : candidateId base k <> base.
Proof.
  unfold candidateId. intros H.
  assert (String.length (base +:+ "-" +:+ pretty k) = String.length base) as Hlen
    by by rewrite H.
  clear H. induction base as [|a b IH]; simpl in *; [done|]. apply IH. lia.
Qed.

Lemma firstFreeCounter_range (fuel : nat) (counter : Z) :
  let r := firstFreeCounter existingIds base fuel counter in
  counter <= r <= counter + Z.of_nat fuel
  /\ (forall k, counter <= k < r -> candidateId base k ∈ existingIds)
  /\ (r < counter + Z.of_nat fuel -> candidateId base r ∉ existingIds).
Proof.
  revert counter. induction fuel as [|fuel IH]; intros counter; simpl.
  - split_and!; [lia|lia|intros; lia|lia].
  - case_decide as Htaken.
    + destruct (IH (counter + 1)) as ((Hlo & Hhi) & Hbelow & Hfree).
      split_and!; [lia|lia| |intros; apply Hfree; lia].
      intros k Hk. destruct (decide (k = counter)) as [->|]; [done|].
      apply Hbelow. lia.
    + split_and!; [lia|lia|intros; lia|done].
Qed.

Lemma firstFreeCounter_free :
  base ∈ existingIds ->
  candidateId base (firstFreeCounter existingIds base (size existingIds) 2)
    ∉ existingIds.
Proof.
  intros Hbase.
  destruct (firstFreeCounter_range (size existingIds) 2) as ((Hlo & Hhi) & Hbelow & Hfree).
  set (r := firstFreeCounter existingIds base (size existingIds) 2) in *.
  destruct (decide (r < 2 + Z.of_nat (size existingIds))) as [Hlt|Hge]; [by apply Hfree|].
  exfalso.
  set (taken := base :: (candidateId base <$> seqZ 2 (Z.of_nat (size existingIds)))).
  assert (NoDup taken) as Hnd.
  { apply NoDup_cons. split.
    - intros Hin. apply list_elem_of_fmap in Hin as (k & Hk & _).
      by apply (candidateId_not_base k).
    - apply NoDup_fmap_2_strong; [|apply NoDup_seqZ].
      intros j k _ _. apply candidateId_inj. }
  assert (list_to_set taken ⊆ existingIds) as Hsub.
  { intros x Hx. apply elem_of_list_to_set in Hx.
    apply elem_of_cons in Hx as [->|Hx]; [done|].
    apply list_elem_of_fmap in Hx as (k & -> & Hk).
    apply elem_of_seqZ in Hk. apply Hbelow. lia. }
  apply subseteq_size in Hsub.
  rewrite size_list_to_set in Hsub by done.
  unfold taken in Hsub. simpl in Hsub.
  rewrite length_fmap, length_seqZ in Hsub. lia.
Qed.
End IdFacts.

Lemma createIncidentId_fresh (date : Z) (subjectKey : string) (existingIds : gset string) :
  createIncidentId date subjectKey existingIds ∉ existingIds.
Proof.
  unfold createIncidentId. case_decide as Hbase; [|done].
  by apply firstFreeCounter_free.
Qed.

(** ** Matching *)

Section Matching.
Implicit Types (items : list Incident.t) (event : Event.t).

Lemma candidatesOf_elem_of items event i x :
  (i, x) ∈ candidatesOf items event
  <-> items !! i = Some x /\ isCandidate event x = true.
Proof.
  unfold candidatesOf. rewrite sortBy_elem_of, list_elem_of_filter.
  rewrite elem_of_lookup_imap. simpl. split.
  - intros (Hc & j & y & Heq & Hj). by simplify_eq.
  - intros (Hi & Hc). split; [done|]. by exists i, x.
Qed.

Lemma findMatchingIncident_Some shard event i x :
  findMatchingIncident shard event = Some (i, x) ->
  Shard.items shard !! i = Some x /\ isCandidate event x = true.
Proof.
  unfold findMatchingIncident. intros H.
  apply candidatesOf_elem_of.
  destruct (List.find _ _) as [p|] eqn:Hfind.
  - apply find_some in Hfind as [Hin _]. simplify_eq.
    by apply list_elem_of_In.
  - destruct (candidatesOf _ _) as [|p rest]; simplify_eq/=. left.
Qed.

Lemma findMatchingIncident_None shard event x :
  findMatchingIncident shard event = None ->
  x ∈ Shard.items shard -> isCandidate event x = false.
Proof.
  unfold findMatchingIncident. intros H Hx.
  destruct (List.find _ _) as [p|] eqn:Hfind; [done|].
  destruct (candidatesOf _ _) as [|p rest] eqn:Hc; [|done].
  apply list_elem_of_lookup in Hx as [i Hi].
  destruct (isCandidate event x) eqn:Hcand; [|done].
  assert ((i, x) ∈ candidatesOf (Shard.items shard) event) as Hin
    by by apply candidatesOf_elem_of.
  rewrite Hc in Hin. by apply elem_of_nil in Hin.
Qed.

Lemma findMatchingIncident_is_Some shard event i x :
  Shard.items shard !! i = Some x -> isCandidate event x = true ->
  is_Some (findMatchingIncident shard event).
Proof.
  intros Hi Hc. destruct (findMatchingIncident shard event) eqn:Hf; [done|].
  rewrite (findMatchingIncident_None shard event x Hf) in Hc; [done|].
  apply list_elem_of_lookup. eauto.
Qed.

(** With a single candidate in the shard, that one is found. *)
Lemma findMatchingIncident_unique shard event i x :
  Shard.items shard !! i = Some x -> isCandidate event x = true ->
  (forall j y, Shard.items shard !! j = Some y ->
               isCandidate event y = true -> j = i) ->
  findMatchingIncident shard event = Some (i, x).
Proof.
  intros Hi Hc Huniq.
  destruct (findMatchingIncident_is_Some shard event i x Hi Hc) as [[j y] Hf].
  rewrite Hf. apply findMatchingIncident_Some in Hf as [Hj Hcy].
  pose proof (Huniq j y Hj Hcy) as ->. by simplify_eq.
Qed.
Lemma imap_pair_insert items idx incident incident' :
  items !! idx = Some incident ->
  imap pair (<[idx := incident']> items) = replaceAt idx incident' <$> imap pair items.
Proof.
  intros Hidx. apply list_eq. intros i.
  rewrite list_lookup_fmap, !list_lookup_imap. unfold replaceAt.
  destruct (decide (i = idx)) as [->|Hne].
  - rewrite list_lookup_insert_eq by by eapply lookup_lt_Some.
    rewrite Hidx. simpl. by rewrite decide_True.
  - rewrite list_lookup_insert_ne by done.
    destruct (items !! i); simpl; [|done]. by rewrite decide_False.
Qed.

Lemma replaceAt_started items idx incident incident' (q : nat * Incident.t) :
  items !! idx = Some incident ->
  Incident.started_at incident' = Incident.started_at incident ->
  q ∈ imap pair items ->
  Incident.started_at (replaceAt idx incident' q).2 = Incident.started_at q.2.
Proof.
  intros Hidx Hstart Hq. unfold replaceAt. case_decide as Hi; [|done]. simpl.
  apply elem_of_lookup_imap in Hq as (j & y & -> & Hj). simpl in Hi. subst j.
  rewrite Hidx in Hj. by simplify_eq.
Qed.

(** Replacing a candidate by a candidate that started at the same time
    replaces it in the sorted candidates. *)
Lemma candidatesOf_insert items event idx incident incident' :
  items !! idx = Some incident ->
  isCandidate event incident = true ->
  isCandidate event incident' = true ->
  Incident.started_at incident' = Incident.started_at incident ->
  candidatesOf (<[idx := incident']> items) event
  = replaceAt idx incident' <$> candidatesOf items event.
Proof.
  intros Hidx Hc Hc' Hstart. unfold candidatesOf.
  rewrite (imap_pair_insert _ _ _ _ Hidx).
  rewrite filter_fmap_same.
  - apply sortBy_fmap. intros a b Ha Hb. unfold startedDesc.
    apply list_elem_of_filter in Ha as [_ Ha].
    apply list_elem_of_filter in Hb as [_ Hb].
    by rewrite (replaceAt_started items idx incident incident' a),
               (replaceAt_started items idx incident incident' b).
  - intros q Hq. unfold replaceAt. case_decide as Hi; [|done]. simpl.
    apply elem_of_lookup_imap in Hq as (j & y & -> & Hj). simpl in Hi. subst j.
    rewrite Hidx in Hj. simplify_eq. simpl. by split.
Qed.

(** An open candidate put in the place of the incident that was found is
    found in its turn. *)
Lemma findMatchingIncident_again shard event idx incident incident' :
  findMatchingIncident shard event = Some (idx, incident) ->
  isCandidate event incident' = true ->
  Incident.started_at incident' = Incident.started_at incident ->
  isOpen incident' = true ->
  findMatchingIncident
    {| Shard.period := Shard.period shard;
       Shard.items := <[idx := incident']> (Shard.items shard) |} event
  = Some (idx, incident').
Proof.
  intros Hf Hc' Hstart Hopen.
  pose proof (findMatchingIncident_Some _ _ _ _ Hf) as [Hidx Hc].
  unfold findMatchingIncident in *. simpl.
  rewrite (candidatesOf_insert _ _ _ _ _ Hidx Hc Hc' Hstart).
  assert (forall q, q ∈ candidatesOf (Shard.items shard) event -> q.1 = idx ->
                    q = (idx, incident)) as Hat.
  { intros [j y] Hq Hj. simpl in Hj. subst j.
    apply candidatesOf_elem_of in Hq as [Hq _]. rewrite Hidx in Hq. by simplify_eq. }
  assert (replaceAt idx incident' (idx, incident) = (idx, incident')) as Hrepl
    by (unfold replaceAt; by rewrite decide_True).
  destruct (List.find _ (candidatesOf (Shard.items shard) event)) as [p|] eqn:Hfind.
  - simplify_eq.
    apply find_Some_split in Hfind as (pre & post & Hsplit & Hpre & Hopen0).
    rewrite Hsplit in Hat |- *. rewrite fmap_app, fmap_cons, Hrepl.
    rewrite (fmap_id_on (replaceAt idx incident') pre).
    + by rewrite find_skip.
    + intros q Hq. unfold replaceAt. case_decide as Hi; [|done].
      assert (q = (idx, incident)) as -> by (apply Hat; [apply elem_of_app; by left|done]).
      rewrite Forall_forall in Hpre. apply Hpre in Hq. simpl in *. congruence.
  - destruct (candidatesOf (Shard.items shard) event) as [|q rest]; simplify_eq/=.
    rewrite Hrepl. simpl. by rewrite Hopen.
Qed.

End Matching.

(** ** The two branches of [upsertIncidentInShard] *)


Lemma upsert_matched shard event idx incident timestamp :
  findMatchingIncident shard event = Some (idx, incident) ->
  Event.receivedAt event = IsoDate timestamp ->
  upsertIncidentInShard shard event
  = Ok ({| Shard.period := Shard.period shard;
           Shard.items := <[idx := touchedBy incident event timestamp]> (Shard.items shard) |},
        (idx, touchedBy incident event timestamp)).
Proof.
  intros Hf Ht. unfold upsertIncidentInShard. by rewrite Hf, Ht.
Qed.

Lemma upsert_created shard event timestamp :
  findMatchingIncident shard event = None ->
  Event.receivedAt event = IsoDate timestamp ->
  upsertIncidentInShard shard event
  = Ok ({| Shard.period := Shard.period shard;
           Shard.items := Shard.items shard
                          ++ [createdBy (Shard.items shard) event timestamp] |},
        (length (Shard.items shard), createdBy (Shard.items shard) event timestamp)).
Proof.
  intros Hf Ht. unfold upsertIncidentInShard. by rewrite Hf, Ht.
Qed.

Lemma upsert_invalid_date shard event :
  Event.receivedAt event = NotADate ->
  upsertIncidentInShard shard event = Throw RangeError.
Proof. intros Ht. unfold upsertIncidentInShard. by rewrite Ht. Qed.

(** ** Resolution and reopening *)

(** C3. When the event matches a stored incident, that incident and no new
    one is updated: a resolving event sets its status to resolved and its
    resolved_at to the event's timestamp whatever its state was, and a
    non-resolving event reopens it when it was resolved (status
    investigating, resolved_at null). *)
Theorem resolution_and_reopen shard event idx incident timestamp :
  findMatchingIncident shard event = Some (idx, incident) ->
  Event.receivedAt event = IsoDate timestamp ->
  exists shard' incident',
    upsertIncidentInShard shard event = Ok (shard', (idx, incident'))
    /\ Shard.items shard !! idx = Some incident
    /\ Shard.items shard' = <[idx := incident']> (Shard.items shard)
    /\ length (Shard.items shard') = length (Shard.items shard)
    /\ Incident.id incident' = Incident.id incident
    /\ (Event.incidentStatus event = "resolved" ->
        Incident.status incident' = "resolved"
        /\ Incident.resolved_at incident' = Some timestamp)
    /\ (Event.incidentStatus event <> "resolved" ->
        Incident.status incident = "resolved" ->
        Incident.status incident' = "investigating"
        /\ Incident.resolved_at incident' = None).
Proof.
  intros Hf Ht. eexists _, _.
  split; [by apply upsert_matched|].
  apply findMatchingIncident_Some in Hf as [Hidx _].
  split_and!; simpl; try done.
  - apply length_insert.
  - intros Hres. by rewrite !bool_decide_eq_true_2.
  - intros Hres Hwas.
    rewrite (bool_decide_eq_false_2 _ Hres).
    by rewrite (bool_decide_eq_true_2 _ Hwas).
Qed.

(** ** Severity *)

Lemma string_ltb_irrefl (s : string) : String.ltb s s = false.
Proof.
  unfold String.ltb. destruct (String.compare s s) eqn:Hc; try done.
  pose proof (String.compare_antisym s s) as Hanti. rewrite Hc in Hanti. done.
Qed.

Lemma rankGt_irrefl (a : Rank) : rankGt a a = false.
Proof. destruct a; simpl; [apply Z.ltb_irrefl|apply string_ltb_irrefl]. Qed.

(** On two ranks that are numbers the severity is the event's when its
    rank is the greater, and the incident's otherwise; the rank afterwards
    is the greater of the two. *)
Lemma mergeEvent_severity incident event timestamp (re ri : Z) :
  severityRank (Event.severity event) = RankNumber re ->
  severityRank (Incident.severity incident) = RankNumber ri ->
  Incident.severity (mergeEvent incident event timestamp)
  = (if ri <? re then Event.severity event else Incident.severity incident)
  /\ severityRank (Incident.severity (mergeEvent incident event timestamp))
     = RankNumber (Z.max ri re).
Proof.
  intros Hre Hri. simpl. rewrite Hre, Hri. simpl.
  destruct (Z.ltb_spec ri re); (split; [done|]).
  - rewrite Hre. f_equal. lia.
  - rewrite Hri. f_equal. lia.
Qed.

(** An incident whose rank is a number keeps a rank that is a number, and
    no smaller, whatever the event. *)
Lemma mergeEvent_rank_kept incident event timestamp (ri : Z) :
  severityRank (Incident.severity incident) = RankNumber ri ->
  exists ri', severityRank (Incident.severity (mergeEvent incident event timestamp))
              = RankNumber ri'
              /\ ri <= ri'.
Proof.
  intros Hri.
  destruct (severityRank (Event.severity event)) as [re|text] eqn:Hre.
  - destruct (mergeEvent_severity incident event timestamp re ri Hre Hri) as [_ Hmax].
    exists (Z.max ri re). split; [done|lia].
  - exists ri. simpl. rewrite Hre, Hri. simpl. split; [done|lia].
Qed.

(** The severity of an event the normalizer builds has a rank that is a
    number, from 1 to 3. *)
Lemma buildParsedEvent_ranked (now : Z) (message : Message.t) :
  exists re, severityRank (Event.severity (buildParsedEvent now message)) = RankNumber re
             /\ 1 <= re <= 3.
Proof.
  unfold buildParsedEvent. cbv zeta. cbn [Event.severity].
  unfold inferSeverityAndStatus. cbv zeta.
  repeat match goal with |- context [Text.hasWord ?ws ?h] => destruct (Text.hasWord ws h) end;
    cbn [si_severity]; eexists; (split; [reflexivity|lia]).
Qed.

(** C6.  The rank table is operational 0, minor 1, degraded 1, major 2,
    critical 3, and 0 for any other name that is not inherited.  With [re]
    the rank of the severity of the event and [ri] that of the matched
    incident, the severity of the incident after the call is the event's
    when [ri < re] and is left as it was otherwise, and its rank is the
    greater of [ri] and [re].  Whatever the event, the rank of the
    incident is afterwards a number that is not smaller than before.  The
    severity of every event the normalizer builds has a rank that is a
    number. *)
Theorem severity_raised_never_lowered shard event idx incident timestamp :
  findMatchingIncident shard event = Some (idx, incident) ->
  Event.receivedAt event = IsoDate timestamp ->
  exists shard' incident',
    upsertIncidentInShard shard event = Ok (shard', (idx, incident'))
    /\ Shard.items shard' !! idx = Some incident'
    /\ (forall re ri,
          severityRank (Event.severity event) = RankNumber re ->
          severityRank (Incident.severity incident) = RankNumber ri ->
          Incident.severity incident'
          = (if ri <? re then Event.severity event else Incident.severity incident)
          /\ severityRank (Incident.severity incident') = RankNumber (Z.max ri re))
    /\ (forall ri,
          severityRank (Incident.severity incident) = RankNumber ri ->
          exists ri', severityRank (Incident.severity incident') = RankNumber ri'
                      /\ ri <= ri')
    /\ severityRank "operational" = RankNumber 0
    /\ severityRank "minor" = RankNumber 1
    /\ severityRank "degraded" = RankNumber 1
    /\ severityRank "major" = RankNumber 2
    /\ severityRank "critical" = RankNumber 3
    /\ (forall severity,
          severity ∉ ["operational"; "minor"; "degraded"; "major"; "critical"] ->
          severity ∉ objectPrototypeKeys ->
          severityRank severity = RankNumber 0)
    /\ (forall now message,
          exists re, severityRank (Event.severity (buildParsedEvent now message))
                     = RankNumber re).
Proof.
  intros Hf Ht. eexists _, _.
  split; [by apply upsert_matched|].
  apply findMatchingIncident_Some in Hf as [Hidx _].
  split_and!; try done.
  - apply list_lookup_insert_eq. by eapply lookup_lt_Some.
  - intros re ri. apply mergeEvent_severity.
  - intros ri. apply mergeEvent_rank_kept.
  - intros severity Hnot Hinh. unfold severityRank.
    do 5 (rewrite decide_False by (intros ->; apply Hnot; repeat constructor)).
    by rewrite decide_False.
  - intros now message.
    destruct (buildParsedEvent_ranked now message) as (re & Hre & _). by exists re.
Qed.

(** ** Update history *)


Lemma timestampAsc_total (a b : Update.t) :
  timestampAsc a b = true \/ timestampAsc b a = true.
Proof. unfold timestampAsc. rewrite !Z.leb_le. lia. Qed.

Lemma alreadyHasMessage_true us event :
  alreadyHasMessage us event = true
  <-> exists u, u ∈ us /\ Update.source_message_id u = Event.messageId event.
Proof.
  unfold alreadyHasMessage. rewrite existsb_exists. split.
  - intros (u & Hin & Hu). exists u. split; [by apply list_elem_of_In|].
    by apply bool_decide_eq_true in Hu.
  - intros (u & Hin & Hu). exists u. split; [by apply list_elem_of_In|].
    by apply bool_decide_eq_true.
Qed.

Lemma alreadyHasMessage_false us event :
  alreadyHasMessage us event = false
  <-> forall u, u ∈ us -> Update.source_message_id u <> Event.messageId event.
Proof.
  rewrite <- not_true_iff_false, alreadyHasMessage_true. split.
  - intros Hno u Hin Heq. apply Hno. eauto.
  - intros Hall (u & Hin & Heq). by apply (Hall u).
Qed.

Lemma recordUpdate_duplicate us event timestamp :
  alreadyHasMessage us event = true -> recordUpdate us event timestamp = us.
Proof. intros H. unfold recordUpdate. by rewrite H. Qed.

Lemma recordUpdate_appended us event timestamp :
  alreadyHasMessage us event = false ->
  recordUpdate us event timestamp ≡ₚ us ++ [updateOf event timestamp]
  /\ Sorted byTimestamp (recordUpdate us event timestamp).
Proof.
  intros H. unfold recordUpdate. rewrite H. split.
  - apply sortBy_Permutation.
  - eapply Sorted_weaken; [|apply sortBy_Sorted, timestampAsc_total].
    intros a b. unfold timestampAsc, byTimestamp. by rewrite Z.leb_le.
Qed.

Lemma recordUpdate_keeps us event timestamp u :
  u ∈ us -> u ∈ recordUpdate us event timestamp.
Proof.
  intros Hin. destruct (alreadyHasMessage us event) eqn:Hdup.
  - by rewrite recordUpdate_duplicate.
  - destruct (recordUpdate_appended us event timestamp Hdup) as [Hperm _].
    rewrite Hperm. apply elem_of_app. by left.
Qed.

Lemma recordUpdate_Sorted us event timestamp :
  Sorted byTimestamp us -> Sorted byTimestamp (recordUpdate us event timestamp).
Proof.
  intros Hs. destruct (alreadyHasMessage us event) eqn:Hdup.
  - by rewrite recordUpdate_duplicate.
  - by apply recordUpdate_appended.
Qed.

(** Recording the same message twice is recording it once. *)
Lemma recordUpdate_twice us event timestamp :
  recordUpdate (recordUpdate us event timestamp) event timestamp
  = recordUpdate us event timestamp.
Proof.
  destruct (alreadyHasMessage us event) eqn:Hdup.
  - rewrite (recordUpdate_duplicate us) by done.
    by apply recordUpdate_duplicate.
  - apply recordUpdate_duplicate, alreadyHasMessage_true.
    exists (updateOf event timestamp). split; [|done].
    destruct (recordUpdate_appended us event timestamp Hdup) as [Hperm _].
    rewrite Hperm. apply elem_of_app. right. by apply list_elem_of_singleton.
Qed.


(** ** Idempotence *)

Lemma orElse_twice_r (a b : string) : orElse (orElse a b) b = orElse a b.
Proof. unfold orElse. repeat case_decide; congruence. Qed.

Lemma orElse_twice_l (a b : string) : orElse a (orElse a b) = orElse a b.
Proof. unfold orElse. repeat case_decide; congruence. Qed.

Lemma orElse_same (a : string) : orElse a a = a.
Proof. unfold orElse. by case_decide. Qed.

Lemma severity_merge_twice (es s : string) :
  let s1 := if rankGt (severityRank es) (severityRank s) then es else s in
  (if rankGt (severityRank es) (severityRank s1) then es else s1) = s1.
Proof.
  simpl. destruct (rankGt (severityRank es) (severityRank s)) eqn:Hgt.
  - by rewrite rankGt_irrefl.
  - by rewrite Hgt.
Qed.

(** Applying the event to the incident it has just been applied to changes
    nothing. *)
Lemma touchedBy_twice incident event timestamp :
  Event.incidentStatus event = "investigating"
  \/ Event.incidentStatus event = "resolved" ->
  touchedBy (touchedBy incident event timestamp) event timestamp
  = touchedBy incident event timestamp.
Proof.
  intros Hstatus. unfold touchedBy, withUpdates, mergeEvent. simpl.
  rewrite recordUpdate_twice, orElse_twice_r, orElse_twice_l,
    arrayFromSet_merge_twice.
  rewrite (severity_merge_twice (Event.severity event) (Incident.severity incident)).
  f_equal.
  - destruct Hstatus as [Hs | Hs]; rewrite Hs; unfold orElse;
      repeat (case_bool_decide || case_decide); congruence.
  - destruct Hstatus as [Hs | Hs]; rewrite Hs; unfold orElse;
      repeat (case_bool_decide || case_decide); congruence.
Qed.

(** The event still matches the incident it has been applied to. *)
Lemma isCandidate_touchedBy incident event timestamp :
  isCandidate event incident = true ->
  isCandidate event (touchedBy incident event timestamp) = true.
Proof.
  unfold isCandidate. simpl. intros H.
  apply orb_true_iff in H as [H|H]; apply orb_true_iff; [by left|right].
  apply bool_decide_eq_true in H. apply bool_decide_eq_true.
  unfold orElse. by case_decide.
Qed.

(** The incident created for an event matches it, and applying the event to
    it changes nothing. *)
Lemma isCandidate_createdBy items event timestamp :
  isCandidate event (createdBy items event timestamp) = true.
Proof.
  unfold isCandidate. simpl. by rewrite bool_decide_eq_true_2.
Qed.

Lemma touchedBy_createdBy items event timestamp :
  NoDup (Event.affectedSegments event) ->
  touchedBy (createdBy items event timestamp) event timestamp
  = createdBy items event timestamp.
Proof.
  intros Hnd. unfold touchedBy, createdBy, withUpdates, mergeEvent. simpl.
  rewrite recordUpdate_twice, !orElse_same, rankGt_irrefl.
  assert (arrayFromSet (Event.affectedSegments event ++ Event.affectedSegments event)
          = Event.affectedSegments event) as ->.
  { unfold arrayFromSet. rewrite uniqueInto_app.
    rewrite (uniqueInto_fresh [] (Event.affectedSegments event)) by done.
    simpl. by apply uniqueInto_absorb. }
  f_equal.
  - by case_bool_decide.
  - case_bool_decide; by case_decide.
Qed.

Lemma filter_none_lookup {A} (P : A -> Prop) `{forall x, Decision (P x)}
    (l : list A) i x :
  length (filter P l) = 0%nat -> l !! i = Some x -> ~ P x.
Proof.
  intros Hlen Hi HP.
  assert (x ∈ filter P l) as Hin.
  { apply list_elem_of_filter. split; [done|]. apply list_elem_of_lookup. eauto. }
  destruct (filter P l); [by apply elem_of_nil in Hin|done].
Qed.

(** When at most one element satisfies [P], it has one index. *)
Lemma at_most_one_index {A} (P : A -> Prop) `{forall x, Decision (P x)}
    (l : list A) i j x y :
  (length (filter P l) <= 1)%nat ->
  l !! i = Some x -> l !! j = Some y -> P x -> P y -> i = j.
Proof.
  revert i j. induction l as [|a r IH]; intros i j Hlen Hi Hj Hx Hy; [done|].
  rewrite filter_cons in Hlen. destruct (decide (P a)) as [Ha|Ha]; simpl in Hlen.
  - assert (length (filter P r) = 0%nat) as Hzero by lia.
    destruct i as [|i], j as [|j]; simpl in *; try done.
    + by destruct (filter_none_lookup P r j y Hzero Hj).
    + by destruct (filter_none_lookup P r i x Hzero Hi).
    + by destruct (filter_none_lookup P r j y Hzero Hj).
  - destruct i as [|i], j as [|j]; simplify_eq/=; try done.
    f_equal. by eapply IH.
Qed.

Lemma isOpen_touchedBy incident event timestamp :
  Event.incidentStatus event = "investigating" ->
  isOpen (touchedBy incident event timestamp) = true.
Proof.
  intros Hs. unfold isOpen. simpl. rewrite Hs. unfold orElse.
  repeat (case_bool_decide || case_decide); simplify_eq/=; done.
Qed.

(** C1, as the code has it.  For an event the normalizer can produce
    (affected segments without repetition, status investigating or
    resolved), applying it a second time gives back the same shard and the
    same incident - no second incident, no second update, no field changed
    - when the event is not a resolution, or is one and at most one
    incident of the shard matches it. *)
Theorem upsert_twice_same_shard shard event shard1 found :
  NoDup (Event.affectedSegments event) ->
  Event.incidentStatus event = "investigating"
  \/ (Event.incidentStatus event = "resolved"
      /\ (length (filter (fun incident => isCandidate event incident = true)
                         (Shard.items shard)) <= 1)%nat) ->
  upsertIncidentInShard shard event = Ok (shard1, found) ->
  upsertIncidentInShard shard1 event = Ok (shard1, found).
Proof.
  intros Hnd Hcase Hfirst.
  assert (Event.incidentStatus event = "investigating"
          \/ Event.incidentStatus event = "resolved") as Hstatus by tauto.
  destruct (Event.receivedAt event) as [|timestamp] eqn:Ht.
  { by rewrite upsert_invalid_date in Hfirst. }
  destruct (findMatchingIncident shard event) as [[idx incident]|] eqn:Hf.
  - rewrite (upsert_matched _ _ _ _ _ Hf Ht) in Hfirst. simplify_eq.
    pose proof (findMatchingIncident_Some _ _ _ _ Hf) as [Hidx Hcand].
    pose proof (lookup_lt_Some _ _ _ Hidx) as Hlt.
    erewrite upsert_matched; [| |done]; simpl.
    + by rewrite touchedBy_twice, list_insert_insert_eq.
    + destruct Hcase as [Hinv|[_ Hone]].
      * apply (findMatchingIncident_again shard event idx incident); [done| |done|].
        -- by apply isCandidate_touchedBy.
        -- by apply isOpen_touchedBy.
      * apply findMatchingIncident_unique; simpl.
        -- by apply list_lookup_insert_eq.
        -- by apply isCandidate_touchedBy.
        -- intros j y Hj Hy. destruct (decide (j = idx)) as [|Hne]; [done|].
           rewrite list_lookup_insert_ne in Hj by done.
           by apply (at_most_one_index _ _ j idx y incident Hone).
  - rewrite (upsert_created _ _ _ Hf Ht) in Hfirst. simplify_eq.
    erewrite upsert_matched; [| |done]; simpl.
    + rewrite touchedBy_createdBy by done.
      rewrite list_insert_id; [done|].
      rewrite lookup_app_r by done. by rewrite Nat.sub_diag.
    + apply findMatchingIncident_unique; simpl.
      * rewrite lookup_app_r by done. by rewrite Nat.sub_diag.
      * apply isCandidate_createdBy.
      * intros j y Hj Hy.
        destruct (decide (j < length (Shard.items shard))%nat) as [Hlt|Hge].
        -- rewrite lookup_app_l in Hj by done.
           rewrite (findMatchingIncident_None shard event y Hf) in Hy; [done|].
           apply list_elem_of_lookup. eauto.
        -- apply lookup_lt_Some in Hj. rewrite length_app in Hj. simpl in Hj. lia.
Qed.

(** ** The invariant of a shard: one incident per key *)


Lemma keysUnique_upsert shard event shard' found :
  keysUnique (Shard.items shard) ->
  upsertIncidentInShard shard event = Ok (shard', found) ->
  keysUnique (Shard.items shard').
Proof.
  unfold keysUnique. intros Hnd Hup.
  destruct (Event.receivedAt event) as [|timestamp] eqn:Ht.
  { by rewrite upsert_invalid_date in Hup. }
  destruct (findMatchingIncident shard event) as [[idx incident]|] eqn:Hf.
  - rewrite (upsert_matched _ _ _ _ _ Hf Ht) in Hup. simplify_eq/=.
    apply findMatchingIncident_Some in Hf as [Hidx _].
    rewrite list_fmap_insert. simpl.
    rewrite list_insert_id; [done|].
    by rewrite list_lookup_fmap, Hidx.
  - rewrite (upsert_created _ _ _ Hf Ht) in Hup. simplify_eq/=.
    rewrite fmap_app. simpl. apply NoDup_app. split_and!; [done| |apply NoDup_singleton].
    intros key Hkey Hkey'. apply list_elem_of_singleton in Hkey'. subst key.
    apply list_elem_of_fmap in Hkey as (y & Hy & Hin).
    pose proof (findMatchingIncident_None shard event y Hf Hin) as Hc.
    unfold isCandidate in Hc. apply orb_false_iff in Hc as [Hc _].
    apply bool_decide_eq_false in Hc. congruence.
Qed.

(** With unique keys, a key has at most one incident, open or not. *)
Lemma keysUnique_at_most_one (items : list Incident.t) (key : string)
    (P : Incident.t -> Prop) `{forall x, Decision (P x)} :
  keysUnique items ->
  (length (filter (fun incident => Incident.ingestion_key incident = key /\ P incident)
                  items) <= 1)%nat.
Proof.
  unfold keysUnique. induction items as [|a r IH]; intros Hnd; simpl; [lia|].
  rewrite fmap_cons in Hnd. apply NoDup_cons in Hnd as [Ha Hr].
  rewrite filter_cons. case_decide as Hk; simpl; [|by auto].
  destruct Hk as [Hk _].
  enough (filter (fun incident => Incident.ingestion_key incident = key /\ P incident) r = [])
    as -> by (simpl; lia).
  destruct (filter _ r) as [|y ?] eqn:Hfil; [done|].
  assert (y ∈ filter (fun incident => Incident.ingestion_key incident = key /\ P incident) r)
    as Hy by (rewrite Hfil; left).
  apply list_elem_of_filter in Hy as [[Hyk _] Hyin].
  destruct Ha. rewrite Hk, <- Hyk. by apply list_elem_of_fmap_2.
Qed.

Lemma idsUnique_upsert shard event shard' found :
  idsUnique (Shard.items shard) ->
  upsertIncidentInShard shard event = Ok (shard', found) ->
  idsUnique (Shard.items shard').
Proof.
  unfold idsUnique. intros Hnd Hup.
  destruct (Event.receivedAt event) as [|timestamp] eqn:Ht.
  { by rewrite upsert_invalid_date in Hup. }
  destruct (findMatchingIncident shard event) as [[idx incident]|] eqn:Hf.
  - rewrite (upsert_matched _ _ _ _ _ Hf Ht) in Hup. simplify_eq/=.
    apply findMatchingIncident_Some in Hf as [Hidx _].
    rewrite list_fmap_insert. simpl.
    rewrite list_insert_id; [done|].
    by rewrite list_lookup_fmap, Hidx.
  - rewrite (upsert_created _ _ _ Hf Ht) in Hup. simplify_eq/=.
    rewrite fmap_app. simpl. apply NoDup_app. split_and!; [done| |apply NoDup_singleton].
    intros id Hid Hid'. apply list_elem_of_singleton in Hid'. subst id.
    eapply createIncidentId_fresh, elem_of_list_to_set. exact Hid.
Qed.

Lemma historiesSorted_upsert shard event shard' found :
  historiesSorted (Shard.items shard) ->
  upsertIncidentInShard shard event = Ok (shard', found) ->
  historiesSorted (Shard.items shard').
Proof.
  unfold historiesSorted. intros Hall Hup.
  destruct (Event.receivedAt event) as [|timestamp] eqn:Ht.
  { by rewrite upsert_invalid_date in Hup. }
  destruct (findMatchingIncident shard event) as [[idx incident]|] eqn:Hf.
  - rewrite (upsert_matched _ _ _ _ _ Hf Ht) in Hup. simplify_eq/=.
    apply findMatchingIncident_Some in Hf as [Hidx _].
    apply Forall_insert; [done|]. simpl. apply recordUpdate_Sorted.
    rewrite Forall_forall in Hall. apply Hall, list_elem_of_lookup. eauto.
  - rewrite (upsert_created _ _ _ Hf Ht) in Hup. simplify_eq/=.
    apply Forall_app. split; [done|]. constructor; [|done]. simpl.
    by apply recordUpdate_appended.
Qed.

Section RepoFacts.
Variable tzOffsetMs : Z -> Z.

Section Invariant.
Variable P : list Incident.t -> Prop.
Hypothesis P_nil : P [].
Hypothesis P_perm : forall l l', l ≡ₚ l' -> P l -> P l'.
Hypothesis P_upsert : forall shard event shard' found,
  P (Shard.items shard) ->
  upsertIncidentInShard shard event = Ok (shard', found) ->
  P (Shard.items shard').

Lemma everyShard_empty : everyShard P Store.empty.
Proof. intros path shard H. simpl in H. by rewrite lookup_empty in H. Qed.

Lemma everyShard_applyEventToRepo store event :
  everyShard P store ->
  everyShard P (applyEventToRepo tzOffsetMs store event).1.
Proof.
  intros Hinv. unfold applyEventToRepo.
  destruct (Event.receivedAt event) as [|eventDate] eqn:Ht; [done|].
  match goal with |- context [upsertIncidentInShard ?sh event] =>
    destruct (upsertIncidentInShard sh event) as [[shard' [idx incident]]|e] eqn:Hup
  end; simpl; [|done].
  intros path shard Hlook. simpl in Hlook.
  apply lookup_insert_Some in Hlook as [[_ <-]|[_ Hlook]]; [|by eapply Hinv].
  simpl. eapply P_perm; [symmetry; apply sortBy_Permutation|].
  eapply P_upsert; [|done]. simpl.
  unfold loadShard. simpl.
  destruct (Store.shards store !! _) as [old|] eqn:Hold; simpl.
  - by eapply Hinv.
  - apply P_nil.
Qed.

Lemma everyShard_applyEvents events store :
  everyShard P store ->
  everyShard P (applyEvents tzOffsetMs store events).
Proof.
  revert store. induction events as [|event rest IH]; intros store Hinv; [done|].
  simpl. pose proof (everyShard_applyEventToRepo store event Hinv) as Hstep.
  destruct (applyEventToRepo tzOffsetMs store event) as [store' [incident|e]]; simpl in *.
  - by apply IH.
  - done.
Qed.
End Invariant.

(** What holds of every shard after any run from the empty repository: one
    incident per key, one incident per id, and every update history in
    order of time. *)
Lemma shards_well_formed events :
  everyShard (fun items => keysUnique items /\ idsUnique items /\ historiesSorted items)
             (applyEvents tzOffsetMs Store.empty events).
Proof.
  apply everyShard_applyEvents; [| | |apply everyShard_empty].
  - split_and!; constructor.
  - intros l l' Hperm (Hk & Hi & Hs). unfold keysUnique, idsUnique, historiesSorted.
    by rewrite <- !Hperm.
  - intros shard event shard' found (Hk & Hi & Hs) Hup. split_and!.
    + by eapply keysUnique_upsert.
    + by eapply idsUnique_upsert.
    + by eapply historiesSorted_upsert.
Qed.

(** C2, as the code has it.  After any run of events from the empty
    repository, every monthly shard holds at most one incident with a
    given key, so at most one that is investigating. *)
Theorem at_most_one_open_per_shard events path shard key :
  Store.shards (applyEvents tzOffsetMs Store.empty events) !! path = Some shard ->
  keysUnique (Shard.items shard)
  /\ (length (filter (fun incident => Incident.ingestion_key incident = key
                                      /\ Incident.status incident = "investigating")
                     (Shard.items shard)) <= 1)%nat.
Proof.
  intros Hlook.
  destruct (shards_well_formed events path shard Hlook) as (Hkeys & _).
  split; [done|]. by apply keysUnique_at_most_one.
Qed.

(** The shard a call receives, read from the repository a run has left:
    every history in it is in order of time. *)
Lemma loaded_historiesSorted events path period :
  historiesSorted
    (Shard.items (loadShard (applyEvents tzOffsetMs Store.empty events) path period)).
Proof.
  unfold loadShard.
  destruct (Store.shards _ !! path) as [shard|] eqn:Hlook; [|constructor].
  by apply (shards_well_formed events path shard Hlook).
Qed.

(** C7.  The shard is the one the script reads for a month after any run
    of events from the empty repository (empty when the month has no file
    yet).  The update of the event is appended only when no stored update
    of the incident has its message id, and then the history is the old
    one with that update added; when the message id is already there the
    history is left exactly as it was.  No stored update is removed or
    changed, and after the call the history of the incident is sorted by
    timestamp, as it was before. *)
Theorem updates_append_only_deduplicated events path period event timestamp :
  let store := applyEvents tzOffsetMs Store.empty events in
  let shard := {| Shard.period := period;
                  Shard.items := Shard.items (loadShard store path period) |} in
  Event.receivedAt event = IsoDate timestamp ->
  exists shard' idx incident',
    upsertIncidentInShard shard event = Ok (shard', (idx, incident'))
    /\ Shard.items shard' !! idx = Some incident'
    /\ ((exists u, u ∈ updatesBefore shard event
                   /\ Update.source_message_id u = Event.messageId event) ->
        Incident.updates incident' = updatesBefore shard event)
    /\ ((forall u, u ∈ updatesBefore shard event ->
                   Update.source_message_id u <> Event.messageId event) ->
        Incident.updates incident'
          ≡ₚ updatesBefore shard event ++ [updateOf event timestamp])
    /\ (forall u, u ∈ updatesBefore shard event -> u ∈ Incident.updates incident')
    /\ Sorted byTimestamp (updatesBefore shard event)
    /\ Sorted byTimestamp (Incident.updates incident').
Proof.
  intros store shard Ht.
  pose proof (loaded_historiesSorted events path period) as Hsorted.
  fold store in Hsorted. change (historiesSorted (Shard.items shard)) in Hsorted.
  unfold historiesSorted in Hsorted. rewrite Forall_forall in Hsorted.
  unfold updatesBefore.
  destruct (findMatchingIncident shard event) as [[idx incident]|] eqn:Hf.
  - eexists _, idx, _. split; [by apply upsert_matched|].
    apply findMatchingIncident_Some in Hf as [Hidx _].
    assert (Sorted byTimestamp (Incident.updates incident)) as Hbefore.
    { apply Hsorted, list_elem_of_lookup. by exists idx. }
    split_and!; simpl.
    + apply list_lookup_insert_eq. by eapply lookup_lt_Some.
    + intros Hdup. by apply recordUpdate_duplicate, alreadyHasMessage_true.
    + intros Hnew. by apply recordUpdate_appended, alreadyHasMessage_false.
    + intros u. apply recordUpdate_keeps.
    + done.
    + by apply recordUpdate_Sorted.
  - eexists _, _, _. split; [by apply upsert_created|].
    split_and!; simpl.
    + rewrite lookup_app_r by done. by rewrite Nat.sub_diag.
    + intros (u & Hin & _). by apply elem_of_nil in Hin.
    + intros _. by apply recordUpdate_appended.
    + intros u Hin. by apply elem_of_nil in Hin.
    + constructor.
    + by apply recordUpdate_appended.
Qed.
End RepoFacts.

(** ** Messages with missing fields *)

Lemma slugify_nonempty (text : string) : slugify text <> "".
Proof. unfold slugify. simpl. by case_decide. Qed.

Lemma recordUpdate_has us event timestamp :
  exists u, u ∈ recordUpdate us event timestamp
            /\ Update.source_message_id u = Event.messageId event.
Proof.
  apply alreadyHasMessage_true.
  destruct (alreadyHasMessage (recordUpdate us event timestamp) event) eqn:Hhas; [done|].
  pose proof (recordUpdate_twice us event timestamp) as Htwice.
  unfold recordUpdate at 1 in Htwice. rewrite Hhas in Htwice.
  pose proof (sortBy_length timestampAsc
                (recordUpdate us event timestamp ++ [updateOf event timestamp])) as Hlen.
  rewrite Htwice, length_app in Hlen. simpl in Hlen. lia.
Qed.

(** The incident a call returns is in the shard the call leaves, and it
    records the message. *)
Lemma upsert_returns shard event shard' idx incident :
  upsertIncidentInShard shard event = Ok (shard', (idx, incident)) ->
  Shard.items shard' !! idx = Some incident
  /\ exists u, u ∈ Incident.updates incident
               /\ Update.source_message_id u = Event.messageId event.
Proof.
  intros Hup.
  destruct (Event.receivedAt event) as [|timestamp] eqn:Ht.
  { by rewrite upsert_invalid_date in Hup. }
  destruct (findMatchingIncident shard event) as [[i x]|] eqn:Hf.
  - rewrite (upsert_matched _ _ _ _ _ Hf Ht) in Hup. simplify_eq/=.
    apply findMatchingIncident_Some in Hf as [Hidx _]. split.
    + apply list_lookup_insert_eq. by eapply lookup_lt_Some.
    + apply recordUpdate_has.
  - rewrite (upsert_created _ _ _ Hf Ht) in Hup. simplify_eq/=. split.
    + rewrite lookup_app_r by done. by rewrite Nat.sub_diag.
    + apply recordUpdate_has.
Qed.

Section IngestFacts.
Variable tzOffsetMs : Z -> Z.

Lemma applyEventToRepo_invalid_date store event :
  Event.receivedAt event = NotADate ->
  applyEventToRepo tzOffsetMs store event = (store, Throw RangeError).
Proof. intros Ht. unfold applyEventToRepo. by rewrite Ht. Qed.

(** An event with a readable date is always reconciled: the call returns
    an incident, which is then among the incidents of the repository and
    records the message. *)
Lemma applyEventToRepo_accepts store event eventDate :
  Event.receivedAt event = IsoDate eventDate ->
  exists store' incident,
    applyEventToRepo tzOffsetMs store event = (store', Ok incident)
    /\ incident ∈ collectAllIncidents store'
    /\ exists u, u ∈ Incident.updates incident
                 /\ Update.source_message_id u = Event.messageId event.
Proof.
  intros Ht. unfold applyEventToRepo. rewrite Ht.
  match goal with |- context [upsertIncidentInShard ?sh event] =>
    destruct (upsertIncidentInShard sh event) as [[shard' [idx incident]]|e] eqn:Hup
  end.
  2: { unfold upsertIncidentInShard in Hup. rewrite Ht in Hup.
       by destruct (findMatchingIncident _ _) as [[??]|]. }
  apply upsert_returns in Hup as [Hidx Hmsg].
  eexists _, incident. split; [done|]. split; [|done].
  unfold collectAllIncidents. simpl.
  apply sortBy_elem_of, list_elem_of_In, in_concat.
  exists (sortBy startedDesc (Shard.items shard')). split.
  - apply in_map_iff.
    exists (getShardRepoPathForDate tzOffsetMs eventDate). split.
    + by rewrite lookup_insert_eq.
    + case_decide as Hin; [by apply list_elem_of_In|].
      unfold saveIncidentsIndex. apply -> in_rev.
      apply list_elem_of_In, sortBy_elem_of, arrayFromSet_elem_of, elem_of_app.
      right. by apply list_elem_of_singleton.
  - apply list_elem_of_In, sortBy_elem_of, list_elem_of_lookup. eauto.
Qed.

(** C8, as the code has it.  No message is rejected for a missing
    receivedAt or a missing subject: the normalizer puts the current time
    in place of a missing receivedAt and always derives a non-empty key,
    and the event is then reconciled like any other, so the repository
    holds an incident that records the message.  Only a receivedAt that is
    present and unreadable makes the reconciliation throw, and then
    nothing is written. *)
Theorem missing_fields_are_defaulted now store message :
  let event := buildParsedEvent now message in
  (Message.receivedAt message = None -> Event.receivedAt event = IsoDate now)
  /\ Event.subjectKey event <> ""
  /\ (Message.receivedAt message <> Some NotADate ->
      exists store' incident,
        ingestMessage tzOffsetMs now store message = (store', Ok incident)
        /\ incident ∈ collectAllIncidents store'
        /\ exists u, u ∈ Incident.updates incident
                     /\ Update.source_message_id u = Message.messageId message)
  /\ (Message.receivedAt message = Some NotADate ->
      ingestMessage tzOffsetMs now store message = (store, Throw RangeError)).
Proof.
  simpl. split_and!.
  - intros Hmiss. unfold buildParsedEvent. simpl. by rewrite Hmiss.
  - apply slugify_nonempty.
  - intros Hok. unfold ingestMessage.
    destruct (Event.receivedAt (buildParsedEvent now message)) as [|ms] eqn:Ht.
    + unfold buildParsedEvent in Ht. simpl in Ht.
      by destruct (Message.receivedAt message) as [[|]|].
    + exact (applyEventToRepo_accepts store (buildParsedEvent now message) ms Ht).
  - intros Hbad. unfold ingestMessage. apply applyEventToRepo_invalid_date.
    unfold buildParsedEvent. simpl. by rewrite Hbad.
Qed.
End IngestFacts.

(** ** Severity normalization *)


Lemma normalizeSeverity_string (s : string) :
  normalizeSeverity (JsString s)
  = if decide (s = "") then "operational"
    else if decide (s ∈ ["degraded"; "minor"; "major"; "critical"]) then s
    else if decide (s = "resolved") then "operational"
    else "degraded".
Proof.
  unfold normalizeSeverity, falsy, isString.
  repeat case_bool_decide; simplify_eq/=; try done.
  all: repeat case_decide; try done.
  all: repeat match goal with
       | H : _ ∈ _ :: _ |- _ => apply elem_of_cons in H as [H|H]; [congruence|]
       | H : _ ∈ [] |- _ => by apply elem_of_nil in H
       | H : ~ _ ∈ _ |- _ => destruct H; repeat constructor
       end.
Qed.

(** C10.  [normalizeSeverity] is total onto the canonical severities.  The
    falsy values, which are [undefined], [null], [false], the number 0 and
    the empty string, and "resolved" give operational; identified,
    investigating and monitoring give degraded; minor, degraded, major and
    critical give themselves; any other non-empty string, and any other
    value ([true], a number other than 0, an object), gives degraded.  The
    earlier revision has the same function. *)
Theorem normalizeSeverity_total (value : JsValue) :
  normalizeSeverity value ∈ canonicalSeverities
  /\ (falsy value = true -> normalizeSeverity value = "operational")
  /\ normalizeSeverity JsUndefined = "operational"
  /\ normalizeSeverity JsNull = "operational"
  /\ normalizeSeverity (JsBool false) = "operational"
  /\ normalizeSeverity (JsNumber 0) = "operational"
  /\ (forall x : Q, (x == 0)%Q -> normalizeSeverity (JsNumber x) = "operational")
  /\ normalizeSeverity (JsString "") = "operational"
  /\ normalizeSeverity (JsString "resolved") = "operational"
  /\ normalizeSeverity (JsString "identified") = "degraded"
  /\ normalizeSeverity (JsString "investigating") = "degraded"
  /\ normalizeSeverity (JsString "monitoring") = "degraded"
  /\ normalizeSeverity (JsString "minor") = "minor"
  /\ normalizeSeverity (JsString "degraded") = "degraded"
  /\ normalizeSeverity (JsString "major") = "major"
  /\ normalizeSeverity (JsString "critical") = "critical"
  /\ (forall s, s <> "" ->
        s ∉ ["resolved"; "identified"; "investigating"; "monitoring";
             "minor"; "degraded"; "major"; "critical"] ->
        normalizeSeverity (JsString s) = "degraded")
  /\ normalizeSeverity (JsBool true) = "degraded"
  /\ (forall x : Q, ~ (x == 0)%Q -> normalizeSeverity (JsNumber x) = "degraded")
  /\ normalizeSeverity JsObject = "degraded"
  /\ (falsy value = false -> (forall s, value <> JsString s) ->
      normalizeSeverity value = "degraded")
  /\ Legacy.normalizeSeverity value = normalizeSeverity value.
Proof.
  split_and!; try done.
  - destruct value as [| |b|x|s|].
    + repeat constructor.
    + repeat constructor.
    + destruct b; repeat constructor.
    + unfold normalizeSeverity; simpl.
      destruct (Qeq_bool x 0); simpl; repeat constructor.
    + rewrite normalizeSeverity_string. unfold canonicalSeverities.
      repeat case_decide; try (repeat constructor; fail).
      repeat match goal with
      | H : _ ∈ _ :: _ |- _ => apply elem_of_cons in H as [->|H]; [repeat constructor|]
      | H : _ ∈ [] |- _ => by apply elem_of_nil in H
      end.
    + repeat constructor.
  - intros Hf. unfold normalizeSeverity. by rewrite Hf.
  - intros x Hx. unfold normalizeSeverity. simpl.
    by rewrite (proj2 (Qeq_bool_iff x 0) Hx).
  - intros s Hne Hnot. rewrite normalizeSeverity_string.
    rewrite decide_False by done.
    rewrite decide_False.
    2: { intros Hin. apply Hnot.
         repeat (apply elem_of_cons in Hin as [->|Hin]; [repeat constructor|]).
         by apply elem_of_nil in Hin. }
    rewrite decide_False; [done|].
    intros ->. apply Hnot. repeat constructor.
  - intros x Hx. unfold normalizeSeverity. simpl.
    destruct (Qeq_bool x 0) eqn:Hq; [|done].
    by apply Qeq_bool_iff in Hq.
  - intros Hf Hns. unfold normalizeSeverity. rewrite Hf.
    destruct value as [| |b|x|s|]; try done.
    by destruct (Hns s).
Qed.

(** ** Downtime in minute buckets *)

Lemma floorMinute_mono (a b : Z) : a <= b -> floorMinute a <= floorMinute b.
Proof. intros H. unfold floorMinute. by apply Z.div_le_mono. Qed.

Lemma ceilMinute_mono (a b : Z) : a <= b -> ceilMinute a <= ceilMinute b.
Proof.
  intros H. unfold ceilMinute.
  assert ((- b) / 60000 <= (- a) / 60000) by (apply Z.div_le_mono; lia). lia.
Qed.

Lemma floorMinute_whole (k : Z) : floorMinute (60000 * k) = k.
Proof. unfold floorMinute. rewrite Z.mul_comm. by apply Z.div_mul. Qed.

Lemma ceilMinute_whole (k : Z) : ceilMinute (60000 * k) = k.
Proof.
  unfold ceilMinute. replace (- (60000 * k)) with ((- k) * 60000) by lia.
  rewrite Z.div_mul by done. lia.
Qed.

Lemma floor_le_ceil (x : Z) : floorMinute x <= ceilMinute x.
Proof.
  unfold floorMinute, ceilMinute.
  pose proof (Z.div_mod x 60000 ltac:(done)).
  pose proof (Z.div_mod (- x) 60000 ltac:(done)).
  pose proof (Z.mod_pos_bound x 60000 ltac:(done)).
  pose proof (Z.mod_pos_bound (- x) 60000 ltac:(done)).
  lia.
Qed.

Lemma elem_of_bucketsOf (segment : Segment.t) (b : Z) :
  b ∈ bucketsOf segment
  <-> floorMinute (Segment.start segment) <= b < ceilMinute (Segment.end_ segment).
Proof. unfold bucketsOf. rewrite elem_of_seqZ. lia. Qed.

Lemma elem_of_occupy (occupied : gset Z) (segment : Segment.t) (b : Z) :
  b ∈ occupy occupied segment <-> b ∈ occupied \/ b ∈ bucketsOf segment.
Proof.
  unfold occupy. generalize (bucketsOf segment) as buckets.
  intros buckets. revert occupied.
  induction buckets as [|k r IH]; intros occupied; simpl.
  - rewrite elem_of_nil. tauto.
  - rewrite IH, elem_of_union, elem_of_singleton, elem_of_cons. tauto.
Qed.

Lemma elem_of_foldl_occupy (clipped : list Segment.t) (occupied : gset Z) (b : Z) :
  b ∈ foldl occupy occupied clipped
  <-> b ∈ occupied \/ exists c, c ∈ clipped /\ b ∈ bucketsOf c.
Proof.
  revert occupied. induction clipped as [|c r IH]; intros occupied; simpl.
  - split; [by left|]. intros [?|(c & Hc & _)]; [done|]. by apply elem_of_nil in Hc.
  - rewrite IH, elem_of_occupy. split.
    + intros [[?|?]|(c' & Hc' & ?)]; [by left| |].
      * right. exists c. split; [left|done].
      * right. exists c'. split; [by right|done].
    + intros [?|(c' & Hc' & ?)]; [by left; left|].
      apply elem_of_cons in Hc' as [->|Hc']; [by left; right|].
      right. by exists c'.
Qed.


Lemma clipSegment_Some ws we segment c :
  clipSegment ws we segment = Some c
  <-> Z.max (Segment.start segment) ws < Z.min (Segment.end_ segment) we
      /\ c = {| Segment.start := Z.max (Segment.start segment) ws;
                Segment.end_ := Z.min (Segment.end_ segment) we;
                Segment.severity := Segment.severity segment |}.
Proof.
  unfold clipSegment. destruct (Z.leb_spec (Z.min (Segment.end_ segment) we)
                                           (Z.max (Segment.start segment) ws)).
  - split; [done|]. intros [? _]. lia.
  - split; [intros; simplify_eq; split; [lia|done]|]. by intros [_ ->].
Qed.


Lemma elem_of_occupiedBuckets segments ws we b :
  b ∈ occupiedBuckets segments ws we
  <-> Exists (touches ws we b) segments.
Proof.
  unfold occupiedBuckets. rewrite elem_of_foldl_occupy, Exists_exists. split.
  - intros [Hb|(c & Hc & Hb)]; [by apply not_elem_of_empty in Hb|].
    unfold clippedSegments in Hc.
    apply sortBy_elem_of, list_elem_of_omap in Hc as (s & Hs & Hclip).
    apply clipSegment_Some in Hclip as [Hlt ->].
    apply elem_of_bucketsOf in Hb. simpl in Hb.
    exists s. split; [done|]. by split.
  - intros (s & Hs & Hlt & Hb). right.
    eexists. split.
    + unfold clippedSegments. apply sortBy_elem_of, list_elem_of_omap.
      exists s. split; [done|]. by apply clipSegment_Some.
    + by apply elem_of_bucketsOf.
Qed.

Lemma mergedDowntimeBuckets_size segments ws we :
  mergedDowntimeBuckets segments ws we
  = Z.of_nat (size (occupiedBuckets segments ws we)).
Proof.
  unfold mergedDowntimeBuckets, occupiedBuckets.
  by destruct (clippedSegments segments ws we).
Qed.

Lemma size_as_filter (X : gset Z) (Q : Z -> Prop) `{forall b, Decision (Q b)}
    (l : list Z) :
  NoDup l -> (forall b, b ∈ X <-> Q b /\ b ∈ l) ->
  size X = length (filter Q l).
Proof.
  intros Hnd HX.
  assert (X = list_to_set (filter Q l)) as ->.
  { apply set_eq. intros b. by rewrite elem_of_list_to_set, list_elem_of_filter. }
  apply size_list_to_set. by apply NoDup_filter.
Qed.

Lemma touches_in_window ws we b segment :
  touches ws we b segment -> floorMinute ws <= b < ceilMinute we.
Proof.
  intros (Hlt & Hlo & Hhi). split.
  - etrans; [|exact Hlo]. apply floorMinute_mono. lia.
  - eapply Z.lt_le_trans; [exact Hhi|]. apply ceilMinute_mono. lia.
Qed.

(** The downtime is the number of minutes of the window that a clipped
    segment touches, each counted once. *)
Lemma mergedDowntimeBuckets_counts segments ws we :
  mergedDowntimeBuckets segments ws we
  = Z.of_nat (length (filter (fun b => Exists (touches ws we b) segments)
                             (seqZ (floorMinute ws) (ceilMinute we - floorMinute ws)))).
Proof.
  rewrite mergedDowntimeBuckets_size. f_equal.
  apply size_as_filter; [apply NoDup_seqZ|].
  intros b. rewrite elem_of_occupiedBuckets, elem_of_seqZ. split; [|tauto].
  intros Hex. split; [done|].
  apply Exists_exists in Hex as (s & _ & Ht).
  apply touches_in_window in Ht. lia.
Qed.

Lemma mergedDowntimeBuckets_bounds segments ws we :
  0 <= mergedDowntimeBuckets segments ws we
  /\ (0 < ceilMinute we - floorMinute ws ->
      mergedDowntimeBuckets segments ws we <= ceilMinute we - floorMinute ws).
Proof.
  rewrite mergedDowntimeBuckets_counts. split; [lia|]. intros Hpos.
  pose proof (length_filter (fun b => Exists (touches ws we b) segments)
                (seqZ (floorMinute ws) (ceilMinute we - floorMinute ws))) as Hle.
  rewrite length_seqZ in Hle. lia.
Qed.

Lemma mergedDowntimeBuckets_empty_window segments ws we :
  we <= ws -> mergedDowntimeBuckets segments ws we = 0.
Proof.
  intros Hle. rewrite mergedDowntimeBuckets_size.
  assert (occupiedBuckets segments ws we = ∅) as ->; [|done].
  apply set_eq. intros b. rewrite elem_of_occupiedBuckets. split.
  - intros Hex. apply Exists_exists in Hex as (s & _ & Hlt & _). lia.
  - intros Hb. by apply not_elem_of_empty in Hb.
Qed.


Lemma touches_wholeMinutes A B b segment :
  touches (60000 * A) (60000 * B) b (wholeMinutes segment)
  <-> (Segment.start segment <= b < Segment.end_ segment) /\ A <= b < B.
Proof.
  unfold touches, wholeMinutes. simpl.
  rewrite Z.mul_max_distr_nonneg_l, Z.mul_min_distr_nonneg_l by done.
  rewrite floorMinute_whole, ceilMinute_whole. lia.
Qed.

Lemma mergedDowntimeBuckets_wholeMinutes segments A B :
  mergedDowntimeBuckets (wholeMinutes <$> segments) (60000 * A) (60000 * B)
  = unionMeasure segments A B.
Proof.
  rewrite mergedDowntimeBuckets_size. unfold unionMeasure. f_equal.
  apply size_as_filter; [apply NoDup_seqZ|].
  intros b. rewrite elem_of_occupiedBuckets, elem_of_seqZ.
  unfold covers. rewrite Exists_fmap, !Exists_exists. split.
  - intros (s & Hs & Ht). apply touches_wholeMinutes in Ht as [Hc Hw].
    split; [by exists s|lia].
  - intros [(s & Hs & Hc) Hw]. exists s. split; [done|].
    apply touches_wholeMinutes. split; [done|lia].
Qed.

(** ** Downtime in milliseconds (earlier revision)

    [mergedDowntimeMs] is the interval merge: over the clipped segments in
    order of start it keeps one run open, extends it while the next segment
    starts inside it, and closes it otherwise.  Its result is the measure
    of the union. *)

Section Counting.
Context (P Q : Z -> Prop) `{forall t, Decision (P t)} `{forall t, Decision (Q t)}.

Lemma filter_ext_in (l : list Z) :
  (forall t, t ∈ l -> P t <-> Q t) -> filter P l = filter Q l.
Proof.
  induction l as [|x r IH]; intros Hext; [done|].
  rewrite !filter_cons. rewrite IH by (intros t Ht; apply Hext; by right).
  pose proof (Hext x ltac:(left)).
  destruct (decide (P x)), (decide (Q x)); tauto || done.
Qed.

Lemma countIn_ext (lo hi : Z) :
  (forall t, lo <= t < hi -> P t <-> Q t) -> countIn P lo hi = countIn Q lo hi.
Proof.
  intros Hext. unfold countIn. f_equal. f_equal. apply filter_ext_in.
  intros t Ht. apply elem_of_seqZ in Ht. apply Hext. lia.
Qed.

Lemma countIn_split (lo mid hi : Z) :
  lo <= mid <= hi -> countIn P lo hi = countIn P lo mid + countIn P mid hi.
Proof.
  intros Hmid. unfold countIn.
  replace (hi - lo) with ((mid - lo) + (hi - mid)) by lia.
  rewrite seqZ_app by lia. rewrite filter_app, length_app.
  replace (lo + (mid - lo)) with mid by lia. lia.
Qed.

Lemma countIn_all (lo hi : Z) :
  lo <= hi -> (forall t, lo <= t < hi -> P t) -> countIn P lo hi = hi - lo.
Proof.
  intros Hle Hall. unfold countIn. rewrite filter_all_id.
  - rewrite length_seqZ. lia.
  - intros t Ht. apply elem_of_seqZ in Ht. apply Hall. lia.
Qed.

Lemma countIn_none (lo hi : Z) :
  (forall t, lo <= t < hi -> ~ P t) -> countIn P lo hi = 0.
Proof.
  intros Hnone. unfold countIn.
  destruct (filter P (seqZ lo (hi - lo))) as [|t r] eqn:Hfil; [done|].
  assert (t ∈ filter P (seqZ lo (hi - lo))) as Ht by (rewrite Hfil; left).
  apply list_elem_of_filter in Ht as [HP Ht]. apply elem_of_seqZ in Ht.
  destruct (Hnone t); [lia|done].
Qed.
End Counting.

Lemma covers_cons (c : Segment.t) (rest : list Segment.t) (t : Z) :
  covers (c :: rest) t
  <-> (Segment.start c <= t < Segment.end_ c) \/ covers rest t.
Proof. unfold covers. by rewrite Exists_cons. Qed.

Lemma covers_starts (from upto : Z) (l : list Segment.t) (t : Z) :
  Forall (within from upto) l -> covers l t -> from <= t.
Proof.
  intros Hall Hcov. apply Exists_exists in Hcov as (c & Hc & Ht).
  rewrite Forall_forall in Hall. destruct (Hall c Hc) as (? & _). lia.
Qed.

Lemma mergeRuns_measure (rest : list Segment.t) :
  forall total cs ce hi,
    cs <= ce <= hi ->
    StronglySorted startsBefore rest ->
    Forall (within cs hi) rest ->
    Legacy.mergeRuns total cs ce rest
    = total + countIn (fun t => t < ce \/ covers rest t) cs hi.
Proof.
  induction rest as [|c rest IH]; intros total cs ce hi Hrun Hsorted Hall; simpl.
  - f_equal. rewrite (countIn_split _ cs ce hi) by lia.
    rewrite countIn_all, countIn_none; [lia| |lia|].
    + intros t Ht [?|Hcov]; [lia|]. by apply Exists_nil in Hcov.
    + intros t Ht. left. lia.
  - apply Forall_cons in Hall as [(Hcs & Hlt & Hhi) Hall].
    apply StronglySorted_inv in Hsorted as [Hsorted Hnext].
    destruct (Z.leb_spec (Segment.start c) ce) as [Hin|Hout].
    + rewrite (IH total cs (Z.max ce (Segment.end_ c)) hi); [|lia|done|done].
      f_equal. apply countIn_ext. intros t Ht. rewrite covers_cons, ?Z.max_lt_iff. intuition lia.
    + assert (Forall (within (Segment.start c) hi) rest) as Hall'.
      { rewrite Forall_forall in Hall, Hnext |- *. intros d Hd.
        destruct (Hall d Hd) as (_ & ? & ?). specialize (Hnext d Hd).
        unfold startsBefore in Hnext. by split_and!. }
      rewrite (IH _ (Segment.start c) (Segment.end_ c) hi); [|lia|done|done].
      rewrite (countIn_split (fun t => t < ce \/ covers (c :: rest) t) cs ce hi) by lia.
      rewrite (countIn_split (fun t => t < ce \/ covers (c :: rest) t)
                 ce (Segment.start c) hi) by lia.
      rewrite (countIn_all (fun t => t < ce \/ covers (c :: rest) t) cs ce);
        [|lia|intros; left; lia].
      rewrite (countIn_none (fun t => t < ce \/ covers (c :: rest) t) ce).
      2: { intros t Ht [?|Hcov]; [lia|].
           apply covers_cons in Hcov as [?|Hcov]; [lia|].
           pose proof (covers_starts _ _ _ _ Hall' Hcov). lia. }
      rewrite (countIn_ext (fun t => t < ce \/ covers (c :: rest) t)
                 (fun t => t < Segment.end_ c \/ covers rest t)); [lia|].
      intros t Ht. rewrite covers_cons, ?Z.max_lt_iff. intuition lia.
Qed.

Lemma clippedSegments_shape segments ws we :
  StronglySorted startsBefore (clippedSegments segments ws we)
  /\ Forall (within ws we) (clippedSegments segments ws we).
Proof.
  unfold clippedSegments. split.
  - apply Sorted_StronglySorted; [intros a b c; unfold startsBefore; lia|].
    eapply Sorted_weaken; [|apply sortBy_Sorted].
    + intros a b. unfold startAsc, startsBefore. by rewrite Z.leb_le.
    + intros a b. unfold startAsc. rewrite !Z.leb_le. lia.
  - apply Forall_forall. intros c Hc.
    apply sortBy_elem_of, list_elem_of_omap in Hc as (s & _ & Hclip).
    apply clipSegment_Some in Hclip as [Hlt ->]. unfold within. simpl. lia.
Qed.

Lemma covers_clipped segments ws we t :
  ws <= t < we ->
  covers (clippedSegments segments ws we) t <-> covers segments t.
Proof.
  intros Ht. unfold covers, clippedSegments. rewrite !Exists_exists. split.
  - intros (c & Hc & Hcov).
    apply sortBy_elem_of, list_elem_of_omap in Hc as (s & Hs & Hclip).
    apply clipSegment_Some in Hclip as [Hlt ->]. simpl in Hcov.
    exists s. split; [done|lia].
  - intros (s & Hs & Hcov). eexists. split.
    + apply sortBy_elem_of, list_elem_of_omap. exists s. split; [done|].
      apply clipSegment_Some. split; [lia|done].
    + simpl. lia.
Qed.

(** The earlier revision measures the union of the clipped segments:
    its downtime is the number of milliseconds of the window that some
    segment covers. *)
Lemma mergedDowntimeMs_measure segments ws we :
  Legacy.mergedDowntimeMs segments ws we = unionMeasure segments ws we.
Proof.
  unfold unionMeasure. fold (countIn (covers segments) ws we).
  rewrite <- (countIn_ext (covers (clippedSegments segments ws we)) (covers segments))
    by (intros t Ht; by apply covers_clipped).
  destruct (clippedSegments_shape segments ws we) as [Hsorted Hall].
  unfold Legacy.mergedDowntimeMs.
  destruct (clippedSegments segments ws we) as [|first rest].
  - symmetry. apply countIn_none. intros t _ Hcov. by apply Exists_nil in Hcov.
  - apply Forall_cons in Hall as [(Hws & Hlt & Hwe) Hall].
    apply StronglySorted_inv in Hsorted as [Hsorted Hnext].
    assert (Forall (within (Segment.start first) we) rest) as Hall'.
    { rewrite Forall_forall in Hall, Hnext |- *. intros d Hd.
      destruct (Hall d Hd) as (_ & ? & ?). specialize (Hnext d Hd).
      unfold startsBefore in Hnext. by split_and!. }
    rewrite (mergeRuns_measure rest 0 _ _ we); [|lia|done|done].
    rewrite (countIn_split (covers (first :: rest)) ws (Segment.start first) we) by lia.
    rewrite (countIn_none (covers (first :: rest)) ws).
    2: { intros t Ht Hcov. apply covers_cons in Hcov as [?|Hcov]; [lia|].
         pose proof (covers_starts _ _ _ _ Hall' Hcov). lia. }
    rewrite (countIn_ext (covers (first :: rest))
               (fun t => t < Segment.end_ first \/ covers rest t)); [lia|].
    intros t Ht. rewrite covers_cons, ?Z.max_lt_iff. intuition lia.
Qed.

(** C4, as the code has it.  The downtime is counted in whole one-minute
    buckets: it is the number of minutes of the window that a clipped
    segment touches, each counted once.  When the window and the segments
    start and end on whole minutes this is the measure, in minutes, of the
    union of the segments clipped to the window: segments [0,10) and [5,15)
    over the window [0,15) give 15 and not 20, and the segment [-5,5) over
    the window [0,10) gives 5 and not 10.  The earlier revision measured
    the union in milliseconds, whatever the window and the segments. *)
Theorem downtime_in_whole_minutes :
  (forall segments ws we,
      mergedDowntimeBuckets segments ws we
      = Z.of_nat (length (filter (fun b => Exists (touches ws we b) segments)
                                 (seqZ (floorMinute ws) (ceilMinute we - floorMinute ws)))))
  /\ (forall segments A B,
         mergedDowntimeBuckets (wholeMinutes <$> segments) (60000 * A) (60000 * B)
         = unionMeasure segments A B)
  /\ mergedDowntimeBuckets
       (wholeMinutes <$> [seg 0 10 "major"; seg 5 15 "minor"]) (60000 * 0) (60000 * 15)
     = 15
  /\ mergedDowntimeBuckets
       (wholeMinutes <$> [seg (-5) 5 "major"]) (60000 * 0) (60000 * 10)
     = 5
  /\ (forall segments ws we,
         Legacy.mergedDowntimeMs segments ws we = unionMeasure segments ws we).
Proof.
  split_and!.
  - apply mergedDowntimeBuckets_counts.
  - apply mergedDowntimeBuckets_wholeMinutes.
  - rewrite mergedDowntimeBuckets_wholeMinutes. by vm_compute.
  - rewrite mergedDowntimeBuckets_wholeMinutes. by vm_compute.
  - apply mergedDowntimeMs_measure.
Qed.

(** ** Window uptime *)

Local Open Scope Q_scope.

Lemma ratio_bounds (D T : Z) :
  (0 < D)%Z -> (0 <= T <= D)%Z ->
  0 <= inject_Z (D - T) / inject_Z D * 100
  /\ inject_Z (D - T) / inject_Z D * 100 <= 100.
Proof.
  intros HD HT. destruct D as [|p|p]; try lia.
  rewrite <- Qmake_Qdiv. unfold Qle, Qmult. cbn [Qnum Qden].
  rewrite Pos.mul_1_r. lia.
Qed.

Lemma inject_Z_positive (z : Z) : (0 < z)%Z -> ~ inject_Z z == 0.
Proof. intros Hpos Hz. unfold Qeq in Hz. simpl in Hz. lia. Qed.

Lemma uptimeForWindow_ratio segments ws we :
  (0 < ceilMinute we - floorMinute ws)%Z ->
  uptimeForWindow segments ws we
  == 100 * inject_Z (ceilMinute we - floorMinute ws
                     - mergedDowntimeBuckets segments ws we)
     / inject_Z (ceilMinute we - floorMinute ws).
Proof.
  intros HD. unfold uptimeForWindow.
  destruct (Z.leb_spec (ceilMinute we - floorMinute ws) 0) as [|_]; [lia|].
  destruct (mergedDowntimeBuckets_bounds segments ws we) as [H0 HT].
  specialize (HT HD).
  destruct (ratio_bounds _ (mergedDowntimeBuckets segments ws we) HD (conj H0 HT))
    as [Hlo Hhi].
  rewrite Q.max_r, Q.min_r by (try rewrite Q.min_r; done).
  field. by apply inject_Z_positive.
Qed.

Lemma unionMeasure_bounds segments ws we :
  (0 <= unionMeasure segments ws we)%Z
  /\ ((ws <= we)%Z -> (unionMeasure segments ws we <= we - ws)%Z).
Proof.
  unfold unionMeasure. split; [lia|]. intros Hle.
  pose proof (length_filter (covers segments) (seqZ ws (we - ws))) as Hlen.
  rewrite length_seqZ in Hlen. lia.
Qed.

(** The earlier revision: the formula over the duration of the window and
    the measure of the downtime, both in milliseconds. *)
Lemma legacy_uptimeForWindow_ratio segments ws we :
  (ws < we)%Z ->
  Legacy.uptimeForWindow segments ws we
  == 100 * inject_Z (we - ws - unionMeasure segments ws we) / inject_Z (we - ws).
Proof.
  intros Hlt. unfold Legacy.uptimeForWindow.
  destruct (Z.leb_spec (we - ws) 0) as [|_]; [lia|].
  rewrite mergedDowntimeMs_measure.
  destruct (unionMeasure_bounds segments ws we) as [H0 HT].
  assert (0 < we - ws)%Z as HD by lia.
  destruct (ratio_bounds _ (unionMeasure segments ws we) HD (conj H0 (HT ltac:(lia))))
    as [Hlo Hhi].
  rewrite Q.max_r, Q.min_r by (try rewrite Q.min_r; done).
  field. by apply inject_Z_positive.
Qed.

Lemma uptimeForWindow_nonpositive_span segments ws we :
  (ceilMinute we - floorMinute ws <= 0)%Z -> uptimeForWindow segments ws we = 100.
Proof.
  intros HD. unfold uptimeForWindow.
  by destruct (Z.leb_spec (ceilMinute we - floorMinute ws) 0) as [|]; [|lia].
Qed.

Lemma uptimeForWindow_nothing_down segments ws we :
  (0 < ceilMinute we - floorMinute ws)%Z ->
  mergedDowntimeBuckets segments ws we = 0%Z ->
  uptimeForWindow segments ws we == 100.
Proof.
  intros HD Hzero. rewrite (uptimeForWindow_ratio segments ws we HD), Hzero, Z.sub_0_r.
  field. by apply inject_Z_positive.
Qed.

Lemma uptimeForWindow_all_down segments ws we :
  (0 < ceilMinute we - floorMinute ws)%Z ->
  mergedDowntimeBuckets segments ws we = (ceilMinute we - floorMinute ws)%Z ->
  uptimeForWindow segments ws we == 0.
Proof.
  intros HD Hall. rewrite (uptimeForWindow_ratio segments ws we HD), Hall, Z.sub_diag.
  field. by apply inject_Z_positive.
Qed.

(** C5, as the code has it.  With [D] the number of one-minute buckets the
    window spans and [T] the number of them that are occupied, [T] lies
    between 0 and [D] and the uptime is 100*(D-T)/D, which needs no
    clamping: it lies between 0 and 100, is 100 when no bucket is occupied
    and 0 when all are.  A window whose span is not positive, and every
    window that ends no later than it starts, yields 100.  For a window
    that starts and ends on whole minutes [D] is its duration in
    minutes.  In the earlier revision [D] is the duration of the window
    and [T] the measure of the downtime, in milliseconds. *)
Theorem uptime_over_minute_span segments ws we :
  let D := (ceilMinute we - floorMinute ws)%Z in
  let T := mergedDowntimeBuckets segments ws we in
  (0 <= T)%Z
  /\ ((0 < D)%Z ->
      (T <= D)%Z
      /\ uptimeForWindow segments ws we == 100 * inject_Z (D - T) / inject_Z D
      /\ 0 <= uptimeForWindow segments ws we
      /\ uptimeForWindow segments ws we <= 100
      /\ (T = 0%Z -> uptimeForWindow segments ws we == 100)
      /\ (T = D -> uptimeForWindow segments ws we == 0))
  /\ ((D <= 0)%Z -> uptimeForWindow segments ws we = 100)
  /\ ((we <= ws)%Z -> uptimeForWindow segments ws we == 100)
  /\ (forall A B : Z,
         (ceilMinute (60000 * B) - floorMinute (60000 * A))%Z = (B - A)%Z)
  /\ ((ws < we)%Z ->
      Legacy.uptimeForWindow segments ws we
      == 100 * inject_Z (we - ws - unionMeasure segments ws we) / inject_Z (we - ws)).
Proof.
  intros D T. subst D T.
  destruct (mergedDowntimeBuckets_bounds segments ws we) as [H0 HT].
  split_and!.
  - done.
  - intros HD. specialize (HT HD).
    pose proof (uptimeForWindow_ratio segments ws we HD) as Hu.
    destruct (ratio_bounds _ (mergedDowntimeBuckets segments ws we) HD (conj H0 HT))
      as [Hlo Hhi].
    assert (~ inject_Z (ceilMinute we - floorMinute ws) == 0) as Hnz
      by by apply inject_Z_positive.
    assert (uptimeForWindow segments ws we
            == inject_Z (ceilMinute we - floorMinute ws
                         - mergedDowntimeBuckets segments ws we)
               / inject_Z (ceilMinute we - floorMinute ws) * 100) as Hu'.
    { rewrite Hu. by field. }
    split_and!; try done.
    + by rewrite Hu'.
    + by rewrite Hu'.
    + by apply uptimeForWindow_nothing_down.
    + by apply uptimeForWindow_all_down.
  - apply uptimeForWindow_nonpositive_span.
  - intros Hle.
    destruct (Z.leb_spec (ceilMinute we - floorMinute ws) 0) as [HD|HD].
    + by rewrite uptimeForWindow_nonpositive_span.
    + apply uptimeForWindow_nothing_down; [done|].
      by apply mergedDowntimeBuckets_empty_window.
  - intros A B. by rewrite floorMinute_whole, ceilMinute_whole.
  - apply legacy_uptimeForWindow_ratio.
Qed.

(** With no segment at all every window reports 100. *)
Lemma uptimeForWindow_no_segments (ws we : Z) : uptimeForWindow [] ws we == 100.
Proof.
  destruct (Z.leb_spec (ceilMinute we - floorMinute ws) 0) as [HD|HD].
  - by rewrite uptimeForWindow_nonpositive_span.
  - by apply uptimeForWindow_nothing_down.
Qed.

(** A segment over the whole of a window leaves no uptime. *)
Lemma uptimeForWindow_fully_down (ws we : Z) (severity : string) :
  (ws < we)%Z -> uptimeForWindow [seg ws we severity] ws we == 0.
Proof.
  intros Hlt.
  assert (0 < ceilMinute we - floorMinute ws)%Z as HD.
  { pose proof (floor_le_ceil ws). pose proof (ceilMinute_mono ws we ltac:(lia)).
    destruct (decide (ceilMinute we = floorMinute ws)) as [Heq|]; [|lia].
    exfalso. unfold floorMinute, ceilMinute in *.
    pose proof (Z.div_mod ws 60000 ltac:(done)).
    pose proof (Z.div_mod (- we) 60000 ltac:(done)).
    pose proof (Z.mod_pos_bound ws 60000 ltac:(done)).
    pose proof (Z.mod_pos_bound (- we) 60000 ltac:(done)).
    lia. }
  apply uptimeForWindow_all_down; [done|].
  rewrite mergedDowntimeBuckets_counts, filter_all_id.
  - rewrite length_seqZ. lia.
  - intros b Hb. apply elem_of_seqZ in Hb. apply Exists_cons_hd.
    unfold touches. simpl. rewrite Z.max_id, Z.min_id. lia.
Qed.

(** ** Daily bands *)

Lemma uptimeBandForPercent_bands (p : Q) :
  (98 <= p -> uptimeBandForPercent p = "operational")
  /\ (95 <= p -> p < 98 -> uptimeBandForPercent p = "degraded")
  /\ (p < 95 -> uptimeBandForPercent p = "major")
  /\ uptimeBandForPercent p <> "critical".
Proof.
  unfold uptimeBandForPercent.
  destruct (Qle_bool 98 p) eqn:H98; [|destruct (Qle_bool 95 p) eqn:H95].
  - apply Qle_bool_iff in H98. split_and!; try done.
    + intros _ Hlt. by apply Qlt_not_le in Hlt.
    + intros Hlt. apply Qlt_not_le in Hlt. destruct Hlt.
      apply Qle_trans with 98; [by vm_compute|done].
  - apply Qle_bool_iff in H95.
    assert (~ 98 <= p) as Hn by (rewrite <- Qle_bool_iff; congruence).
    split_and!; try done.
    intros Hlt. by apply Qlt_not_le in Hlt.
  - assert (~ 95 <= p) as Hn by (rewrite <- Qle_bool_iff; congruence).
    split_and!; try done.
    intros H98'. destruct Hn. apply Qle_trans with 98; [by vm_compute|done].
Qed.

Lemma severityForUptimePercent_bands (p : Q) :
  (99.95 <= p -> Legacy.severityForUptimePercent p = "operational")
  /\ (99.0 <= p -> p < 99.95 -> Legacy.severityForUptimePercent p = "degraded")
  /\ (97.0 <= p -> p < 99.0 -> Legacy.severityForUptimePercent p = "major")
  /\ (p < 97.0 -> Legacy.severityForUptimePercent p = "critical").
Proof.
  unfold Legacy.severityForUptimePercent.
  destruct (Qle_bool 99.95 p) eqn:Ha; [|destruct (Qle_bool 99.0 p) eqn:Hb;
    [|destruct (Qle_bool 97.0 p) eqn:Hc]].
  all: repeat match goal with
       | H : Qle_bool _ _ = true |- _ => apply Qle_bool_iff in H
       | H : Qle_bool ?a ?b = false |- _ =>
           assert (b < a) by (apply Qnot_le_lt; rewrite <- Qle_bool_iff; congruence);
           clear H
       end.
  all: split_and!; intros; try done.
  all: exfalso;
    repeat match goal with
    | H : _ <= _ |- _ => unfold Qle in H; simpl in H
    | H : _ < _ |- _ => unfold Qlt in H; simpl in H
    end; lia.
Qed.

(** C9, as the code has it.  The band of each of the thirty daily rows is
    read off its uptime percentage [p] with three bands: operational when
    [p >= 98], degraded when [95 <= p < 98], major below 95, and never
    critical.  The four bands at 99.95, 99.0 and 97.0 are those of
    [severityForUptimePercent] in the earlier revision, which colours the
    monthly rows. *)
Theorem daily_band_thresholds segments completedDayBoundary :
  Forall (fun row =>
            let p := DayRow.uptime_percent row in
            (98 <= p -> DayRow.uptime_band row = "operational")
            /\ (95 <= p -> p < 98 -> DayRow.uptime_band row = "degraded")
            /\ (p < 95 -> DayRow.uptime_band row = "major")
            /\ DayRow.uptime_band row <> "critical")
         (recentDays segments completedDayBoundary)
  /\ length (recentDays segments completedDayBoundary) = 30%nat
  /\ (forall p : Q,
         (99.95 <= p -> Legacy.severityForUptimePercent p = "operational")
         /\ (99.0 <= p -> p < 99.95 -> Legacy.severityForUptimePercent p = "degraded")
         /\ (97.0 <= p -> p < 99.0 -> Legacy.severityForUptimePercent p = "major")
         /\ (p < 97.0 -> Legacy.severityForUptimePercent p = "critical")).
Proof.
  split_and!.
  - unfold recentDays. apply Forall_forall. intros row Hrow.
    apply list_elem_of_In, in_map_iff in Hrow as (offset & <- & _).
    simpl. apply uptimeBandForPercent_bands.
  - unfold recentDays. by rewrite length_map, length_seqZ.
  - apply severityForUptimePercent_bands.
Qed.

Local Close Scope Q_scope.

(** * Further properties *)

(** ** Ids and matching *)

(** X1.  The id [createIncidentId] returns is never one of the existing
    ids.  It is the base id inc-<day>-<key> when that is free; otherwise it
    is the base followed by the smallest counter from 2 on whose id is
    free, every smaller counter being taken. *)
Theorem createIncidentId_smallest_free (date : Z) (subjectKey : string)
    (existingIds : gset string) :
  let base := "inc-" +:+ JsDate.isoDay date +:+ "-" +:+ subjectKey in
  let id := createIncidentId date subjectKey existingIds in
  (id ∉ existingIds)
  /\ (base ∉ existingIds -> id = base)
  /\ (base ∈ existingIds ->
      exists k, 2 <= k <= 2 + Z.of_nat (size existingIds)
                /\ id = candidateId base k
                /\ forall j, 2 <= j < k -> candidateId base j ∈ existingIds).
Proof.
  simpl. split_and!.
  - apply createIncidentId_fresh.
  - intros Hfree. unfold createIncidentId. by rewrite decide_False.
  - intros Htaken. unfold createIncidentId. rewrite decide_True by done.
    destruct (firstFreeCounter_range existingIds
                ("inc-" +:+ JsDate.isoDay date +:+ "-" +:+ subjectKey)
                (size existingIds) 2) as (Hrange & Hbelow & _).
    eexists. split_and!; [apply Hrange|apply Hrange|reflexivity|exact Hbelow].
Qed.

Lemma startedDesc_StronglySorted (l : list (nat * Incident.t)) :
  StronglySorted (fun a b => Incident.started_at b.2 <= Incident.started_at a.2)
                 (sortBy (fun a b => startedDesc a.2 b.2) l).
Proof.
  apply Sorted_StronglySorted; [intros a b c; lia|].
  eapply Sorted_weaken; [|apply sortBy_Sorted].
  - intros a b. unfold startedDesc. by rewrite Z.leb_le.
  - intros a b. unfold startedDesc. rewrite !Z.leb_le. lia.
Qed.

(** X2.  [findMatchingIncident] returns nothing exactly when no incident of
    the shard has the key or the normalized title of the event.  Otherwise
    it returns an incident of the shard that has one of them: the most
    recently started of those that are not resolved when there is one, and
    the most recently started of all of them when every one is resolved. *)
Theorem findMatchingIncident_most_recent (shard : Shard.t) (event : Event.t) :
  match findMatchingIncident shard event with
  | None => forall y, y ∈ Shard.items shard -> isCandidate event y = false
  | Some (i, x) =>
      Shard.items shard !! i = Some x
      /\ isCandidate event x = true
      /\ forall y, y ∈ Shard.items shard -> isCandidate event y = true ->
           (isOpen y = true ->
            isOpen x = true /\ Incident.started_at y <= Incident.started_at x)
           /\ (isOpen x = false -> Incident.started_at y <= Incident.started_at x)
  end.
Proof.
  destruct (findMatchingIncident shard event) as [[i x]|] eqn:Hf.
  2: { intros y. by apply findMatchingIncident_None. }
  pose proof (findMatchingIncident_Some _ _ _ _ Hf) as [Hi Hc].
  split_and!; [done|done|]. intros y Hy Hcy.
  apply list_elem_of_lookup in Hy as [j Hj].
  assert ((j, y) ∈ candidatesOf (Shard.items shard) event) as Hin
    by by apply candidatesOf_elem_of.
  pose proof (startedDesc_StronglySorted
                (filter (fun p => isCandidate event p.2 = true)
                        (imap pair (Shard.items shard)))) as Hsorted.
  fold (candidatesOf (Shard.items shard) event) in Hsorted.
  unfold findMatchingIncident in Hf.
  destruct (List.find _ _) as [p|] eqn:Hfind.
  - simplify_eq.
    apply find_Some_split in Hfind as (pre & post & Hsplit & Hpre & Hopen).
    simpl in Hopen. rewrite Hsplit in Hin, Hsorted. split.
    + intros Hyo. split; [done|].
      apply elem_of_app in Hin as [Hin|Hin].
      { rewrite Forall_forall in Hpre. apply Hpre in Hin. simpl in Hin. congruence. }
      apply elem_of_cons in Hin as [Heq|Hin]; [by simplify_eq|].
      apply StronglySorted_app_1_r, StronglySorted_inv in Hsorted as [_ Hall].
      rewrite Forall_forall in Hall. by apply (Hall (j, y)).
    + intros Hx. congruence.
  - pose proof (find_none _ _ Hfind) as Hclosed.
    destruct (candidatesOf (Shard.items shard) event) as [|q rest] eqn:Hcands;
      simplify_eq/=.
    split.
    + intros Hyo. apply list_elem_of_In, Hclosed in Hin. simpl in Hin. congruence.
    + intros _. apply elem_of_cons in Hin as [Heq|Hin]; [by simplify_eq|].
      apply StronglySorted_inv in Hsorted as [_ Hall].
      rewrite Forall_forall in Hall. by apply (Hall (j, y)).
Qed.

(** ** Text *)

Section TextFacts.
Import Text.

Lemma chars_str (l : list ascii) : chars (str l) = l.
Proof. apply list_ascii_of_string_of_list_ascii. Qed.

Lemma str_chars (s : string) : str (chars s) = s.
Proof. apply string_of_list_ascii_of_string. Qed.

Lemma str_nil_inv (l : list ascii) : str l = "" -> l = [].
Proof. intros H. by destruct l. Qed.

Lemma chars_nil_inv (s : string) : chars s = [] -> s = "".
Proof. intros H. by destruct s. Qed.

Lemma dropWhile_drop {A} (p : A -> bool) (l : list A) :
  exists k, dropWhile p l = drop k l.
Proof.
  induction l as [|x r [k IH]]; [by exists 0%nat|]. simpl.
  destruct (p x); [by exists (S k)|by exists 0%nat].
Qed.

Lemma dropWhile_head {A} (p : A -> bool) (l : list A) (x : A) :
  head (dropWhile p l) = Some x -> p x = false.
Proof.
  induction l as [|y r IH]; simpl; [done|].
  destruct (p y) eqn:Hy; [done|]. simpl. by intros [= <-].
Qed.

(** Dropping at the end what [p] accepts leaves a prefix that does not end
    with it. *)
Lemma dropWhile_end {A} (p : A -> bool) (l : list A) :
  exists k, rev (dropWhile p (rev l)) = take k l
            /\ forall x, last (rev (dropWhile p (rev l))) = Some x -> p x = false.
Proof.
  destruct (dropWhile_drop p (rev l)) as [k Hk].
  exists (length l - k)%nat. split.
  - rewrite Hk. by rewrite skipn_rev, rev_involutive.
  - intros x Hx. apply (dropWhile_head p (rev l)).
    destruct (dropWhile p (rev l)) as [|y r]; [done|].
    simpl in Hx. by rewrite last_snoc in Hx.
Qed.

Lemma noRepeat_take (c : ascii) (n : nat) (l : list ascii) :
  noRepeat c l -> noRepeat c (take n l).
Proof.
  intros Hl i Hi Hi'.
  apply lookup_take_Some in Hi as [Hi _]. apply lookup_take_Some in Hi' as [Hi' _].
  by apply (Hl i).
Qed.

Lemma noRepeat_drop (c : ascii) (n : nat) (l : list ascii) :
  noRepeat c l -> noRepeat c (drop n l).
Proof.
  intros Hl i Hi Hi'. rewrite lookup_drop in Hi, Hi'.
  apply (Hl (n + i)%nat Hi). by rewrite <- Nat.add_succ_r.
Qed.

Lemma isSlugChar_not_dash (c : ascii) : isSlugChar c = true -> c <> "-"%char.
Proof. intros H ->. by vm_compute in H. Qed.

Lemma dashRuns_shape (inRun : bool) (l : list ascii) :
  Forall (fun c => isSlugChar c = true \/ c = "-"%char) (dashRuns inRun l)
  /\ noRepeat "-" (dashRuns inRun l)
  /\ (inRun = true -> head (dashRuns inRun l) <> Some "-"%char).
Proof.
  revert inRun. induction l as [|c r IH]; intros inRun.
  - split_and!; [constructor|by intros i Hi|done].
  - simpl. destruct (isSlugChar c) eqn:Hc.
    + destruct (IH false) as (Hall & Hsingle & _). split_and!.
      * constructor; [by left|done].
      * intros [|i] Hi Hi'; simpl in *.
        -- injection Hi as ->. by vm_compute in Hc.
        -- by apply (Hsingle i).
      * intros _ [= ->]. by apply isSlugChar_not_dash in Hc.
    + destruct (IH true) as (Hall & Hsingle & Hhead). destruct inRun.
      * split_and!; [done|done|]. intros _. by apply Hhead.
      * split_and!; [constructor; [by right|done]| |done].
        intros [|i] Hi Hi'; simpl in *.
        -- apply Hhead; [done|]. by destruct (dashRuns true r).
        -- by apply (Hsingle i).
Qed.

End TextFacts.

Section SlugFacts.
Import Text.

(** X3.  A slug is never empty and has at most 60 characters, each a lower
    case letter, a digit or a dash; it does not start with a dash and has
    no two dashes in a row.  It ends with a dash only when it was cut at 60
    characters. *)
Theorem slugify_shape (text : string) :
  let slug := chars (slugify text) in
  slug <> []
  /\ (length slug <= 60)%nat
  /\ Forall (fun c => isSlugChar c = true \/ c = "-"%char) slug
  /\ head slug <> Some "-"%char
  /\ noRepeat "-" slug
  /\ (last slug = Some "-"%char -> length slug = 60%nat).
Proof.
  unfold slugify.
  set (dashed := dashRuns false (map toLowerChar (chars text))).
  destruct (dashRuns_shape false (map toLowerChar (chars text)))
    as (Hall & Hsingle & _). fold dashed in Hall, Hsingle.
  destruct (dropWhile_drop isDash dashed) as [k1 Hk1].
  destruct (dropWhile_end isDash (dropWhile isDash dashed)) as (k2 & Hk2 & Hlast).
  set (stripped := rev (dropWhile isDash (rev (dropWhile isDash dashed)))) in *.
  cbv zeta. case_decide as Hempty.
  { split_and!.
    - done.
    - vm_compute. lia.
    - repeat constructor; by vm_compute.
    - done.
    - intros i Hi Hi'. do 12 (destruct i as [|i]; [by vm_compute in Hi, Hi'|]).
      by vm_compute in Hi.
    - by vm_compute. }
  rewrite chars_str. split_and!.
  - intros Hnil. apply Hempty. by rewrite Hnil.
  - rewrite length_take. lia.
  - apply Forall_take. rewrite Hk2. apply Forall_take. rewrite Hk1.
    by apply Forall_drop.
  - intros Hhead.
    assert (head (dropWhile isDash dashed) = Some "-"%char) as Hd.
    { rewrite Hk2 in Hhead. rewrite head_lookup in Hhead |- *.
      apply lookup_take_Some in Hhead as [Hhead _].
      by apply lookup_take_Some in Hhead as [Hhead _]. }
    by apply dropWhile_head in Hd.
  - apply noRepeat_take. rewrite Hk2. apply noRepeat_take. rewrite Hk1.
    by apply noRepeat_drop.
  - intros Hl.
    destruct (decide (length stripped <= 60)%nat) as [Hshort|Hlong].
    + rewrite take_ge in Hl by done. by apply Hlast in Hl.
    + rewrite length_take. lia.
Qed.

End SlugFacts.

(** ** The normalized subject *)

Section SubjectFacts.
Import Text.

Lemma isSpace_space : isSpace " " = true.
Proof. reflexivity. Qed.

Lemma collapseSpaces_shape (inRun : bool) (l : list ascii) :
  Forall (fun c => isWordChar c || isSpace c || Ascii.eqb c "-" = true) l ->
  Forall (fun c => isWordChar c = true \/ c = "-"%char \/ c = " "%char)
         (collapseSpaces inRun l)
  /\ Forall (fun c => isSpace c = true -> c = " "%char) (collapseSpaces inRun l)
  /\ noRepeat " " (collapseSpaces inRun l)
  /\ (inRun = true -> head (collapseSpaces inRun l) <> Some " "%char).
Proof.
  intros Hall. revert inRun. induction Hall as [|c r Hc _ IH]; intros inRun.
  { simpl. split_and!; [constructor|constructor|by intros i Hi|done]. }
  simpl. destruct (isSpace c) eqn:Hsp.
  - destruct (IH true) as (Hok & Hsp' & Hrep & Hhead). destruct inRun.
    + split_and!; [done|done|done|]. intros _. by apply Hhead.
    + split_and!; [constructor; [by right; right|done]|by constructor|
                   |done].
      intros [|i] Hi Hi'; simpl in *.
      * apply Hhead; [done|]. by destruct (collapseSpaces true r).
      * by apply (Hrep i).
  - destruct (IH false) as (Hok & Hsp' & Hrep & _).
    assert (c <> " "%char) as Hne by (intros ->; by rewrite isSpace_space in Hsp).
    split_and!.
    + constructor; [|done]. rewrite orb_false_r in Hc.
      apply orb_true_iff in Hc as [Hw|Hd]; [by left|].
      right; left. by apply Ascii.eqb_eq.
    + constructor; [|done]. intros Hs. congruence.
    + intros [|i] Hi Hi'; simpl in *.
      * by simplify_eq.
      * by apply (Hrep i).
    + intros _ [= ?]. done.
Qed.

(** X4.  A normalized subject holds only letters, digits, underscores,
    dashes and single spaces, and neither starts nor ends with a space. *)
Theorem normalizeSubject_shape (subject : string) :
  let normalized := chars (normalizeSubject subject) in
  Forall (fun c => isWordChar c = true \/ c = "-"%char \/ c = " "%char) normalized
  /\ noRepeat " " normalized
  /\ head normalized <> Some " "%char
  /\ last normalized <> Some " "%char.
Proof.
  unfold normalizeSubject. cbv zeta. rewrite chars_str.
  match goal with |- context [collapseSpaces false ?l] => set (cleaned := l) end.
  assert (Forall (fun c => isWordChar c || isSpace c || Ascii.eqb c "-" = true) cleaned)
    as Hcleaned.
  { unfold cleaned. apply Forall_forall. intros c Hc.
    apply list_elem_of_In, in_map_iff in Hc as (x & <- & _).
    destruct (isWordChar x || isSpace x || Ascii.eqb x "-") eqn:Hx; [done|reflexivity]. }
  destruct (collapseSpaces_shape false cleaned Hcleaned) as (Hok & Hsp & Hrep & _).
  set (collapsed := collapseSpaces false cleaned) in *.
  unfold trimChars.
  destruct (dropWhile_drop isSpace collapsed) as [k1 Hk1].
  destruct (dropWhile_end isSpace (dropWhile isSpace collapsed)) as (k2 & Hk2 & Hlast).
  rewrite Hk2. split_and!.
  - apply Forall_take. rewrite Hk1. by apply Forall_drop.
  - apply noRepeat_take. rewrite Hk1. by apply noRepeat_drop.
  - intros Hhead. rewrite head_lookup in Hhead.
    apply lookup_take_Some in Hhead as [Hhead _].
    rewrite <- head_lookup in Hhead. by apply dropWhile_head in Hhead.
  - rewrite <- Hk2. intros Hl. by apply Hlast in Hl.
Qed.

End SubjectFacts.

Section EventFacts.
Import Text.

Lemma orElse_nonempty (a b : string) : b <> "" -> orElse a b <> "".
Proof. intros Hb. unfold orElse. by case_decide. Qed.

Lemma capitalizeFirst_nonempty (s : string) : s <> "" -> capitalizeFirst s <> "".
Proof.
  intros Hs. unfold capitalizeFirst.
  destruct (chars s) as [|c r] eqn:Hc; [by apply chars_nil_inv in Hc|done].
Qed.

Lemma summarizeBody_bounds (text : string) :
  summarizeBody text <> "" /\ (length (chars (summarizeBody text)) <= 300)%nat.
Proof.
  unfold summarizeBody.
  destruct (trimChars (collapseSpaces false (chars text))) as [|c r]; [split; [done|]|].
  - vm_compute. lia.
  - split; [done|]. rewrite chars_str, length_take. lia.
Qed.

Lemma inferSeverityAndStatus_cases (subject bodyText : string) :
  let info := inferSeverityAndStatus subject bodyText in
  (si_severity info, si_status info, si_updateState info)
    ∈ [("minor", "resolved", "operational");
       ("critical", "investigating", "critical");
       ("major", "investigating", "major");
       ("minor", "investigating", "degraded")].
Proof.
  unfold inferSeverityAndStatus. cbv zeta.
  repeat match goal with |- context [hasWord ?ws ?h] => destruct (hasWord ws h) end;
    simpl; apply (bool_decide_unpack _); by vm_compute.
Qed.

Lemma inferAffectedSegments_cases (subject bodyText : string) :
  inferAffectedSegments subject bodyText
    ∈ [["System-wide"]; ["Northbound"]; ["Southbound"];
       ["Northbound"; "Southbound"]; ["Southbound"; "Northbound"]].
Proof.
  unfold inferAffectedSegments. cbv zeta.
  repeat match goal with |- context [includes ?h ?n] => destruct (includes h n) end;
    apply (bool_decide_unpack _); by vm_compute.
Qed.

Lemma buildParsedEvent_eventShape (now : Z) (message : Message.t) :
  eventShape (buildParsedEvent now message).
Proof.
  split_and!; simpl.
  - apply inferSeverityAndStatus_cases.
  - apply inferAffectedSegments_cases.
  - by apply orElse_nonempty.
  - apply slugify_nonempty.
  - apply capitalizeFirst_nonempty. by apply orElse_nonempty.
  - apply summarizeBody_bounds.
  - apply orElse_nonempty. by apply orElse_nonempty.
Qed.

(** X5.  Whatever the message, the event the normalizer builds has one of
    four combinations of severity, status and update state, one of five
    lists of affected segments, none with a repetition, and a subject, a
    key, a title, a summary and an update message that are not empty; the
    summary has at most 300 characters, and the message id and the body are
    those of the message. *)
Theorem buildParsedEvent_shape (now : Z) (message : Message.t) :
  let event := buildParsedEvent now message in
  eventShape event
  /\ NoDup (Event.affectedSegments event)
  /\ (length (chars (Event.summary event)) <= 300)%nat
  /\ Event.messageId event = Message.messageId message
  /\ Event.bodyText event = Message.bodyText message.
Proof.
  simpl. split_and!; simpl.
  - apply buildParsedEvent_eventShape.
  - pose proof (inferAffectedSegments_cases
                  (orElse (Message.subject message) "(No subject)")
                  (Message.bodyText message)) as Hcases.
    repeat (apply elem_of_cons in Hcases as [->|Hcases];
            [apply (bool_decide_unpack _); by vm_compute|]).
    by apply elem_of_nil in Hcases.
  - apply summarizeBody_bounds.
  - done.
  - done.
Qed.

End EventFacts.

(** ** The shape of stored incidents *)

Lemma eventShape_status (event : Event.t) :
  eventShape event ->
  (Event.incidentStatus event = "resolved" \/ Event.incidentStatus event = "investigating")
  /\ Event.severity event ∈ ["minor"; "major"; "critical"].
Proof.
  intros (Hcases & _).
  repeat (apply elem_of_cons in Hcases as [Heq|Hcases];
          [injection Heq as -> -> _; split; [tauto|apply (bool_decide_unpack _); by vm_compute]|]).
  by apply elem_of_nil in Hcases.
Qed.

Lemma eventShape_segments (event : Event.t) :
  eventShape event ->
  Event.affectedSegments event <> []
  /\ NoDup (Event.affectedSegments event)
  /\ Event.affectedSegments event ⊆ ["Northbound"; "Southbound"; "System-wide"].
Proof.
  intros (_ & Hcases & _).
  repeat (apply elem_of_cons in Hcases as [->|Hcases];
          [split_and!; [done|apply (bool_decide_unpack _); by vm_compute|
                        apply (bool_decide_unpack _); by vm_compute]|]).
  by apply elem_of_nil in Hcases.
Qed.

Lemma recordUpdate_nonempty us event timestamp : recordUpdate us event timestamp <> [].
Proof.
  destruct (recordUpdate_has us event timestamp) as (u & Hu & _).
  intros Hnil. rewrite Hnil in Hu. by apply elem_of_nil in Hu.
Qed.

Lemma createdBy_shape items event timestamp :
  eventShape event -> incidentShape (createdBy items event timestamp).
Proof.
  intros Hev.
  destruct (eventShape_status event Hev) as [Hstatus Hsev].
  destruct (eventShape_segments event Hev) as (Hne & Hnd & Hsub).
  destruct Hev as (_ & _ & _ & Hkey & Htitle & Hsummary & _).
  unfold incidentShape, createdBy. simpl. split_and!; try done.
  - destruct Hstatus as [->| ->]; apply (bool_decide_unpack _); by vm_compute.
  - case_decide; split; try done; by intros [? ?].
Qed.

Lemma touchedBy_shape incident event timestamp :
  eventShape event -> incidentShape incident ->
  incidentShape (touchedBy incident event timestamp).
Proof.
  intros Hev (Hst & Hres & Hsev & Htitle & Hsum & Hkey & Hne & Hnd & Hsub & Hup).
  destruct (eventShape_status event Hev) as [Hstatus Hesev].
  destruct (eventShape_segments event Hev) as (Hene & Hend & Hesub).
  destruct Hev as (_ & _ & _ & _ & Hetitle & Hesummary & _).
  unfold incidentShape, touchedBy. simpl. split_and!.
  - destruct Hstatus as [Hs|Hs].
    + rewrite (bool_decide_eq_true_2 _ Hs). apply (bool_decide_unpack _); by vm_compute.
    + rewrite bool_decide_eq_false_2 by (rewrite Hs; done).
      case_bool_decide; [apply (bool_decide_unpack _); by vm_compute|].
      rewrite Hs. apply (bool_decide_unpack _); by vm_compute.
  - destruct Hstatus as [Hs|Hs].
    + rewrite (bool_decide_eq_true_2 _ Hs). split; [by eexists|done].
    + rewrite bool_decide_eq_false_2 by (rewrite Hs; done).
      case_bool_decide as Hwas.
      * split; [done|]. by intros [? ?].
      * rewrite Hs. unfold orElse. rewrite decide_False by done. split; [done|].
        intros Hsome. by apply Hres in Hsome.
  - by destruct (rankGt _ _).
  - unfold orElse. by case_decide.
  - unfold orElse. by case_decide.
  - done.
  - destruct (Incident.affected_segments incident) as [|s rest] eqn:Hsegs; [done|].
    intros Hnil.
    assert (s ∈ arrayFromSet ((s :: rest) ++ Event.affectedSegments event)) as Hin.
    { apply arrayFromSet_elem_of. left. }
    rewrite Hnil in Hin. by apply elem_of_nil in Hin.
  - apply arrayFromSet_NoDup.
  - intros s Hs. apply arrayFromSet_elem_of, elem_of_app in Hs as [Hs|Hs]; auto.
  - apply recordUpdate_nonempty.
Qed.

Lemma incidentShape_upsert shard event shard' found :
  eventShape event ->
  Forall incidentShape (Shard.items shard) ->
  upsertIncidentInShard shard event = Ok (shard', found) ->
  Forall incidentShape (Shard.items shard').
Proof.
  intros Hev Hall Hup.
  destruct (Event.receivedAt event) as [|timestamp] eqn:Ht.
  { by rewrite upsert_invalid_date in Hup. }
  destruct (findMatchingIncident shard event) as [[idx incident]|] eqn:Hf.
  - rewrite (upsert_matched _ _ _ _ _ Hf Ht) in Hup. simplify_eq/=.
    apply findMatchingIncident_Some in Hf as [Hidx _].
    apply Forall_insert; [done|]. apply touchedBy_shape; [done|].
    rewrite Forall_forall in Hall. apply Hall, list_elem_of_lookup. eauto.
  - rewrite (upsert_created _ _ _ Hf Ht) in Hup. simplify_eq/=.
    apply Forall_app. split; [done|]. constructor; [|done].
    by apply createdBy_shape.
Qed.

Lemma recordUpdate_once us event timestamp :
  NoDup (Update.source_message_id <$> us) ->
  NoDup (Update.source_message_id <$> recordUpdate us event timestamp).
Proof.
  intros Hnd. destruct (alreadyHasMessage us event) eqn:Hdup.
  - by rewrite recordUpdate_duplicate.
  - destruct (recordUpdate_appended us event timestamp Hdup) as [Hperm _].
    rewrite Hperm, fmap_app. apply NoDup_app. split_and!; [done| |apply NoDup_singleton].
    intros id Hid Hid'. apply list_elem_of_singleton in Hid'. simpl in Hid'. subst id.
    apply list_elem_of_fmap in Hid as (u & Hu & Hin).
    rewrite alreadyHasMessage_false in Hdup. by apply (Hdup u Hin).
Qed.

Lemma messagesOnce_upsert shard event shard' found :
  messagesOnce (Shard.items shard) ->
  upsertIncidentInShard shard event = Ok (shard', found) ->
  messagesOnce (Shard.items shard').
Proof.
  unfold messagesOnce. intros Hall Hup.
  destruct (Event.receivedAt event) as [|timestamp] eqn:Ht.
  { by rewrite upsert_invalid_date in Hup. }
  destruct (findMatchingIncident shard event) as [[idx incident]|] eqn:Hf.
  - rewrite (upsert_matched _ _ _ _ _ Hf Ht) in Hup. simplify_eq/=.
    apply findMatchingIncident_Some in Hf as [Hidx _].
    apply Forall_insert; [done|]. simpl. apply recordUpdate_once.
    rewrite Forall_forall in Hall. apply Hall, list_elem_of_lookup. eauto.
  - rewrite (upsert_created _ _ _ Hf Ht) in Hup. simplify_eq/=.
    apply Forall_app. split; [done|]. constructor; [|done]. simpl.
    apply NoDup_singleton.
Qed.

Lemma sortBy_startedDesc_Sorted (items : list Incident.t) :
  mostRecentFirst (sortBy startedDesc items).
Proof.
  eapply Sorted_weaken; [|apply sortBy_Sorted].
  - intros a b. unfold startedDesc. by rewrite Z.leb_le.
  - intros a b. unfold startedDesc. rewrite !Z.leb_le. lia.
Qed.

Section RepoShape.
Variable tzOffsetMs : Z -> Z.

Section InvariantFor.
Variable E : Event.t -> Prop.
Variable P : list Incident.t -> Prop.
Hypothesis P_nil : P [].
Hypothesis P_perm : forall l l', l ≡ₚ l' -> P l -> P l'.
Hypothesis P_upsert : forall shard event shard' found,
  E event ->
  P (Shard.items shard) ->
  upsertIncidentInShard shard event = Ok (shard', found) ->
  P (Shard.items shard').

Lemma everyShard_applyEventToRepo_for store event :
  E event ->
  everyShard P store ->
  everyShard P (applyEventToRepo tzOffsetMs store event).1.
Proof.
  intros Hev Hinv. unfold applyEventToRepo.
  destruct (Event.receivedAt event) as [|eventDate] eqn:Ht; [done|].
  match goal with |- context [upsertIncidentInShard ?sh event] =>
    destruct (upsertIncidentInShard sh event) as [[shard' [idx incident]]|e] eqn:Hup
  end; simpl; [|done].
  intros path shard Hlook. simpl in Hlook.
  apply lookup_insert_Some in Hlook as [[_ <-]|[_ Hlook]]; [|by eapply Hinv].
  simpl. eapply P_perm; [symmetry; apply sortBy_Permutation|].
  eapply P_upsert; [done| |done]. simpl.
  unfold loadShard. simpl.
  destruct (Store.shards store !! _) as [old|] eqn:Hold; simpl.
  - by eapply Hinv.
  - apply P_nil.
Qed.

Lemma everyShard_applyEvents_for events store :
  Forall E events ->
  everyShard P store ->
  everyShard P (applyEvents tzOffsetMs store events).
Proof.
  revert store. induction events as [|event rest IH]; intros store Hall Hinv; [done|].
  apply Forall_cons in Hall as [Hev Hall].
  simpl. pose proof (everyShard_applyEventToRepo_for store event Hev Hinv) as Hstep.
  destruct (applyEventToRepo tzOffsetMs store event) as [store' [incident|e]]; simpl in *.
  - by apply IH.
  - done.
Qed.
End InvariantFor.

(** X6.  After any run of messages from the empty repository, every stored
    incident is investigating or resolved, has a resolution time exactly
    when it is resolved, has severity minor, major or critical, has a
    title, a summary and a key that are not empty, has at least one
    affected segment, each of Northbound, Southbound and System-wide at
    most once, and has at least one update. *)
Theorem ingested_incidents_shape (messages : list (Z * Message.t)) :
  everyShard (Forall incidentShape)
    (applyEvents tzOffsetMs Store.empty
                 ((fun m => buildParsedEvent m.1 m.2) <$> messages)).
Proof.
  apply (everyShard_applyEvents_for eventShape).
  - constructor.
  - intros l l' Hperm Hl. by rewrite <- Hperm.
  - intros shard event shard' found. apply incidentShape_upsert.
  - apply Forall_fmap, Forall_forall. intros [now message] _.
    apply buildParsedEvent_eventShape.
  - apply everyShard_empty.
Qed.

Lemma mostRecentFirst_applyEventToRepo store event :
  everyShard mostRecentFirst store ->
  everyShard mostRecentFirst (applyEventToRepo tzOffsetMs store event).1.
Proof.
  intros Hinv. unfold applyEventToRepo.
  destruct (Event.receivedAt event) as [|eventDate] eqn:Ht; [done|].
  match goal with |- context [upsertIncidentInShard ?sh event] =>
    destruct (upsertIncidentInShard sh event) as [[shard' [idx incident]]|e] eqn:Hup
  end; simpl; [|done].
  intros path shard Hlook. simpl in Hlook.
  apply lookup_insert_Some in Hlook as [[_ <-]|[_ Hlook]]; [|by eapply Hinv].
  apply sortBy_startedDesc_Sorted.
Qed.

Lemma mostRecentFirst_applyEvents events store :
  everyShard mostRecentFirst store ->
  everyShard mostRecentFirst (applyEvents tzOffsetMs store events).
Proof.
  revert store. induction events as [|event rest IH]; intros store Hinv; [done|].
  simpl. pose proof (mostRecentFirst_applyEventToRepo store event Hinv) as Hstep.
  destruct (applyEventToRepo tzOffsetMs store event) as [store' [incident|e]]; simpl in *.
  - by apply IH.
  - done.
Qed.

(** X7.  After any run of events from the empty repository, the incidents
    of a shard have distinct ids, no incident records the same message
    twice, and every shard is stored most recent first. *)
Theorem stored_shards_ordered (events : list Event.t) :
  everyShard (fun items => idsUnique items /\ messagesOnce items /\ mostRecentFirst items)
             (applyEvents tzOffsetMs Store.empty events).
Proof.
  intros path shard Hlook. split_and!.
  - by apply (shards_well_formed tzOffsetMs events path shard Hlook).
  - revert path shard Hlook.
    apply (everyShard_applyEvents tzOffsetMs messagesOnce); [constructor| | |].
    + intros l l' Hperm Hl. unfold messagesOnce. by rewrite <- Hperm.
    + apply messagesOnce_upsert.
    + by apply everyShard_empty.
  - revert path shard Hlook. apply mostRecentFirst_applyEvents.
    intros path shard H. simpl in H. by rewrite lookup_empty in H.
Qed.

End RepoShape.

(** ** Nothing is lost *)

Lemma continues_refl (incident : Incident.t) : continues incident incident.
Proof. by split_and!. Qed.

Lemma continues_touchedBy incident event timestamp :
  continues incident (touchedBy incident event timestamp).
Proof.
  split_and!; simpl; try done.
  - intros u. apply recordUpdate_keeps.
  - intros s Hs. apply arrayFromSet_elem_of, elem_of_app. by left.
Qed.

Lemma upsert_keeps shard event shard' found incident :
  upsertIncidentInShard shard event = Ok (shard', found) ->
  incident ∈ Shard.items shard ->
  (length (Shard.items shard) <= length (Shard.items shard'))%nat
  /\ exists incident', incident' ∈ Shard.items shard' /\ continues incident incident'.
Proof.
  intros Hup Hin.
  destruct (Event.receivedAt event) as [|timestamp] eqn:Ht.
  { by rewrite upsert_invalid_date in Hup. }
  destruct (findMatchingIncident shard event) as [[idx matched]|] eqn:Hf.
  - rewrite (upsert_matched _ _ _ _ _ Hf Ht) in Hup. simplify_eq/=.
    apply findMatchingIncident_Some in Hf as [Hidx _].
    pose proof (lookup_lt_Some _ _ _ Hidx) as Hlt.
    rewrite length_insert. split; [done|].
    apply list_elem_of_lookup in Hin as [j Hj].
    destruct (decide (j = idx)) as [->|Hne].
    + rewrite Hidx in Hj. simplify_eq.
      exists (touchedBy incident event timestamp). split.
      * apply list_elem_of_lookup. exists idx. by apply list_lookup_insert_eq.
      * apply continues_touchedBy.
    + exists incident. split; [|apply continues_refl].
      apply list_elem_of_lookup. exists j. by rewrite list_lookup_insert_ne.
  - rewrite (upsert_created _ _ _ Hf Ht) in Hup. simplify_eq/=.
    rewrite length_app. split; [lia|].
    exists incident. split; [|apply continues_refl].
    apply elem_of_app. by left.
Qed.

Lemma saveIncidentsIndex_elem_of (files : list string) (file : string) :
  file ∈ saveIncidentsIndex files <-> file ∈ files.
Proof.
  unfold saveIncidentsIndex.
  rewrite list_elem_of_In, <- in_rev, <- list_elem_of_In.
  by rewrite sortBy_elem_of, arrayFromSet_elem_of.
Qed.

Lemma saveIncidentsIndex_NoDup (files : list string) : NoDup (saveIncidentsIndex files).
Proof.
  unfold saveIncidentsIndex.
  apply NoDup_ListNoDup, List.NoDup_rev, NoDup_ListNoDup.
  rewrite sortBy_Permutation. apply arrayFromSet_NoDup.
Qed.

Section RepoKeeps.
Variable tzOffsetMs : Z -> Z.

Lemma applyEventToRepo_index store event file :
  file ∈ Store.indexFiles store ->
  file ∈ Store.indexFiles (applyEventToRepo tzOffsetMs store event).1.
Proof.
  intros Hin. unfold applyEventToRepo.
  destruct (Event.receivedAt event) as [|eventDate]; [done|].
  match goal with |- context [upsertIncidentInShard ?sh event] =>
    destruct (upsertIncidentInShard sh event) as [[shard' [idx incident]]|e]
  end; simpl.
  all: case_decide; [done|]; apply saveIncidentsIndex_elem_of, elem_of_app; by left.
Qed.

(** X8.  Applying an event loses nothing.  An incident that was stored is
    still stored in the same shard, with its id, key and start, all of its
    updates and all of its affected segments; the shard has not shrunk; a
    shard other than that of the month of the event, and every shard when
    the date of the event is unreadable, is left as it was; and the index
    still lists every file it listed. *)
Theorem repository_append_only store event path shard incident :
  Store.shards store !! path = Some shard ->
  incident ∈ Shard.items shard ->
  exists shard' incident',
    Store.shards (applyEventToRepo tzOffsetMs store event).1 !! path = Some shard'
    /\ (length (Shard.items shard) <= length (Shard.items shard'))%nat
    /\ incident' ∈ Shard.items shard'
    /\ continues incident incident'
    /\ (forall eventDate, Event.receivedAt event = IsoDate eventDate ->
                          path <> getShardRepoPathForDate tzOffsetMs eventDate ->
                          shard' = shard)
    /\ (Event.receivedAt event = NotADate -> shard' = shard)
    /\ (forall file, file ∈ Store.indexFiles store ->
                     file ∈ Store.indexFiles (applyEventToRepo tzOffsetMs store event).1).
Proof.
  intros Hlook Hin.
  pose proof (applyEventToRepo_index store event) as Hindex.
  unfold applyEventToRepo in *.
  destruct (Event.receivedAt event) as [|eventDate] eqn:Ht.
  { exists shard, incident. split_and!; try done; apply continues_refl. }
  match goal with |- context [upsertIncidentInShard ?sh event] =>
    destruct (upsertIncidentInShard sh event) as [[shard' [idx found]]|e] eqn:Hup
  end; simpl in *.
  2: { exists shard, incident. split_and!; try done; apply continues_refl. }
  destruct (decide (path = getShardRepoPathForDate tzOffsetMs eventDate)) as [->|Hne].
  - unfold loadShard in Hup. simpl in Hup. rewrite Hlook in Hup.
    destruct (upsert_keeps _ _ _ _ incident Hup Hin) as (Hlen & incident' & Hin' & Hcont).
    simpl in Hlen.
    exists (saveShard shard'), incident'. rewrite lookup_insert_eq.
    split_and!; try done.
    + simpl. by rewrite sortBy_length.
    + simpl. by apply sortBy_elem_of.
    + intros d [= <-] Hd. done.
  - exists shard, incident. rewrite lookup_insert_ne by done.
    split_and!; try done; apply continues_refl.
Qed.

(** ** The index *)

Lemma indexed_applyEventToRepo store event :
  NoDup (Store.indexFiles store) /\ indexed store ->
  NoDup (Store.indexFiles (applyEventToRepo tzOffsetMs store event).1)
  /\ indexed (applyEventToRepo tzOffsetMs store event).1.
Proof.
  intros [Hnd Hidx]. unfold applyEventToRepo.
  destruct (Event.receivedAt event) as [|eventDate]; [done|].
  set (path := getShardRepoPathForDate tzOffsetMs eventDate).
  assert (NoDup (if decide (path ∈ Store.indexFiles store) then Store.indexFiles store
                 else saveIncidentsIndex (Store.indexFiles store ++ [path]))) as Hnd'.
  { case_decide; [done|apply saveIncidentsIndex_NoDup]. }
  assert (forall file, file ∈ Store.indexFiles store \/ file = path ->
            file ∈ (if decide (path ∈ Store.indexFiles store) then Store.indexFiles store
                    else saveIncidentsIndex (Store.indexFiles store ++ [path]))) as Hin'.
  { intros file Hfile. case_decide.
    - by destruct Hfile as [?| ->].
    - apply saveIncidentsIndex_elem_of, elem_of_app.
      destruct Hfile as [?| ->]; [by left|right; by apply list_elem_of_singleton]. }
  match goal with |- context [upsertIncidentInShard ?sh event] =>
    destruct (upsertIncidentInShard sh event) as [[shard' [idx incident]]|e]
  end; simpl; (split; [done|]).
  - intros file Hfile. simpl in *. apply Hin'.
    apply lookup_insert_is_Some in Hfile as [<-|[_ Hfile]]; [by right|left; by apply Hidx].
  - intros file Hfile. simpl in *. apply Hin'. left. by apply Hidx.
Qed.

Lemma indexed_applyEvents events store :
  NoDup (Store.indexFiles store) /\ indexed store ->
  NoDup (Store.indexFiles (applyEvents tzOffsetMs store events))
  /\ indexed (applyEvents tzOffsetMs store events).
Proof.
  revert store. induction events as [|event rest IH]; intros store Hinv; [done|].
  simpl. pose proof (indexed_applyEventToRepo store event Hinv) as Hstep.
  destruct (applyEventToRepo tzOffsetMs store event) as [store' [incident|e]]; simpl in *.
  - by apply IH.
  - done.
Qed.

Lemma collectAllIncidents_elem_of store incident :
  incident ∈ collectAllIncidents store
  <-> exists path shard, path ∈ Store.indexFiles store
                         /\ Store.shards store !! path = Some shard
                         /\ incident ∈ Shard.items shard.
Proof.
  unfold collectAllIncidents.
  rewrite sortBy_elem_of, list_elem_of_In, in_concat. split.
  - intros (items & Hitems & Hin). apply in_map_iff in Hitems as (path & <- & Hpath).
    destruct (Store.shards store !! path) as [shard|] eqn:Hlook; [|done].
    exists path, shard. by rewrite !list_elem_of_In.
  - intros (path & shard & Hpath & Hlook & Hin). exists (Shard.items shard). split.
    + apply in_map_iff. exists path. rewrite Hlook. by rewrite <- list_elem_of_In.
    + by apply list_elem_of_In.
Qed.

(** X9.  After any run of events from the empty repository the index has
    no duplicate and lists the file of every shard, so [collectAllIncidents]
    returns exactly the incidents of the stored shards, most recent
    first. *)
Theorem collectAllIncidents_complete (events : list Event.t) :
  let store := applyEvents tzOffsetMs Store.empty events in
  NoDup (Store.indexFiles store)
  /\ (forall path, is_Some (Store.shards store !! path) -> path ∈ Store.indexFiles store)
  /\ (forall incident,
        incident ∈ collectAllIncidents store
        <-> exists path shard, Store.shards store !! path = Some shard
                               /\ incident ∈ Shard.items shard)
  /\ mostRecentFirst (collectAllIncidents store).
Proof.
  simpl.
  destruct (indexed_applyEvents events Store.empty) as [Hnd Hidx].
  { split; [constructor|]. intros path [shard H]. simpl in H. by rewrite lookup_empty in H. }
  split_and!; [done|done| |apply sortBy_startedDesc_Sorted].
  intros incident. rewrite collectAllIncidents_elem_of. split.
  - intros (path & shard & _ & Hlook & Hin). by exists path, shard.
  - intros (path & shard & Hlook & Hin). exists path, shard. split_and!; [|done|done].
    apply Hidx. by eexists.
Qed.

End RepoKeeps.

(** ** The status file *)

Lemma severityRank_values (severity : string) (rank : Z) :
  severityRank severity = RankNumber rank ->
  0 <= rank <= 3
  /\ (rank = 3 <-> severity = "critical")
  /\ (rank = 2 <-> severity = "major").
Proof.
  unfold severityRank. repeat case_decide; intros [= <-]; subst; split_and!;
    try lia; split; try done; try lia.
Qed.

Lemma bySeverityThenStart_true (a b : Incident.t) (ra rb : Z) :
  severityRank (Incident.severity a) = RankNumber ra ->
  severityRank (Incident.severity b) = RankNumber rb ->
  bySeverityThenStart a b = true -> rb <= ra.
Proof.
  unfold bySeverityThenStart. intros -> ->. simpl.
  case_decide; [rewrite Z.leb_le|]; lia.
Qed.

Lemma bySeverityThenStart_false (a b : Incident.t) (ra rb : Z) :
  severityRank (Incident.severity a) = RankNumber ra ->
  severityRank (Incident.severity b) = RankNumber rb ->
  bySeverityThenStart a b = false -> ra <= rb.
Proof.
  unfold bySeverityThenStart. intros -> ->. simpl.
  case_decide; [rewrite Z.leb_gt|]; lia.
Qed.

(** The sort puts an incident of the highest rank first. *)
Lemma bySeverityThenStart_head (l : list Incident.t) (top : Incident.t)
    (rest : list Incident.t) :
  Forall ranked l ->
  sortBy bySeverityThenStart l = top :: rest ->
  forall i, i ∈ l ->
    rankGt (severityRank (Incident.severity i))
           (severityRank (Incident.severity top)) = false.
Proof.
  revert top rest. induction l as [|x l IH]; intros top rest Hall Hsort i Hi.
  { by apply elem_of_nil in Hi. }
  apply Forall_cons in Hall as [[rx Hx] Hall].
  cbn [sortBy foldr] in Hsort. fold (sortBy bySeverityThenStart l) in Hsort.
  destruct (sortBy bySeverityThenStart l) as [|h t] eqn:Hl.
  - apply sortBy_nil_inv in Hl. subst l. simpl in Hsort. simplify_eq.
    apply elem_of_cons in Hi as [->|Hi]; [apply rankGt_irrefl|by apply elem_of_nil in Hi].
  - assert (h ∈ l) as Hh by (apply (sortBy_elem_of bySeverityThenStart); rewrite Hl; left).
    pose proof Hall as Hall'. rewrite Forall_forall in Hall'.
    destruct (Hall' h Hh) as [rh Hrh].
    assert (forall j, j ∈ l -> exists rj, severityRank (Incident.severity j) = RankNumber rj
                                          /\ rj <= rh) as Hmax.
    { intros j Hj. destruct (Hall' j Hj) as [rj Hrj]. exists rj. split; [done|].
      pose proof (IH h t Hall eq_refl j Hj) as Hgt.
      rewrite Hrj, Hrh in Hgt. simpl in Hgt. by apply Z.ltb_ge in Hgt. }
    simpl in Hsort. destruct (bySeverityThenStart x h) eqn:Hle; simplify_eq.
    + pose proof (bySeverityThenStart_true _ _ _ _ Hx Hrh Hle).
      apply elem_of_cons in Hi as [->|Hi]; [apply rankGt_irrefl|].
      destruct (Hmax i Hi) as (ri & -> & ?). rewrite Hx. simpl. apply Z.ltb_ge. lia.
    + pose proof (bySeverityThenStart_false _ _ _ _ Hx Hrh Hle).
      apply elem_of_cons in Hi as [->|Hi].
      * rewrite Hx, Hrh. simpl. apply Z.ltb_ge. lia.
      * destruct (Hmax i Hi) as (ri & -> & ?). rewrite Hrh. simpl. apply Z.ltb_ge. lia.
Qed.

(** X10.  The status file lists the ids of the incidents that are not
    resolved, and only those.  With none of them the overall status is
    operational, with the fixed message.  Otherwise, the severities being
    ones the rank table knows, the overall status is critical when one of
    them is critical, else major when one of them is major, else degraded,
    and the message is the summary, or else the title, of one of them that
    no other outranks.  The service name is never empty afterwards. *)
Theorem updateCurrentStatusFile_overall (current : option CurrentStatus.t)
    (store : Store.t) (processedAtIso : Z) :
  let status := updateCurrentStatusFile current store processedAtIso in
  let active := activeIncidents store in
  CurrentStatus.active_incident_ids status ≡ₚ Incident.id <$> active
  /\ CurrentStatus.updated_at status = processedAtIso
  /\ CurrentStatus.service_name status <> ""
  /\ (active = [] ->
      CurrentStatus.overall_status status = "operational"
      /\ CurrentStatus.status_message status
         = "No active incidents. Trains are currently running under normal operations.")
  /\ (active <> [] ->
      Forall ranked active ->
      CurrentStatus.overall_status status
      = (if decide (Exists (fun i => Incident.severity i = "critical") active)
         then "critical"
         else if decide (Exists (fun i => Incident.severity i = "major") active)
              then "major"
              else "degraded")
      /\ exists top,
           top ∈ active
           /\ CurrentStatus.status_message status
              = orElse (Incident.summary top) (Incident.title top)
           /\ (forall i, i ∈ active ->
                rankGt (severityRank (Incident.severity i))
                       (severityRank (Incident.severity top)) = false)
           /\ (forall i ri rt, i ∈ active ->
                severityRank (Incident.severity i) = RankNumber ri ->
                severityRank (Incident.severity top) = RankNumber rt ->
                ri <= rt)).
Proof.
  cbv zeta. unfold updateCurrentStatusFile. fold (activeIncidents store).
  set (active := activeIncidents store).
  destruct (sortBy bySeverityThenStart active) as [|top rest] eqn:Hsorted; simpl.
  - apply sortBy_nil_inv in Hsorted. rewrite Hsorted.
    split_and!; try done. by apply orElse_nonempty.
  - pose proof (sortBy_Permutation bySeverityThenStart active) as Hperm.
    rewrite Hsorted in Hperm.
    assert (top ∈ active) as Htop by (rewrite <- Hperm; left).
    split_and!; try done.
    + change (Incident.id top :: map Incident.id rest)
        with (Incident.id <$> top :: rest). by rewrite Hperm.
    + by apply orElse_nonempty.
    + intros Hnil. rewrite Hnil in Htop. by apply elem_of_nil in Htop.
    + intros _ Hranked.
      pose proof (bySeverityThenStart_head active top rest Hranked Hsorted) as Hmax.
      pose proof Hranked as Hranked'. rewrite Forall_forall in Hranked'.
      destruct (Hranked' top Htop) as [rt Hrt].
      destruct (severityRank_values _ _ Hrt) as (Hrange & Hcrit & Hmaj).
      assert (forall i ri, i ∈ active -> severityRank (Incident.severity i) = RankNumber ri ->
                           ri <= rt) as Hle.
      { intros i ri Hi Hri. specialize (Hmax i Hi). rewrite Hri, Hrt in Hmax.
        simpl in Hmax. by apply Z.ltb_ge in Hmax. }
      split.
      2: { exists top. split_and!; [done|done|done|].
           intros i ri rt' Hi Hri Hrt'. rewrite Hrt in Hrt'. simplify_eq.
           by eapply Hle. }
      destruct (decide (Exists _ active)) as [Hc|Hnc].
      { apply Exists_exists in Hc as (i & Hi & Hsev).
        assert (severityRank (Incident.severity i) = RankNumber 3) as Hri by by rewrite Hsev.
        pose proof (Hle i 3 Hi Hri). rewrite decide_True; [done|]. apply Hcrit. lia. }
      rewrite decide_False.
      2: { intros Hsev. apply Hnc, Exists_exists. by exists top. }
      destruct (decide (Exists _ active)) as [Hm|Hnm].
      { apply Exists_exists in Hm as (i & Hi & Hsev).
        assert (severityRank (Incident.severity i) = RankNumber 2) as Hri by by rewrite Hsev.
        pose proof (Hle i 2 Hi Hri).
        assert (rt <> 3).
        { intros H3. apply Hcrit in H3. apply Hnc, Exists_exists. by exists top. }
        rewrite decide_True; [done|]. apply Hmaj. lia. }
      rewrite decide_False; [done|].
      intros Hsev. apply Hnm, Exists_exists. by exists top.
Qed.

(** ** The environment file *)

Lemma setIfAbsent_subseteq (env : gmap string string) (key value : string) :
  env ⊆ setIfAbsent env key value.
Proof.
  unfold setIfAbsent. case_decide as Hin; [done|]. case_decide; [done|].
  case_decide; [done|].
  apply insert_subseteq. by apply eq_None_not_Some.
Qed.

Lemma parseDotEnvStep_subseteq (env : gmap string string) (line : list ascii) :
  env ⊆ parseDotEnvStep env line.
Proof.
  unfold parseDotEnvStep. destruct (parseDotEnvLine line) as [[key value]|]; [|done].
  apply setIfAbsent_subseteq.
Qed.

Lemma foldl_parseDotEnvStep_subseteq (lines : list (list ascii)) (env : gmap string string) :
  env ⊆ foldl parseDotEnvStep env lines.
Proof.
  revert env. induction lines as [|line rest IH]; intros env; simpl; [done|].
  etrans; [apply parseDotEnvStep_subseteq|apply IH].
Qed.

(** After the file is read, every variable it defines is set, unless its
    name is empty or inherited. *)
Lemma foldl_parseDotEnvStep_defined (lines : list (list ascii)) (env : gmap string string)
    (line : list ascii) (key value : string) :
  line ∈ lines -> parseDotEnvLine line = Some (key, value) ->
  key = "" \/ (key ∈ objectPrototypeKeys)
  \/ is_Some (foldl parseDotEnvStep env lines !! key).
Proof.
  revert env. induction lines as [|first rest IH]; intros env Hin Hline.
  { by apply elem_of_nil in Hin. }
  simpl. apply elem_of_cons in Hin as [->|Hin]; [|by apply IH].
  destruct (decide (key = "")) as [|Hkey]; [by left|right].
  destruct (decide (key ∈ objectPrototypeKeys)) as [|Hown]; [by left|right].
  assert (is_Some (parseDotEnvStep env first !! key)) as [v Hv].
  { unfold parseDotEnvStep. rewrite Hline. unfold setIfAbsent.
    case_decide; [done|]. rewrite !decide_False by done.
    rewrite lookup_insert_eq. by eexists. }
  exists v. eapply lookup_weaken; [exact Hv|apply foldl_parseDotEnvStep_subseteq].
Qed.

Lemma foldl_parseDotEnvStep_fixed (lines : list (list ascii)) (env : gmap string string) :
  (forall line key value, line ∈ lines -> parseDotEnvLine line = Some (key, value) ->
                          key = "" \/ (key ∈ objectPrototypeKeys)
                          \/ is_Some (env !! key)) ->
  foldl parseDotEnvStep env lines = env.
Proof.
  induction lines as [|first rest IH]; intros Hset; simpl; [done|].
  assert (parseDotEnvStep env first = env) as ->.
  { unfold parseDotEnvStep. destruct (parseDotEnvLine first) as [[key value]|] eqn:Hline; [|done].
    unfold setIfAbsent. case_decide; [done|]. case_decide; [done|].
    destruct (Hset first key value ltac:(left) Hline) as [->|[?|?]]; done. }
  apply IH. intros line key value Hin. apply Hset. by right.
Qed.

Lemma foldl_parseDotEnvStep_origin (lines : list (list ascii)) (env : gmap string string)
    (key value : string) :
  foldl parseDotEnvStep env lines !! key = Some value ->
  env !! key = Some value
  \/ (env !! key = None /\ key <> "" /\ (key ∉ objectPrototypeKeys)
      /\ exists line, line ∈ lines /\ parseDotEnvLine line = Some (key, value)).
Proof.
  revert env. induction lines as [|first rest IH]; intros env Hlook; simpl in *; [by left|].
  destruct (IH _ Hlook) as [Hstep|(Hnone & Hkey & Hown & line & Hin & Hline)].
  - unfold parseDotEnvStep in Hstep.
    destruct (parseDotEnvLine first) as [[k v]|] eqn:Hfirst; [|by left].
    unfold setIfAbsent in Hstep. case_decide as Hset; [by left|].
    case_decide as Hinh; [by left|].
    case_decide as Hk; [by left|].
    apply lookup_insert_Some in Hstep as [[<- <-]|[_ Hstep]]; [|by left].
    right. split_and!; [by apply eq_None_not_Some|done|done|].
    exists first. split; [left|done].
  - right. split_and!; [|done|done|].
    + eapply lookup_weaken_None; [exact Hnone|apply parseDotEnvStep_subseteq].
    + exists line. split; [by right|done].
Qed.

(** An inherited name is never set. *)
Lemma foldl_parseDotEnvStep_inherited (lines : list (list ascii))
    (env : gmap string string) (key : string) :
  key ∈ objectPrototypeKeys -> foldl parseDotEnvStep env lines !! key = env !! key.
Proof.
  intros Hinh.
  destruct (foldl parseDotEnvStep env lines !! key) as [v|] eqn:Hv.
  - by destruct (foldl_parseDotEnvStep_origin _ _ _ _ Hv) as [?|(_ & _ & ? & _)].
  - symmetry. eapply lookup_weaken_None; [exact Hv|apply foldl_parseDotEnvStep_subseteq].
Qed.

Lemma foldl_parseDotEnvStep_first (pre post : list (list ascii)) (line : list ascii)
    (env : gmap string string) (key value : string) :
  env !! key = None -> key <> "" -> key ∉ objectPrototypeKeys ->
  (forall l v, l ∈ pre -> parseDotEnvLine l <> Some (key, v)) ->
  parseDotEnvLine line = Some (key, value) ->
  foldl parseDotEnvStep env (pre ++ line :: post) !! key = Some value.
Proof.
  intros Hnone Hkey Hown Hpre Hline. rewrite foldl_app. cbn [foldl].
  assert (foldl parseDotEnvStep env pre !! key = None) as Hstill.
  { destruct (foldl parseDotEnvStep env pre !! key) as [v|] eqn:Hv; [|done].
    destruct (foldl_parseDotEnvStep_origin _ _ _ _ Hv)
      as [?|(_ & _ & _ & l & Hl & Hdef)]; [congruence|].
    by destruct (Hpre l v Hl). }
  eapply lookup_weaken; [|apply foldl_parseDotEnvStep_subseteq].
  unfold parseDotEnvStep. rewrite Hline. unfold setIfAbsent.
  rewrite decide_False by (by apply eq_None_not_Some).
  rewrite !decide_False by done. apply lookup_insert_eq.
Qed.

(** X11.  Reading the environment file never changes a variable that is
    already set and changes nothing when there is no file; reading the
    file twice is reading it once.  A variable the file sets has a name
    that is neither empty nor one of the twelve names every object
    inherits, and the value some line of the file gives it; an inherited
    name is never set, whatever the file says.  For any other name that
    is not empty, the first line that defines it is the one that
    counts. *)
Theorem parseDotEnvFile_existing_wins (file : option string) (env : gmap string string) :
  let env' := parseDotEnvFile file env in
  env ⊆ env'
  /\ parseDotEnvFile file env' = env'
  /\ (file = None -> env' = env)
  /\ (forall key value, env' !! key = Some value ->
         env !! key = Some value
         \/ (env !! key = None /\ key <> "" /\ (key ∉ objectPrototypeKeys)
             /\ exists text line, file = Some text /\ line ∈ splitLines text
                                  /\ parseDotEnvLine line = Some (key, value)))
  /\ (forall key, key ∈ objectPrototypeKeys -> env' !! key = env !! key)
  /\ (forall text pre line post key value,
         file = Some text -> splitLines text = pre ++ line :: post ->
         env !! key = None -> key <> "" -> key ∉ objectPrototypeKeys ->
         (forall l v, l ∈ pre -> parseDotEnvLine l <> Some (key, v)) ->
         parseDotEnvLine line = Some (key, value) ->
         env' !! key = Some value)
  /\ objectPrototypeKeys
     = ["constructor"; "__proto__"; "hasOwnProperty"; "isPrototypeOf";
        "propertyIsEnumerable"; "toLocaleString"; "toString"; "valueOf";
        "__defineGetter__"; "__defineSetter__"; "__lookupGetter__";
        "__lookupSetter__"].
Proof.
  cbv zeta. destruct file as [text|]; simpl; [|split_and!; by auto].
  split_and!; [| | | | |intros text' pre line post key value [= <-] Hsplit;
                        rewrite Hsplit; by apply foldl_parseDotEnvStep_first|done].
  - apply foldl_parseDotEnvStep_subseteq.
  - apply foldl_parseDotEnvStep_fixed. intros line key value.
    apply foldl_parseDotEnvStep_defined.
  - done.
  - intros key value Hlook.
    destruct (foldl_parseDotEnvStep_origin _ _ _ _ Hlook)
      as [?|(? & ? & ? & line & ? & ?)]; [by left|right].
    split_and!; [done|done|done|]. by exists text, line.
  - intros key. apply foldl_parseDotEnvStep_inherited.
Qed.

(** ** The state file *)

Lemma sliceLast_short {A} (n : nat) (l : list A) :
  (length l <= n)%nat -> sliceLast n l = l.
Proof. intros Hle. unfold sliceLast. by replace (length l - n)%nat with 0%nat by lia. Qed.

Lemma sliceLast_length {A} (n : nat) (l : list A) :
  length (sliceLast n l) = Nat.min n (length l).
Proof. unfold sliceLast. rewrite length_drop. lia. Qed.

Lemma saveState_ids (now : Z) (state : IngestState.t) :
  let saved := IngestState.processed_message_ids (saveState now state) in
  NoDup saved
  /\ (length saved <= 5000)%nat
  /\ (forall id, id ∈ saved -> id ∈ IngestState.processed_message_ids state)
  /\ ((length saved < 5000)%nat ->
      saved = arrayFromSet (IngestState.processed_message_ids state)).
Proof.
  simpl. set (distinct := arrayFromSet (IngestState.processed_message_ids state)).
  split_and!.
  - unfold sliceLast. eapply sublist_NoDup; [apply arrayFromSet_NoDup|].
    apply sublist_drop.
  - rewrite sliceLast_length. lia.
  - intros id Hid. apply (arrayFromSet_elem_of (IngestState.processed_message_ids state)).
    unfold sliceLast in Hid. eapply elem_of_sublist; [exact Hid|apply sublist_drop].
  - rewrite sliceLast_length. intros Hlt. apply sliceLast_short. lia.
Qed.

Lemma saveState_settled (now : Z) (ids : list string) (last : option Z) :
  NoDup ids -> (length ids <= 5000)%nat ->
  saveState now {| IngestState.processed_message_ids := ids;
                   IngestState.last_run_at := last |}
  = {| IngestState.processed_message_ids := ids; IngestState.last_run_at := Some now |}.
Proof.
  intros Hnd Hlen. unfold saveState. simpl.
  by rewrite arrayFromSet_id, sliceLast_short.
Qed.

(** ** The loop of the run *)

Section MainFacts.
Variable tzOffsetMs : Z -> Z.
Variable env : gmap string string.
Variable now : Z.
Variable markSeen : bool.

Lemma processMessage_known run msg :
  messageIdOf msg ∈ Run.processedIds run ->
  processMessage tzOffsetMs env now markSeen run msg
  = ({| Run.store := Run.store run;
        Run.processedIds := Run.processedIds run;
        Run.processed_message_ids := Run.processed_message_ids run;
        Run.processedCount := Run.processedCount run;
        Run.changed := Run.changed run;
        Run.seen := flagSeen markSeen (Run.seen run) msg |}, None).
Proof. intros Hin. unfold processMessage. by rewrite decide_True. Qed.

Lemma flagged_cons msg fetched seen :
  flagSeen markSeen seen msg ++ flagged markSeen fetched
  = seen ++ flagged markSeen (msg :: fetched).
Proof.
  unfold flagSeen, flagged. destruct markSeen; [|done].
  by rewrite fmap_cons, <- app_assoc.
Qed.

(** Messages whose ids are all known change nothing but the flags. *)
Lemma processAll_known fetched run :
  (forall msg, msg ∈ fetched -> messageIdOf msg ∈ Run.processedIds run) ->
  processAll tzOffsetMs env now markSeen run fetched
  = ({| Run.store := Run.store run;
        Run.processedIds := Run.processedIds run;
        Run.processed_message_ids := Run.processed_message_ids run;
        Run.processedCount := Run.processedCount run;
        Run.changed := Run.changed run;
        Run.seen := Run.seen run ++ flagged markSeen fetched |}, None).
Proof.
  revert run. induction fetched as [|msg rest IH]; intros run Hknown; simpl.
  - unfold flagged. destruct markSeen; rewrite ?fmap_nil, app_nil_r; by destruct run.
  - rewrite processMessage_known by (apply Hknown; left).
    rewrite IH by (intros m Hm; apply Hknown; by right). simpl.
    by rewrite flagged_cons.
Qed.

Lemma processMessage_completed run msg run' :
  processMessage tzOffsetMs env now markSeen run msg = (run', None) ->
  idsInStep run ->
  idsInStep run'
  /\ messageIdOf msg ∈ Run.processedIds run'
  /\ Run.processedIds run ⊆ Run.processedIds run'
  /\ Run.seen run' = flagSeen markSeen (Run.seen run) msg
  /\ (NoDup (Run.processed_message_ids run) -> NoDup (Run.processed_message_ids run')).
Proof.
  intros Hstep Hinv. unfold processMessage in Hstep.
  assert (forall store count changed seen,
            messageIdOf msg ∉ Run.processedIds run ->
            let run1 :=
              {| Run.store := store;
                 Run.processedIds := {[messageIdOf msg]} ∪ Run.processedIds run;
                 Run.processed_message_ids := Run.processed_message_ids run ++ [messageIdOf msg];
                 Run.processedCount := count;
                 Run.changed := changed;
                 Run.seen := seen |} in
            idsInStep run1
            /\ messageIdOf msg ∈ Run.processedIds run1
            /\ Run.processedIds run ⊆ Run.processedIds run1
            /\ (NoDup (Run.processed_message_ids run) ->
                NoDup (Run.processed_message_ids run1))) as Hadd.
  { intros store count changed seen Hnew. simpl. split_and!.
    - intros id. simpl. rewrite elem_of_union, elem_of_singleton, elem_of_app,
        list_elem_of_singleton, (Hinv id). tauto.
    - apply elem_of_union. left. by apply elem_of_singleton.
    - apply union_subseteq_r.
    - intros Hnd. apply NoDup_app. split_and!; [done| |apply NoDup_singleton].
      intros id Hid Hid'. apply list_elem_of_singleton in Hid'. subst id.
      by apply Hinv in Hid. }
  case_decide as Hknown.
  { simplify_eq. simpl. by split_and!. }
  destruct (passesFilters env msg); simpl in Hstep.
  2: { simplify_eq.
       destruct (Hadd (Run.store run) (Run.processedCount run) (Run.changed run)
                      (flagSeen markSeen (Run.seen run) msg) Hknown) as (? & ? & ? & ?).
       by split_and!. }
  destruct (toISOString _) as [receivedAt|e]; [|done].
  destruct (applyEventToRepo _ _ _) as [store [incident|e]]; [|done].
  simplify_eq.
  destruct (Hadd store (Run.processedCount run + 1) true
                 (flagSeen markSeen (Run.seen run) msg) Hknown) as (? & ? & ? & ?).
  by split_and!.
Qed.

Lemma processAll_completed fetched run run' :
  processAll tzOffsetMs env now markSeen run fetched = (run', None) ->
  idsInStep run ->
  idsInStep run'
  /\ (forall msg, msg ∈ fetched -> messageIdOf msg ∈ Run.processedIds run')
  /\ Run.processedIds run ⊆ Run.processedIds run'
  /\ Run.seen run' = Run.seen run ++ flagged markSeen fetched
  /\ (NoDup (Run.processed_message_ids run) -> NoDup (Run.processed_message_ids run')).
Proof.
  revert run. induction fetched as [|msg rest IH]; intros run Hall Hinv; simpl in Hall.
  - simplify_eq. split_and!; try done.
    + intros msg Hmsg. by apply elem_of_nil in Hmsg.
    + unfold flagged. destruct markSeen; by rewrite ?fmap_nil, app_nil_r.
  - destruct (processMessage tzOffsetMs env now markSeen run msg) as [run1 [e|]] eqn:Hstep;
      [done|].
    destruct (processMessage_completed _ _ _ Hstep Hinv) as (Hinv1 & Hmsg & Hsub & Hseen & Hnd).
    destruct (IH run1 Hall Hinv1) as (Hinv' & Hrest & Hsub' & Hseen' & Hnd').
    split_and!; [done| |by etrans| |by auto].
    + intros m Hm. apply elem_of_cons in Hm as [->|Hm]; [by apply Hsub'|by apply Hrest].
    + rewrite Hseen', Hseen. apply flagged_cons.
Qed.



End MainFacts.

Section MainOutcome.
Variable tzOffsetMs : Z -> Z.
Variable env : gmap string string.

Lemma idsInStep_initial (store : Store.t) (ids : list string) :
  idsInStep {| Run.store := store;
               Run.processedIds := list_to_set ids;
               Run.processed_message_ids := ids;
               Run.processedCount := 0;
               Run.changed := false;
               Run.seen := [] |}.
Proof. intros id. simpl. apply elem_of_list_to_set. Qed.

(** What a run that completes leaves. *)
Lemma main_completed (now : Z) (files files' : Files.t) (fetched : list Parsed.t)
    (seen : list Z) :
  main tzOffsetMs env now files fetched = (files', seen, None) ->
  seen = flagged (envBool env "IMAP_MARK_SEEN" true) fetched
  /\ (bool_decide (envOr env "GMAIL_USER" "" = "")
      || bool_decide (envOr env "GMAIL_APP_PASSWORD" "" = "")) = false
  /\ exists ids,
       Files.state files'
       = Some (saveState now
                 {| IngestState.processed_message_ids := ids;
                    IngestState.last_run_at :=
                      IngestState.last_run_at (loadState (Files.state files)) |})
       /\ (forall msg, msg ∈ fetched -> messageIdOf msg ∈ ids)
       /\ (forall id, id ∈ IngestState.processed_message_ids (loadState (Files.state files)) ->
                      id ∈ ids)
       /\ (Files.current files' = Files.current files
           \/ Files.current files'
              = Some (updateCurrentStatusFile (Files.current files) (Files.store files') now)).
Proof.
  unfold main. destruct (_ || _); [done|].
  set (state := loadState (Files.state files)).
  destruct fetched as [|msg rest].
  { intros [= <- <-]. split; [by destruct (envBool _ _ _)|]. split; [done|].
    exists (IngestState.processed_message_ids state). split_and!.
    - simpl. by destruct state.
    - intros m Hm. by apply elem_of_nil in Hm.
    - done.
    - by left. }
  set (fetched := msg :: rest).
  destruct (processAll _ _ _ _ _ fetched) as [run [e|]] eqn:Hloop; [done|].
  intros [= <- <-].
  destruct (processAll_completed _ _ _ _ _ _ _ Hloop (idsInStep_initial _ _))
    as (Hinv & Hall & Hsub & Hseen & _).
  simpl in Hseen. split; [done|]. split; [done|].
  exists (Run.processed_message_ids run). split_and!; [done| | |].
  - intros m Hm. apply Hinv. by apply Hall.
  - intros id Hid. apply Hinv, Hsub. simpl. by apply elem_of_list_to_set.
  - simpl. destruct (Run.changed run); [by right|by left].
Qed.



(** X13.  Running again on the same messages changes nothing: after a run
    that completed and whose state file is not full, a second run over
    the same fetched messages leaves the repository and the status file
    as they are, keeps the same ids in the state file, and flags the same
    messages. *)
Theorem main_rerun (now now' : Z) (files files1 : Files.t) (fetched : list Parsed.t)
    (seen1 : list Z) (state1 : IngestState.t) :
  main tzOffsetMs env now files fetched = (files1, seen1, None) ->
  Files.state files1 = Some state1 ->
  (length (IngestState.processed_message_ids state1) < 5000)%nat ->
  main tzOffsetMs env now' files1 fetched
  = ({| Files.store := Files.store files1;
        Files.state :=
          Some {| IngestState.processed_message_ids :=
                    IngestState.processed_message_ids state1;
                  IngestState.last_run_at := Some now' |};
        Files.current := Files.current files1 |}, seen1, None).
Proof.
  intros Hfirst Hstate Hlt.
  destruct (main_completed _ _ _ _ _ Hfirst) as (Hseen & Hcred & ids & Hsaved & Hall & _ & _).
  rewrite Hstate in Hsaved. injection Hsaved as ->.
  match type of Hlt with context [saveState _ ?s] =>
    destruct (saveState_ids now s) as (Hnd & Hlen & _ & Hkept) end.
  specialize (Hkept Hlt).
  unfold main. rewrite Hcred, Hstate. cbn [loadState].
  destruct fetched as [|msg rest].
  { assert (seen1 = []) as -> by (rewrite Hseen; by destruct (envBool _ _ _)).
    do 4 f_equal. rewrite <- saveState_settled with (last := Some now); [|done|done].
    done. }
  rewrite processAll_known.
  2: { intros m Hm. cbn [Run.processedIds]. apply elem_of_list_to_set. rewrite Hkept.
       by apply arrayFromSet_elem_of, Hall. }
  simpl. rewrite Hseen. do 4 f_equal.
  by apply saveState_settled.
Qed.

End MainOutcome.

(** ** What a run reconciles *)

Section RunFacts.
Variable tzOffsetMs : Z -> Z.
Variable env : gmap string string.
Variable now : Z.

Lemma orElse_empty (a : string) : orElse a "" = a.
Proof. unfold orElse. by case_decide. Qed.

Lemma processMessage_cases markSeen run msg run' :
  processMessage tzOffsetMs env now markSeen run msg = (run', None) ->
  (messageIdOf msg ∈ Run.processedIds run
   /\ Run.store run' = Run.store run
   /\ Run.processedIds run' = Run.processedIds run
   /\ Run.processedCount run' = Run.processedCount run)
  \/ ((messageIdOf msg ∉ Run.processedIds run)
      /\ passesFilters env msg = false
      /\ Run.store run' = Run.store run
      /\ Run.processedIds run' = {[messageIdOf msg]} ∪ Run.processedIds run
      /\ Run.processedCount run' = Run.processedCount run)
  \/ ((messageIdOf msg ∉ Run.processedIds run)
      /\ passesFilters env msg = true
      /\ (exists incident,
            applyEventToRepo tzOffsetMs (Run.store run) (eventOf now msg)
            = (Run.store run', Ok incident))
      /\ Run.processedIds run' = {[messageIdOf msg]} ∪ Run.processedIds run
      /\ Run.processedCount run' = Run.processedCount run + 1).
Proof.
  unfold processMessage. case_decide as Hknown.
  { intros [= <-]. left. by split_and!. }
  destruct (passesFilters env msg); simpl.
  2: { intros [= <-]. right; left. by split_and!. }
  fold (dateOf msg). destruct (dateOf msg) as [|ms] eqn:Hdate; [done|]. simpl.
  assert (buildParsedEvent now
            {| Message.messageId := messageIdOf msg;
               Message.subject := orElse (Parsed.subject msg) "";
               Message.bodyText := orElse (Parsed.text msg) (orElse (Parsed.html msg) "");
               Message.receivedAt := Some (IsoDate ms) |}
          = eventOf now msg) as ->.
  { unfold eventOf. by rewrite Hdate, !orElse_empty. }
  destruct (applyEventToRepo tzOffsetMs (Run.store run) (eventOf now msg))
    as [store [incident|e]] eqn:Happly; [|done].
  intros [= <-]. right; right. simpl. split_and!; try done. by exists incident.
Qed.

Lemma processAll_store markSeen fetched run run' :
  processAll tzOffsetMs env now markSeen run fetched = (run', None) ->
  Run.store run'
  = applyEvents tzOffsetMs (Run.store run)
      (eventOf now <$> reconciled env (Run.processedIds run) fetched)
  /\ Run.processedCount run'
     = Run.processedCount run
       + Z.of_nat (length (reconciled env (Run.processedIds run) fetched)).
Proof.
  revert run. induction fetched as [|msg rest IH]; intros run Hall; simpl in Hall.
  { simplify_eq. simpl. split; [done|lia]. }
  destruct (processMessage tzOffsetMs env now markSeen run msg) as [run1 [e|]] eqn:Hstep;
    [done|].
  destruct (IH run1 Hall) as [Hstore Hcount].
  cbn [reconciled].
  destruct (processMessage_cases _ _ _ _ Hstep)
    as [(Hknown & Hs & Hids & Hc)|[(Hnew & Hpass & Hs & Hids & Hc)
                                  |(Hnew & Hpass & [incident Happly] & Hids & Hc)]].
  - rewrite decide_True by done. rewrite Hstore, Hcount, Hs, Hids, Hc. done.
  - rewrite decide_False by done. rewrite Hpass. simpl.
    rewrite Hstore, Hcount, Hs, Hids, Hc. done.
  - rewrite decide_False by done. rewrite Hpass. simpl. rewrite Happly.
    rewrite Hstore, Hcount, Hids, Hc. split; [done|lia].
Qed.

End RunFacts.

Section RunOutcome.
Variable tzOffsetMs : Z -> Z.
Variable env : gmap string string.

(** X22.  A run that completes has reconciled, in order and once each, the
    events of the fetched messages that pass the filters and whose id was
    neither in the state file nor that of an earlier message of the run:
    its repository is the one [applyEventToRepo] leaves after these
    events, one at a time, and it has reconciled nothing else. *)
Theorem main_reconciles_new_messages (now : Z) (files files' : Files.t)
    (fetched : list Parsed.t) (seen : list Z) :
  main tzOffsetMs env now files fetched = (files', seen, None) ->
  Files.store files'
  = applyEvents tzOffsetMs (Files.store files)
      (eventOf now
         <$> reconciled env
               (list_to_set (IngestState.processed_message_ids
                               (loadState (Files.state files))))
               fetched).
Proof.
  unfold main. destruct (_ || _); [done|].
  destruct fetched as [|msg rest]; [by intros [= <- <-]|].
  destruct (processAll _ _ _ _ _ (msg :: rest)) as [run [e|]] eqn:Hloop; [done|].
  intros [= <- <-]. simpl.
  by destruct (processAll_store _ _ _ _ _ _ _ Hloop) as [-> _].
Qed.

End RunOutcome.

(** ** Escaping *)

Section EscapeFacts.
Import Text.

Lemma flat_map_flat_map {A B C} (f : A -> list B) (g : B -> list C) (l : list A) :
  flat_map g (flat_map f l) = flat_map (fun x => flat_map g (f x)) l.
Proof.
  induction l as [|x r IH]; simpl; [done|]. by rewrite flat_map_app, IH.
Qed.

Lemma escapeHtml_chars (value : string) :
  escapeHtml value = str (flat_map escapeChar (chars value)).
Proof.
  unfold escapeHtml, replaceAllChar. cbv zeta. f_equal.
  rewrite !flat_map_flat_map. apply flat_map_ext. intros c. unfold escapeChar.
  destruct (Ascii.eqb_spec c "&") as [->|]; [reflexivity|].
  destruct (Ascii.eqb_spec c "<") as [->|]; [reflexivity|].
  destruct (Ascii.eqb_spec c ">") as [->|]; [reflexivity|].
  destruct (Ascii.eqb_spec c "034") as [->|]; [reflexivity|].
  destruct (Ascii.eqb_spec c "'") as [->|]; [reflexivity|].
  simpl. rewrite !app_nil_r.
  repeat (match goal with |- context [Ascii.eqb c ?x] =>
            destruct (Ascii.eqb_spec c x); [done|] end; simpl).
  done.
Qed.

Lemma escapeChar_safe (c x : ascii) :
  x ∈ escapeChar c -> x ∉ ["<"; ">"; "034"; "'"]%char.
Proof.
  unfold escapeChar.
  destruct (Ascii.eqb_spec c "&") as [->|];
    [|destruct (Ascii.eqb_spec c "<") as [->|];
      [|destruct (Ascii.eqb_spec c ">") as [->|];
        [|destruct (Ascii.eqb_spec c "034") as [->|];
          [|destruct (Ascii.eqb_spec c "'") as [->|]]]]].
  1-5: intros Hx; simpl in Hx;
       repeat (apply elem_of_cons in Hx as [->|Hx];
               [by apply (bool_decide_unpack _)|]);
       by apply elem_of_nil in Hx.
  intros Hx. apply list_elem_of_singleton in Hx. subst x.
  intros Hin. repeat (apply elem_of_cons in Hin as [->|Hin]; [done|]).
  by apply elem_of_nil in Hin.
Qed.

Lemma unescapeFrom_escape (l : list ascii) :
  unescapeFrom 0 (flat_map escapeChar l) = l.
Proof.
  induction l as [|c r IH]; [done|]. simpl. unfold escapeChar.
  destruct (Ascii.eqb_spec c "&") as [->|Hamp]; [simpl; f_equal; apply IH|].
  destruct (Ascii.eqb_spec c "<") as [->|]; [simpl; f_equal; apply IH|].
  destruct (Ascii.eqb_spec c ">") as [->|]; [simpl; f_equal; apply IH|].
  destruct (Ascii.eqb_spec c "034") as [->|]; [simpl; f_equal; apply IH|].
  destruct (Ascii.eqb_spec c "'") as [->|]; [simpl; f_equal; apply IH|].
  cbn [app unescapeFrom]. unfold entityAt. cbn [chars list_ascii_of_string matchExact].
  assert (Ascii.eqb "&" c = false) as -> by (apply Ascii.eqb_neq; congruence).
  f_equal. apply IH.
Qed.

(** X14.  [escapeHtml] replaces each of the five characters by its entity,
    character by character: an ampersand written by a replacement is not
    escaped again.  The result holds no angle bracket and no quote, reading
    the entities back gives the text again, and a text without any of the
    five characters is left as it is. *)
Theorem escapeHtml_safe_and_lossless (value : string) :
  escapeHtml value = str (flat_map escapeChar (chars value))
  /\ Forall (fun x => x ∉ ["<"; ">"; "034"; "'"]%char) (chars (escapeHtml value))
  /\ unescapeHtml (escapeHtml value) = value
  /\ (Forall (fun c => c ∉ ["&"; "<"; ">"; "034"; "'"]%char) (chars value) ->
      escapeHtml value = value).
Proof.
  rewrite escapeHtml_chars. split_and!.
  - done.
  - rewrite chars_str. apply Forall_forall. intros x Hx.
    apply list_elem_of_In, in_flat_map in Hx as (c & _ & Hx).
    apply (escapeChar_safe c). by apply list_elem_of_In.
  - unfold unescapeHtml. by rewrite chars_str, unescapeFrom_escape, str_chars.
  - intros Hplain. rewrite <- (str_chars value) at 2. f_equal.
    induction Hplain as [|c r Hc _ IH]; [done|]. simpl. rewrite IH.
    unfold escapeChar.
    repeat (match goal with |- context [Ascii.eqb c ?x] =>
              destruct (Ascii.eqb_spec c x) as [->|];
                [destruct Hc; apply (bool_decide_unpack _); by vm_compute|] end).
    done.
Qed.

End EscapeFacts.

(** ** Outage segments *)

Lemma normalizeSeverity_canonical (value : JsValue) :
  normalizeSeverity value ∈ canonicalSeverities.
Proof.
  destruct value as [| |b|x|s|].
  - repeat constructor.
  - repeat constructor.
  - destruct b; repeat constructor.
  - unfold normalizeSeverity; simpl.
    destruct (Qeq_bool x 0); simpl; repeat constructor.
  - rewrite normalizeSeverity_string. unfold canonicalSeverities.
    repeat case_decide; try (repeat constructor; fail).
    repeat match goal with
    | H : _ ∈ _ :: _ |- _ => apply elem_of_cons in H as [->|H]; [repeat constructor|]
    | H : _ ∈ [] |- _ => by apply elem_of_nil in H
    end.
  - repeat constructor.
Qed.

Lemma severityForIncident_canonical (incident : Entry.t) :
  severityForIncident incident ∈ canonicalSeverities.
Proof.
  unfold severityForIncident. cbv zeta.
  destruct (Text.hasWord _ _); [repeat constructor|].
  destruct (Text.includes _ _); [repeat constructor|].
  destruct (orNullish _ _) as [delayMinutes|]; [|apply normalizeSeverity_canonical].
  destruct (30 <=? delayMinutes); repeat constructor.
Qed.

Lemma outage_severity (severity : string) :
  severity ∈ canonicalSeverities -> severity <> "operational" ->
  severity ∈ outageSeverities.
Proof.
  intros Hin Hne. unfold canonicalSeverities in Hin.
  apply elem_of_cons in Hin as [->|Hin]; [done|]. exact Hin.
Qed.

Lemma outageSegmentOf_Some (referenceNow : Z) (incident : Entry.t) (segment : Segment.t) :
  outageSegmentOf referenceNow incident = Some segment
  <-> severityForIncident incident <> "operational"
      /\ parseDate (Entry.started_at incident) = Some (Segment.start segment)
      /\ Segment.end_ segment = incidentEndOf referenceNow incident
      /\ Segment.start segment < Segment.end_ segment
      /\ Segment.severity segment = severityForIncident incident.
Proof.
  unfold outageSegmentOf, incidentEndOf. cbv zeta. split.
  - case_decide as Hsev; [done|].
    destruct (parseDate (Entry.started_at incident)) as [startedAt|]; [|done].
    destruct (Z.leb_spec (match parseDate (Entry.resolved_at incident) with
                          | Some resolvedAt => resolvedAt
                          | None => referenceNow
                          end) startedAt); [done|].
    intros [= <-]. by split_and!.
  - intros (Hsev & Hstart & Hend & Hlt & Hs). rewrite decide_False by done.
    rewrite Hstart. rewrite <- Hend.
    destruct (Z.leb_spec (Segment.end_ segment) (Segment.start segment)); [lia|].
    destruct segment. simpl in *. by subst.
Qed.

Lemma omap_length_le {A B} (f : A -> option B) (l : list A) :
  (length (omap f l) <= length l)%nat.
Proof.
  induction l as [|x r IH]; [done|]. csimpl.
  destruct (f x); simpl in *; lia.
Qed.

(** X15.  [buildOutageSegments] gives at most one segment for each
    incident.  A segment is that of an incident whose display severity is
    not operational and whose start is a date; it runs from that start to
    the resolution date, or to the reference time when there is none; it
    is not empty; and its severity is minor, degraded, major or
    critical. *)
Theorem buildOutageSegments_segments (incidents : list Entry.t) (referenceNow : Z) :
  (length (buildOutageSegments incidents referenceNow) <= length incidents)%nat
  /\ forall segment,
       segment ∈ buildOutageSegments incidents referenceNow
       <-> exists incident,
             incident ∈ incidents
             /\ severityForIncident incident <> "operational"
             /\ parseDate (Entry.started_at incident) = Some (Segment.start segment)
             /\ Segment.end_ segment = incidentEndOf referenceNow incident
             /\ Segment.start segment < Segment.end_ segment
             /\ Segment.severity segment = severityForIncident incident
             /\ Segment.severity segment ∈ outageSeverities.
Proof.
  unfold buildOutageSegments. split; [apply omap_length_le|].
  intros segment. rewrite list_elem_of_omap. split.
  - intros (incident & Hin & Hseg). exists incident. split; [done|].
    apply outageSegmentOf_Some in Hseg as (Hsev & Hstart & Hend & Hlt & Hs).
    split_and!; try done. rewrite Hs.
    apply outage_severity; [apply severityForIncident_canonical|done].
  - intros (incident & Hin & Hsev & Hstart & Hend & Hlt & Hs & _).
    exists incident. split; [done|]. by apply outageSegmentOf_Some.
Qed.

Lemma outageSegmentOf_null (referenceNow : Z) (incident : Entry.t) :
  Entry.resolved_at incident = DateNull ->
  match parseDate (Entry.started_at incident) with
  | Some startedAt => 0 <= startedAt
  | None => True
  end ->
  outageSegmentOf referenceNow incident = None.
Proof.
  intros Hres Hpos. unfold outageSegmentOf. cbv zeta.
  case_decide; [done|].
  destruct (parseDate (Entry.started_at incident)) as [startedAt|]; [|done].
  rewrite Hres. simpl. by destruct (Z.leb_spec 0 startedAt); [|lia].
Qed.

Lemma incidentSegments_null (referenceNow : Z) (incident : Entry.t) :
  Entry.resolved_at incident = DateNull ->
  match parseDate (Entry.started_at incident) with
  | Some startedAt => 0 <= startedAt
  | None => True
  end ->
  Legacy.incidentSegments referenceNow incident = [].
Proof.
  intros Hres Hpos. unfold Legacy.incidentSegments.
  destruct (parseDate (Entry.started_at incident)) as [startedAt|]; [|done].
  rewrite Hres. simpl. by destruct (Z.leb_spec 0 startedAt); [|lia].
Qed.

(** X16.  An incident whose [resolved_at] is [null], which is what the
    ingestion script writes while an incident is open, and whose start is
    not before 1970 gives no outage segment, in either revision:
    [new Date(null)] is the epoch, so the incident ends before it starts.
    With only such incidents every window shows an uptime of 100. *)
Theorem null_resolved_at_counts_nothing (incidents : list Entry.t) (referenceNow : Z) :
  Forall (fun incident =>
            Entry.resolved_at incident = DateNull
            /\ match parseDate (Entry.started_at incident) with
               | Some startedAt => 0 <= startedAt
               | None => True
               end) incidents ->
  buildOutageSegments incidents referenceNow = []
  /\ Legacy.buildOutageSegments incidents referenceNow = []
  /\ forall ws we,
       (uptimeForWindow (buildOutageSegments incidents referenceNow) ws we == 100)%Q.
Proof.
  intros Hall.
  assert (buildOutageSegments incidents referenceNow = []) as Hnone.
  { unfold buildOutageSegments.
    induction Hall as [|incident rest [Hres Hpos] _ IH]; [done|].
    csimpl. by rewrite (outageSegmentOf_null _ _ Hres Hpos). }
  split_and!; [done| |].
  - unfold Legacy.buildOutageSegments.
    induction Hall as [|incident rest [Hres Hpos] _ IH]; [done|].
    simpl. rewrite (incidentSegments_null _ _ Hres Hpos). simpl. apply IH.
    unfold buildOutageSegments in Hnone. csimpl in Hnone.
    by rewrite (outageSegmentOf_null _ _ Hres Hpos) in Hnone.
  - intros ws we. rewrite Hnone. apply uptimeForWindow_no_segments.
Qed.

(** ** More downtime, less uptime *)

Lemma filter_length_mono {A} (P Q : A -> Prop) `{forall x, Decision (P x)}
    `{forall x, Decision (Q x)} (l : list A) :
  (forall x, x ∈ l -> P x -> Q x) ->
  (length (filter P l) <= length (filter Q l))%nat.
Proof.
  induction l as [|x r IH]; intros Himp; [done|].
  rewrite !filter_cons.
  assert (length (filter P r) <= length (filter Q r))%nat as Hr
    by (apply IH; intros y Hy; apply Himp; by right).
  pose proof (Himp x ltac:(left)).
  destruct (decide (P x)), (decide (Q x)); simpl; try lia. tauto.
Qed.

Lemma touches_insideOf ws we b (s s' : Segment.t) :
  insideOf s s' -> touches ws we b s -> touches ws we b s'.
Proof.
  intros [Hstart Hend] (Hlt & Hlo & Hhi). unfold touches. split; [lia|]. split.
  - etrans; [|exact Hlo]. apply floorMinute_mono. lia.
  - eapply Z.lt_le_trans; [exact Hhi|]. apply ceilMinute_mono. lia.
Qed.

Lemma mergedDowntimeBuckets_mono segments segments' ws we :
  Forall (fun s => Exists (insideOf s) segments') segments ->
  mergedDowntimeBuckets segments ws we <= mergedDowntimeBuckets segments' ws we.
Proof.
  intros Hin. rewrite !mergedDowntimeBuckets_counts.
  apply inj_le, filter_length_mono. intros b _ Hb.
  apply Exists_exists in Hb as (s & Hs & Ht).
  rewrite Forall_forall in Hin. specialize (Hin s Hs).
  apply Exists_exists in Hin as (s' & Hs' & Hinside).
  apply Exists_exists. exists s'. split; [done|]. by eapply touches_insideOf.
Qed.

Lemma unionMeasure_mono segments segments' ws we :
  Forall (fun s => Exists (insideOf s) segments') segments ->
  unionMeasure segments ws we <= unionMeasure segments' ws we.
Proof.
  intros Hin. unfold unionMeasure.
  apply inj_le, filter_length_mono. intros t _ Ht. unfold covers in *.
  apply Exists_exists in Ht as (s & Hs & Ht).
  rewrite Forall_forall in Hin. specialize (Hin s Hs).
  apply Exists_exists in Hin as (s' & Hs' & [Hstart Hend]).
  apply Exists_exists. exists s'. split; [done|]. lia.
Qed.

Lemma ratio_antitone (D T T' : Z) :
  0 < D -> T <= T' ->
  (100 * inject_Z (D - T') / inject_Z D <= 100 * inject_Z (D - T) / inject_Z D)%Q.
Proof.
  intros HD HT. destruct D as [|p|p]; try lia.
  unfold Qle, Qdiv, Qmult, Qinv, inject_Z. cbn [Qnum Qden]. nia.
Qed.

(** X17.  More downtime never shows more uptime: when every segment of one
    list lies inside a segment of another, the uptime of any window
    computed from the second is at most that computed from the first, in
    both revisions.  So neither the order of the segments, nor a
    repetition, nor their severities change the uptime. *)
Theorem more_downtime_less_uptime segments segments' ws we :
  Forall (fun s => Exists (insideOf s) segments') segments ->
  (uptimeForWindow segments' ws we <= uptimeForWindow segments ws we)%Q
  /\ (Legacy.uptimeForWindow segments' ws we <= Legacy.uptimeForWindow segments ws we)%Q.
Proof.
  intros Hin. split.
  - destruct (Z.leb_spec (ceilMinute we - floorMinute ws) 0) as [HD|HD].
    + rewrite !uptimeForWindow_nonpositive_span by done. apply Qle_refl.
    + rewrite !uptimeForWindow_ratio by done.
      apply ratio_antitone; [done|]. by apply mergedDowntimeBuckets_mono.
  - destruct (Z.leb_spec we ws) as [Hle|Hlt].
    + unfold Legacy.uptimeForWindow.
      destruct (Z.leb_spec (we - ws) 0); [apply Qle_refl|lia].
    + rewrite !legacy_uptimeForWindow_ratio by done.
      apply ratio_antitone; [lia|]. by apply unionMeasure_mono.
Qed.

(** ** Windows that are all up or all down *)

Lemma filter_none_nil {A} (P : A -> Prop) `{forall x, Decision (P x)} (l : list A) :
  (forall x, x ∈ l -> ~ P x) -> filter P l = [].
Proof.
  induction l as [|x l IH]; intros Hno; [done|].
  rewrite filter_cons_False by (apply Hno; left).
  apply IH. intros y Hy. apply Hno. by right.
Qed.

Lemma span_positive ws we : ws < we -> 0 < ceilMinute we - floorMinute ws.
Proof.
  intros Hlt. unfold floorMinute, ceilMinute.
  pose proof (Z.div_mod ws 60000 ltac:(done)).
  pose proof (Z.div_mod (- we) 60000 ltac:(done)).
  pose proof (Z.mod_pos_bound ws 60000 ltac:(done)).
  pose proof (Z.mod_pos_bound (- we) 60000 ltac:(done)).
  lia.
Qed.

Lemma touches_overlaps ws we b s : touches ws we b s -> overlaps ws we s.
Proof. intros [Hlt _]. unfold overlaps. lia. Qed.

Lemma touches_covering ws we b s :
  ws < we -> Segment.start s <= ws -> we <= Segment.end_ s ->
  floorMinute ws <= b < ceilMinute we -> touches ws we b s.
Proof.
  intros Hlt Hs He Hb. unfold touches.
  rewrite Z.max_r, Z.min_r by done. by split.
Qed.

Lemma mergedDowntimeBuckets_apart segments ws we :
  Forall (fun s => ~ overlaps ws we s) segments ->
  mergedDowntimeBuckets segments ws we = 0.
Proof.
  intros Hno. rewrite mergedDowntimeBuckets_counts, filter_none_nil; [done|].
  intros b _ Hex. apply Exists_exists in Hex as (s & Hs & Ht).
  rewrite Forall_forall in Hno. eapply Hno; [done|]. by eapply touches_overlaps.
Qed.

Lemma unionMeasure_apart segments ws we :
  Forall (fun s => ~ overlaps ws we s) segments ->
  unionMeasure segments ws we = 0.
Proof.
  intros Hno. unfold unionMeasure. rewrite filter_none_nil; [done|].
  intros t Ht Hex. apply elem_of_seqZ in Ht.
  apply Exists_exists in Hex as (s & Hs & Hc).
  rewrite Forall_forall in Hno. eapply Hno; [done|]. unfold overlaps. lia.
Qed.

Lemma mergedDowntimeBuckets_covered segments ws we :
  ws < we ->
  Exists (fun s => Segment.start s <= ws /\ we <= Segment.end_ s) segments ->
  mergedDowntimeBuckets segments ws we = ceilMinute we - floorMinute ws.
Proof.
  intros Hlt Hex. pose proof (span_positive ws we Hlt).
  rewrite mergedDowntimeBuckets_counts, filter_all_id.
  - rewrite length_seqZ. lia.
  - intros b Hb. apply elem_of_seqZ in Hb.
    apply Exists_exists in Hex as (s & Hs & Hstart & Hend).
    apply Exists_exists. exists s. split; [done|].
    apply touches_covering; [done..|lia].
Qed.

Lemma unionMeasure_covered segments ws we :
  ws < we ->
  Exists (fun s => Segment.start s <= ws /\ we <= Segment.end_ s) segments ->
  unionMeasure segments ws we = we - ws.
Proof.
  intros Hlt Hex. unfold unionMeasure. rewrite filter_all_id.
  - rewrite length_seqZ. lia.
  - intros t Ht. apply elem_of_seqZ in Ht.
    apply Exists_exists in Hex as (s & Hs & Hstart & Hend).
    apply Exists_exists. exists s. split; [done|]. lia.
Qed.

(** X23.  A window that no segment meets shows 100, and a window that lies
    wholly inside one segment shows 0, whatever the other segments are, in
    both revisions. *)
Theorem uptime_all_or_nothing segments ws we :
  ws < we ->
  (Forall (fun s => ~ overlaps ws we s) segments ->
   (uptimeForWindow segments ws we == 100)%Q
   /\ (Legacy.uptimeForWindow segments ws we == 100)%Q)
  /\ (Exists (fun s => Segment.start s <= ws /\ we <= Segment.end_ s) segments ->
      (uptimeForWindow segments ws we == 0)%Q
      /\ (Legacy.uptimeForWindow segments ws we == 0)%Q).
Proof.
  intros Hlt. pose proof (span_positive ws we Hlt) as HD.
  assert (~ (inject_Z (we - ws) == 0)%Q) as Hnz by (apply inject_Z_positive; lia).
  split.
  - intros Hno. split.
    + apply uptimeForWindow_nothing_down; [done|].
      by apply mergedDowntimeBuckets_apart.
    + rewrite legacy_uptimeForWindow_ratio, unionMeasure_apart, Z.sub_0_r by done.
      by field.
  - intros Hex. split.
    + apply uptimeForWindow_all_down; [done|].
      by apply mergedDowntimeBuckets_covered.
    + rewrite legacy_uptimeForWindow_ratio, unionMeasure_covered, Z.sub_diag by done.
      by field.
Qed.

(** ** The two revisions on whole minutes *)

Lemma covered_touches segments A B b t :
  A <= b < B -> 60000 * b <= t < 60000 * (b + 1) ->
  covers segments t ->
  Exists (touches (60000 * A) (60000 * B) b) segments.
Proof.
  intros Hb Ht Hcov. unfold covers in Hcov.
  apply Exists_exists in Hcov as (s & Hs & Hcov).
  apply Exists_exists. exists s. split; [done|]. unfold touches.
  set (start := Z.max (Segment.start s) (60000 * A)).
  set (end_ := Z.min (Segment.end_ s) (60000 * B)).
  assert (start <= t < end_) as Hin by (unfold start, end_; lia).
  split; [lia|]. unfold floorMinute, ceilMinute.
  pose proof (Z.div_mod start 60000 ltac:(done)).
  pose proof (Z.mod_pos_bound start 60000 ltac:(done)).
  pose proof (Z.div_mod (- end_) 60000 ltac:(done)).
  pose proof (Z.mod_pos_bound (- end_) 60000 ltac:(done)).
  lia.
Qed.

Lemma countIn_le_span (P : Z -> Prop) `{forall t, Decision (P t)} (lo hi : Z) :
  lo <= hi -> 0 <= countIn P lo hi <= hi - lo.
Proof.
  intros Hle. unfold countIn.
  pose proof (length_filter P (seqZ lo (hi - lo))) as Hlen.
  rewrite length_seqZ in Hlen. lia.
Qed.

Lemma countIn_one (P : Z -> Prop) `{forall t, Decision (P t)} (b : Z) :
  countIn P b (b + 1) = if decide (P b) then 1 else 0.
Proof.
  unfold countIn. replace (b + 1 - b) with 1 by lia.
  rewrite seqZ_cons by lia. rewrite seqZ_nil by lia.
  rewrite filter_cons, filter_nil. by case_decide.
Qed.

(** The milliseconds covered in the minutes [A, A + n) are at most 60000
    for each minute that is touched. *)
Lemma covered_le_touched segments A B (n : nat) (lo : Z) :
  A <= lo -> lo + Z.of_nat n <= B ->
  countIn (covers segments) (60000 * lo) (60000 * (lo + Z.of_nat n))
  <= 60000 * countIn (fun b => Exists (touches (60000 * A) (60000 * B) b) segments)
                     lo (lo + Z.of_nat n).
Proof.
  revert lo. induction n as [|n IH]; intros lo Hlo Hhi.
  - replace (lo + Z.of_nat 0) with lo by lia. unfold countIn.
    rewrite !Z.sub_diag. simpl. lia.
  - rewrite (countIn_split (covers segments) (60000 * lo) (60000 * (lo + 1))) by lia.
    rewrite (countIn_split (fun b => Exists (touches (60000 * A) (60000 * B) b) segments)
               lo (lo + 1)) by lia.
    specialize (IH (lo + 1) ltac:(lia) ltac:(lia)).
    replace (lo + 1 + Z.of_nat n) with (lo + Z.of_nat (S n)) in IH by lia.
    rewrite countIn_one.
    case_decide as Htouched.
    + pose proof (countIn_le_span (covers segments) (60000 * lo) (60000 * (lo + 1))
                    ltac:(lia)). lia.
    + rewrite (countIn_none (covers segments) (60000 * lo)); [lia|].
      intros t Ht Hcov. apply Htouched.
      apply (covered_touches segments A B lo t); [lia|lia|done].
Qed.

Lemma unionMeasure_le_buckets segments A B :
  A <= B ->
  unionMeasure segments (60000 * A) (60000 * B)
  <= 60000 * mergedDowntimeBuckets segments (60000 * A) (60000 * B).
Proof.
  intros Hle. rewrite mergedDowntimeBuckets_counts.
  rewrite floorMinute_whole, ceilMinute_whole.
  pose proof (covered_le_touched segments A B (Z.to_nat (B - A)) A ltac:(lia) ltac:(lia))
    as Hcount.
  replace (A + Z.of_nat (Z.to_nat (B - A))) with B in Hcount by lia.
  exact Hcount.
Qed.

Lemma ratio_le (D D' X X' : Z) :
  0 < D -> 0 < D' -> X * D' <= X' * D ->
  (100 * inject_Z X / inject_Z D <= 100 * inject_Z X' / inject_Z D')%Q.
Proof.
  intros HD HD' HX. destruct D as [|p|p], D' as [|p'|p']; try lia.
  unfold Qle, Qdiv, Qmult, Qinv, inject_Z. cbn [Qnum Qden]. nia.
Qed.

Lemma ratio_scaled (D T M : Z) :
  0 < D -> M <= 60000 * T ->
  (100 * inject_Z (D - T) / inject_Z D
   <= 100 * inject_Z (60000 * D - M) / inject_Z (60000 * D))%Q.
Proof. intros HD HM. apply ratio_le; nia. Qed.

(** X18.  On a window that starts and ends on whole minutes the
    minute-bucket revision never shows more uptime than the earlier
    revision, which measures the downtime exactly. *)
Theorem minute_buckets_round_down segments A B :
  (uptimeForWindow segments (60000 * A) (60000 * B)
   <= Legacy.uptimeForWindow segments (60000 * A) (60000 * B))%Q.
Proof.
  destruct (Z.leb_spec B A) as [Hle|Hlt].
  - rewrite uptimeForWindow_nonpositive_span
      by (rewrite floorMinute_whole, ceilMinute_whole; lia).
    unfold Legacy.uptimeForWindow.
    destruct (Z.leb_spec (60000 * B - 60000 * A) 0); [apply Qle_refl|lia].
  - rewrite uptimeForWindow_ratio by (rewrite floorMinute_whole, ceilMinute_whole; lia).
    rewrite legacy_uptimeForWindow_ratio by lia.
    rewrite floorMinute_whole, ceilMinute_whole.
    replace (60000 * B - 60000 * A) with (60000 * (B - A)) by lia.
    apply ratio_scaled; [lia|]. apply unionMeasure_le_buckets. lia.
Qed.

(** ** Windows side by side *)

(** Within a window of whole minutes, whether a minute is touched does not
    depend on where the window ends. *)
Lemma touches_whole_window (A C b : Z) (s : Segment.t) :
  A <= b < C ->
  touches (60000 * A) (60000 * C) b s
  <-> Segment.start s < Segment.end_ s
      /\ floorMinute (Segment.start s) <= b < ceilMinute (Segment.end_ s).
Proof.
  intros Hb. unfold touches, floorMinute, ceilMinute.
  pose proof (Z.div_mod (Segment.start s) 60000 ltac:(done)).
  pose proof (Z.mod_pos_bound (Segment.start s) 60000 ltac:(done)).
  pose proof (Z.div_mod (- Segment.end_ s) 60000 ltac:(done)).
  pose proof (Z.mod_pos_bound (- Segment.end_ s) 60000 ltac:(done)).
  set (start := Z.max (Segment.start s) (60000 * A)).
  set (end_ := Z.min (Segment.end_ s) (60000 * C)).
  pose proof (Z.div_mod start 60000 ltac:(done)).
  pose proof (Z.mod_pos_bound start 60000 ltac:(done)).
  pose proof (Z.div_mod (- end_) 60000 ltac:(done)).
  pose proof (Z.mod_pos_bound (- end_) 60000 ltac:(done)).
  unfold start, end_ in *. lia.
Qed.

Lemma mergedDowntimeBuckets_whole segments A C :
  mergedDowntimeBuckets segments (60000 * A) (60000 * C)
  = countIn (fun b => Exists (fun s => Segment.start s < Segment.end_ s
                                       /\ floorMinute (Segment.start s) <= b
                                          < ceilMinute (Segment.end_ s)) segments) A C.
Proof.
  rewrite mergedDowntimeBuckets_counts, floorMinute_whole, ceilMinute_whole.
  unfold countIn. f_equal. f_equal. apply filter_ext_in. intros b Hb.
  apply elem_of_seqZ in Hb. rewrite !Exists_exists.
  split; intros (s & Hs & Ht); exists s; (split; [done|]);
    by apply (touches_whole_window A C b s); [lia|].
Qed.

(** X19.  Downtime adds up over windows side by side: split at a whole
    minute, the buckets of a window of whole minutes are those of its two
    parts; in the earlier revision the milliseconds of a window are those
    of its two parts, wherever it is split. *)
Theorem downtime_adds_up segments (A B C a b c : Z) :
  A <= B <= C -> a <= b <= c ->
  mergedDowntimeBuckets segments (60000 * A) (60000 * C)
  = mergedDowntimeBuckets segments (60000 * A) (60000 * B)
    + mergedDowntimeBuckets segments (60000 * B) (60000 * C)
  /\ Legacy.mergedDowntimeMs segments a c
     = Legacy.mergedDowntimeMs segments a b + Legacy.mergedDowntimeMs segments b c.
Proof.
  intros HB Hb. split.
  - rewrite !mergedDowntimeBuckets_whole. by apply countIn_split.
  - rewrite !mergedDowntimeMs_measure. unfold unionMeasure.
    by apply (countIn_split (covers segments) a b c).
Qed.

(** ** The earlier revision: the severity of a day *)

Lemma maxStep_skips (ws we : Z) (max : string) (s : Segment.t) :
  ~ overlaps ws we s -> maxStep ws we max s = max.
Proof.
  unfold overlaps, maxStep. intros Hno.
  destruct (Z.leb_spec (Segment.end_ s) ws); [done|].
  destruct (Z.leb_spec we (Segment.start s)); [done|lia].
Qed.

Lemma maxStep_overlaps (ws we : Z) (max : string) (s : Segment.t) :
  overlaps ws we s ->
  maxStep ws we max s
  = if rankGt (severityRank (Segment.severity s)) (severityRank max)
    then Segment.severity s else max.
Proof.
  unfold overlaps, maxStep. intros [Hend Hstart].
  destruct (Z.leb_spec (Segment.end_ s) ws); [lia|].
  destruct (Z.leb_spec we (Segment.start s)); [lia|done].
Qed.

(** The loop from a severity whose rank is a number: the rank stays a
    number and never goes down, the severity changes only for one of a
    greater rank, and no segment that meets the window has a rank above
    the result. *)
Lemma maxSeverity_fold (segments : list Segment.t) (ws we : Z) (max : string) (rm : Z) :
  severityRank max = RankNumber rm ->
  let highest := foldl (maxStep ws we) max segments in
  (highest = max
   \/ exists s, s ∈ segments /\ overlaps ws we s /\ Segment.severity s = highest)
  /\ exists rh, severityRank highest = RankNumber rh
       /\ rm <= rh
       /\ (rh = rm -> highest = max)
       /\ forall s rs, s ∈ segments -> overlaps ws we s ->
            severityRank (Segment.severity s) = RankNumber rs -> rs <= rh.
Proof.
  cbv zeta. revert max rm. induction segments as [|s rest IH]; intros max rm Hrm.
  { simpl. split; [by left|]. exists rm. split_and!; [done|lia|done|].
    intros s rs Hs. by apply elem_of_nil in Hs. }
  cbn [foldl]. destruct (decide (overlaps ws we s)) as [Hov|Hno].
  - rewrite (maxStep_overlaps _ _ _ _ Hov).
    destruct (severityRank (Segment.severity s)) as [rs|text] eqn:Hrs.
    + rewrite Hrm. cbn [rankGt]. destruct (Z.ltb_spec rm rs) as [Hlt|Hge].
      * destruct (IH (Segment.severity s) rs Hrs) as (Hfrom & rh & Hrh & Hle & _ & Hrest).
        split.
        { right. destruct Hfrom as [Heq|(s' & Hs' & ? & ?)].
          - exists s. split_and!; [left|done|done].
          - exists s'. split_and!; [by right|done|done]. }
        exists rh. split_and!; [done|lia|lia|].
        intros s' rs' Hs' Hov' Hrs'. apply elem_of_cons in Hs' as [->|Hs'].
        { rewrite Hrs in Hrs'. simplify_eq. lia. }
        by eapply Hrest.
      * destruct (IH max rm Hrm) as (Hfrom & rh & Hrh & Hle & Hsame & Hrest).
        split.
        { destruct Hfrom as [?|(s' & Hs' & ? & ?)]; [by left|right; exists s'].
          split_and!; [by right|done|done]. }
        exists rh. split_and!; [done|done|done|].
        intros s' rs' Hs' Hov' Hrs'. apply elem_of_cons in Hs' as [->|Hs'].
        { rewrite Hrs in Hrs'. simplify_eq. lia. }
        by eapply Hrest.
    + rewrite Hrm. cbn [rankGt].
      destruct (IH max rm Hrm) as (Hfrom & rh & Hrh & Hle & Hsame & Hrest).
      split.
      { destruct Hfrom as [?|(s' & Hs' & ? & ?)]; [by left|right; exists s'].
        split_and!; [by right|done|done]. }
      exists rh. split_and!; [done|done|done|].
      intros s' rs' Hs' Hov' Hrs'. apply elem_of_cons in Hs' as [->|Hs'].
      { rewrite Hrs in Hrs'. done. }
      by eapply Hrest.
  - rewrite (maxStep_skips _ _ _ _ Hno).
    destruct (IH max rm Hrm) as (Hfrom & rh & Hrh & Hle & Hsame & Hrest).
    split.
    { destruct Hfrom as [?|(s' & Hs' & ? & ?)]; [by left|right; exists s'].
      split_and!; [by right|done|done]. }
    exists rh. split_and!; [done|done|done|].
    intros s' rs' Hs' Hov' Hrs'. apply elem_of_cons in Hs' as [->|Hs']; [done|].
    by eapply Hrest.
Qed.

(** The loop leaves a severity that no segment meeting the window
    outranks as it is. *)
Lemma maxSeverity_fold_stays (segments : list Segment.t) (ws we : Z) (max : string)
    (rm : Z) :
  severityRank max = RankNumber rm ->
  (forall s rs, s ∈ segments -> overlaps ws we s ->
                severityRank (Segment.severity s) = RankNumber rs -> rs <= rm) ->
  foldl (maxStep ws we) max segments = max.
Proof.
  intros Hrm Hall.
  destruct (maxSeverity_fold segments ws we max rm Hrm)
    as (Hfrom & rh & Hrh & Hle & Hsame & _).
  destruct Hfrom as [?|(s & Hs & Hov & Hsev)]; [done|].
  apply Hsame. rewrite <- Hsev in Hrh. pose proof (Hall s rh Hs Hov Hrh). lia.
Qed.

(** X20.  [maxSeverityForWindow] returns operational or the severity of a
    segment that meets the window, and operational when no segment meets
    it.  The rank of the result is a number, which is 0 only for
    operational, and no segment that meets the window has a greater rank:
    with the ranks operational 0, minor 1, degraded 1, major 2, critical 3
    the result is the severity of the first segment meeting the window
    among those of the greatest rank, when that rank is above 0. *)
Theorem maxSeverityForWindow_highest (segments : list Segment.t) (ws we : Z) :
  let highest := Legacy.maxSeverityForWindow segments ws we in
  (highest = "operational"
   \/ exists s, s ∈ segments /\ overlaps ws we s /\ Segment.severity s = highest)
  /\ ((forall s, s ∈ segments -> ~ overlaps ws we s) -> highest = "operational")
  /\ (exists rh, severityRank highest = RankNumber rh
        /\ (rh = 0 -> highest = "operational")
        /\ forall s rs, s ∈ segments -> overlaps ws we s ->
             severityRank (Segment.severity s) = RankNumber rs -> rs <= rh)
  /\ (forall pre s post rs,
        segments = pre ++ s :: post ->
        overlaps ws we s ->
        severityRank (Segment.severity s) = RankNumber rs -> 0 < rs ->
        (forall p rp, p ∈ pre -> overlaps ws we p ->
                      severityRank (Segment.severity p) = RankNumber rp -> rp < rs) ->
        (forall q rq, q ∈ post -> overlaps ws we q ->
                      severityRank (Segment.severity q) = RankNumber rq -> rq <= rs) ->
        highest = Segment.severity s)
  /\ severityRank "operational" = RankNumber 0
  /\ severityRank "minor" = RankNumber 1
  /\ severityRank "degraded" = RankNumber 1
  /\ severityRank "major" = RankNumber 2
  /\ severityRank "critical" = RankNumber 3.
Proof.
  cbv zeta. unfold Legacy.maxSeverityForWindow.
  change (foldl _ "operational" segments)
    with (foldl (maxStep ws we) "operational" segments).
  assert (severityRank "operational" = RankNumber 0) as Hop by done.
  split_and!; try done.
  - by destruct (maxSeverity_fold segments ws we "operational" 0 Hop) as [Hfrom _].
  - intros Hno. apply (maxSeverity_fold_stays _ _ _ _ 0 Hop).
    intros s rs Hs Hov. by destruct (Hno s Hs).
  - destruct (maxSeverity_fold segments ws we "operational" 0 Hop)
      as (_ & rh & Hrh & _ & Hsame & Hrest).
    exists rh. by split_and!.
  - intros pre s post rs -> Hov Hrs Hpos Hpre Hpost.
    rewrite foldl_app. cbn [foldl].
    destruct (maxSeverity_fold pre ws we "operational" 0 Hop)
      as (Hfrom & r1 & Hr1 & _ & _ & _).
    assert (r1 < rs) as Hlt.
    { destruct Hfrom as [Heq|(p & Hp & Hovp & Hsev)].
      - rewrite Heq, Hop in Hr1. simplify_eq. lia.
      - rewrite <- Hsev in Hr1. by eapply Hpre. }
    rewrite (maxStep_overlaps _ _ _ _ Hov), Hrs, Hr1. cbn [rankGt].
    destruct (Z.ltb_spec r1 rs); [|lia].
    by apply (maxSeverity_fold_stays _ _ _ _ rs).
Qed.

(** ** The earlier revision: one segment from each update to the next *)

Lemma updateSegments_shape (startedAt incidentEnd : Z) (updates : list (Z * string)) :
  StronglySorted (fun a b => a.1 <= b.1) updates ->
  Forall (fun u => u.2 ∈ canonicalSeverities) updates ->
  let segments := Legacy.updateSegments startedAt incidentEnd updates in
  Forall (fun s => startedAt <= Segment.start s
                   /\ Segment.start s < Segment.end_ s
                   /\ Segment.end_ s <= incidentEnd
                   /\ Segment.severity s ∈ outageSeverities) segments
  /\ StronglySorted endsBefore segments
  /\ forall lo, Forall (fun u => lo <= u.1) updates ->
                Forall (fun s => lo <= Segment.start s) segments.
Proof.
  cbv zeta. induction updates as [|u rest IH]; intros Hsorted Hsev.
  { simpl. split_and!; [constructor|constructor|by constructor]. }
  apply StronglySorted_inv in Hsorted as [Hsorted Hnext].
  apply Forall_cons in Hsev as [Hu Hsev].
  destruct (IH Hsorted Hsev) as (Hall & Hbefore & Hlo).
  cbn [Legacy.updateSegments].
  set (segEnd := Z.min incidentEnd
                       match rest with
                       | nextUpdate :: _ => nextUpdate.1
                       | [] => incidentEnd
                       end).
  set (segStart := Z.max startedAt u.1).
  assert (Forall (fun s => segEnd <= Segment.start s)
                 (Legacy.updateSegments startedAt incidentEnd rest)) as Hafter.
  { destruct rest as [|next rest'].
    - simpl. constructor.
    - assert (Forall (fun v => next.1 <= v.1) (next :: rest')) as Hfrom.
      { apply StronglySorted_inv in Hsorted as [_ Hrest].
        constructor; [lia|done]. }
      eapply Forall_impl; [apply Hlo, Hfrom|]. intros s Hs. simpl in Hs. unfold segEnd. lia. }
  destruct (Z.leb_spec segEnd segStart) as [Hempty|Hlt]; cbn [orb].
  { simpl. split_and!; [done|done|]. intros lo Hfrom.
    apply Forall_cons in Hfrom as [_ Hfrom]. by apply Hlo. }
  case_bool_decide as Hop; simpl.
  { split_and!; [done|done|]. intros lo Hfrom.
    apply Forall_cons in Hfrom as [_ Hfrom]. by apply Hlo. }
  split_and!.
  - constructor; [|done]. simpl. unfold segStart, segEnd in *. split_and!; try lia.
    by apply outage_severity.
  - constructor; [done|]. eapply Forall_impl; [exact Hafter|].
    intros s Hs. unfold endsBefore. simpl. done.
  - intros lo Hfrom. apply Forall_cons in Hfrom as [Hfirst Hfrom].
    constructor; [simpl; unfold segStart; lia|by apply Hlo].
Qed.

Lemma datedUpdates_shape (updates : list Note.t) :
  StronglySorted (fun a b => a.1 <= b.1) (Legacy.datedUpdates updates)
  /\ Forall (fun u => u.2 ∈ canonicalSeverities) (Legacy.datedUpdates updates).
Proof.
  unfold Legacy.datedUpdates. split.
  - apply Sorted_StronglySorted; [intros a b c; lia|].
    eapply Sorted_weaken; [|apply sortBy_Sorted].
    + intros a b. by rewrite Z.leb_le.
    + intros a b. rewrite !Z.leb_le. lia.
  - apply Forall_forall. intros u Hu.
    apply sortBy_elem_of, list_elem_of_omap in Hu as (note & _ & Hnote).
    destruct (parseDate (Note.timestamp note)); simplify_eq/=.
    apply normalizeSeverity_canonical.
Qed.

(** X21.  In the earlier revision the segments of one incident lie between
    its start and its end, are not empty, have severity minor, degraded,
    major or critical, and come in order without overlapping.  An incident
    whose start is not a date gives none, and neither does one whose
    [resolved_at] is [null] and whose start is not before 1970. *)
Theorem legacy_incidentSegments (referenceNow : Z) (incident : Entry.t) :
  let segments := Legacy.incidentSegments referenceNow incident in
  match parseDate (Entry.started_at incident) with
  | None => segments = []
  | Some startedAt =>
      Forall (fun s => startedAt <= Segment.start s
                       /\ Segment.start s < Segment.end_ s
                       /\ Segment.end_ s <= incidentEndOf referenceNow incident
                       /\ Segment.severity s ∈ outageSeverities) segments
      /\ StronglySorted endsBefore segments
      /\ (Entry.resolved_at incident = DateNull -> 0 <= startedAt -> segments = [])
  end.
Proof.
  cbv zeta. unfold Legacy.incidentSegments, incidentEndOf.
  destruct (parseDate (Entry.started_at incident)) as [startedAt|]; [|done].
  set (incidentEnd := match parseDate (Entry.resolved_at incident) with
                      | Some resolvedAt => resolvedAt
                      | None => referenceNow
                      end).
  destruct (Z.leb_spec incidentEnd startedAt) as [Hle|Hlt].
  { split_and!; [constructor|constructor|done]. }
  assert (Entry.resolved_at incident = DateNull -> 0 <= startedAt -> False) as Hnull.
  { intros Hres Hpos. unfold incidentEnd in Hlt. rewrite Hres in Hlt. simpl in Hlt. lia. }
  destruct (datedUpdates_shape (Entry.updates incident)) as [Hsorted Hsev].
  destruct (Legacy.datedUpdates (Entry.updates incident)) as [|u rest] eqn:Hupdates.
  - case_decide as Hop.
    + split_and!; [constructor|constructor|done].
    + split_and!.
      * constructor; [|done]. simpl. split_and!; try lia.
        apply outage_severity; [apply normalizeSeverity_canonical|done].
      * repeat constructor.
      * intros Hres Hpos. by destruct (Hnull Hres Hpos).
  - destruct (updateSegments_shape startedAt incidentEnd (u :: rest) Hsorted Hsev)
      as (Hall & Hbefore & _).
    split_and!; [done|done|].
    intros Hres Hpos. by destruct (Hnull Hres Hpos).
Qed.

(** * The properties on the scenarios *)

Section Scenarios.
Import Scenario.

(** The scenarios of the specification: a first report opens an incident,
    a resolution closes it, a later report reopens the same incident. *)
Example scenario_new_incident :
  observe (collectAllIncidents (applyEvents utc Store.empty [signalOpen]))
  = [("inc-2024-03-01-signal-problem", "investigating", 1%nat)].
Proof. by vm_compute. Qed.

Example scenario_resolution :
  let incidents :=
    collectAllIncidents (applyEvents utc Store.empty [signalOpen; signalResolved]) in
  observe incidents = [("inc-2024-03-01-signal-problem", "resolved", 2%nat)]
  /\ Incident.resolved_at <$> incidents = [Some at0900]
  /\ Forall (fun incident => Sorted byTimestamp (Incident.updates incident)) incidents.
Proof.
  split_and!; [by vm_compute|by vm_compute|].
  vm_compute. repeat constructor; done.
Qed.

Example scenario_reopen :
  let incidents :=
    collectAllIncidents
      (applyEvents utc Store.empty [signalOpen; signalResolved; signalAgain]) in
  observe incidents = [("inc-2024-03-01-signal-problem", "investigating", 3%nat)]
  /\ Incident.resolved_at <$> incidents = [None].
Proof. split; by vm_compute. Qed.

(** One segment over exactly the last 24 hours: no uptime at all. *)
Example scenario_day_down :
  (uptimeForWindow [seg (at0800 - DAY_MS) at0800 "major"] (at0800 - DAY_MS) at0800 == 0)%Q.
Proof. by apply uptimeForWindow_fully_down. Qed.

Lemma upsert_twice_same_shard_witness :
  upsertIncidentInShard emptyShard signalOpen = Ok (openShard, (0%nat, openIncident))
  /\ upsertIncidentInShard openShard signalOpen = Ok (openShard, (0%nat, openIncident)).
Proof.
  assert (upsertIncidentInShard emptyShard signalOpen
          = Ok (openShard, (0%nat, openIncident))) as Hfirst by (by vm_compute).
  split; [exact Hfirst|].
  apply (upsert_twice_same_shard emptyShard signalOpen).
  - vm_compute. apply NoDup_singleton.
  - left. by vm_compute.
  - exact Hfirst.
Defined.

(** The mail that reports the end of one problem under the key of another:
    delivered once it resolves the more recent incident, delivered twice it
    resolves both and adds an update to each. *)
Lemma upsert_twice_differs :
  exists once twice first second,
    upsertIncidentInShard twoOpenShard (buildParsedEvent 0 barRestoredMail)
    = Ok (once, first)
    /\ upsertIncidentInShard once (buildParsedEvent 0 barRestoredMail)
       = Ok (twice, second)
    /\ observe (Shard.items twoOpenShard)
       = [("inc-2024-03-01-bar", "investigating", 1%nat);
          ("inc-2024-03-01-caltrain", "investigating", 1%nat)]
    /\ observe (Shard.items once)
       = [("inc-2024-03-01-bar", "resolved", 2%nat);
          ("inc-2024-03-01-caltrain", "investigating", 1%nat)]
    /\ observe (Shard.items twice)
       = [("inc-2024-03-01-bar", "resolved", 2%nat);
          ("inc-2024-03-01-caltrain", "resolved", 2%nat)]
    /\ Shard.items twice <> Shard.items once.
Proof.
  eexists _, _, _, _.
  split; [vm_compute; reflexivity|].
  split; [vm_compute; reflexivity|].
  split; [by vm_compute|].
  split; [by vm_compute|].
  split; [by vm_compute|].
  intros Heq. apply (f_equal observe) in Heq. vm_compute in Heq. congruence.
Qed.

Lemma at_most_one_open_per_shard_witness :
  let store := applyEvents utc Store.empty [signalOpen; signalResolved; signalAgain] in
  Store.shards store !! marchPath = Some (loadShard store marchPath "2024-03")
  /\ (length (filter (fun incident =>
                        Incident.ingestion_key incident = "signal-problem"
                        /\ Incident.status incident = "investigating")
                     (Shard.items (loadShard store marchPath "2024-03"))) <= 1)%nat.
Proof.
  intros store.
  assert (Store.shards store !! marchPath = Some (loadShard store marchPath "2024-03"))
    as Hlook by (by vm_compute).
  split; [exact Hlook|].
  exact (proj2 (at_most_one_open_per_shard utc [signalOpen; signalResolved; signalAgain]
                  marchPath _ "signal-problem" Hlook)).
Defined.

(** The same problem reported in January and again in February: each month
    has its own shard, and the repository ends with two investigating
    incidents under one key. *)
Lemma two_open_across_months :
  let store := applyEvents utc Store.empty
                 [buildParsedEvent 0 januaryMail; buildParsedEvent 0 februaryMail] in
  observe (collectAllIncidents store)
  = [("inc-2024-02-15-signal-problem", "investigating", 1%nat);
     ("inc-2024-01-15-signal-problem", "investigating", 1%nat)]
  /\ length (filter (fun incident =>
                       Incident.ingestion_key incident = "signal-problem"
                       /\ Incident.status incident = "investigating")
                    (collectAllIncidents store)) = 2%nat.
Proof. split; by vm_compute. Qed.

Lemma resolution_and_reopen_witness :
  findMatchingIncident openShard signalResolved = Some (0%nat, openIncident)
  /\ Event.receivedAt signalResolved = IsoDate at0900
  /\ exists shard' incident',
       upsertIncidentInShard openShard signalResolved = Ok (shard', (0%nat, incident'))
       /\ Incident.status incident' = "resolved"
       /\ Incident.resolved_at incident' = Some at0900.
Proof.
  assert (findMatchingIncident openShard signalResolved = Some (0%nat, openIncident))
    as Hfound by (by vm_compute).
  assert (Event.receivedAt signalResolved = IsoDate at0900) as Hdate by (by vm_compute).
  split; [exact Hfound|]. split; [exact Hdate|].
  destruct (resolution_and_reopen openShard signalResolved 0 openIncident at0900
              Hfound Hdate)
    as (shard' & incident' & Hup & _ & _ & _ & _ & Hres & _).
  exists shard', incident'. split; [exact Hup|].
  apply Hres. by vm_compute.
Defined.

Lemma severity_raised_never_lowered_witness :
  findMatchingIncident openShard signalWorse = Some (0%nat, openIncident)
  /\ Event.receivedAt signalWorse = IsoDate at0900
  /\ Incident.severity openIncident = "minor"
  /\ exists shard' incident',
       upsertIncidentInShard openShard signalWorse = Ok (shard', (0%nat, incident'))
       /\ Incident.severity incident' = "major".
Proof.
  assert (findMatchingIncident openShard signalWorse = Some (0%nat, openIncident))
    as Hfound by (by vm_compute).
  assert (Event.receivedAt signalWorse = IsoDate at0900) as Hdate by (by vm_compute).
  split; [exact Hfound|]. split; [exact Hdate|]. split; [by vm_compute|].
  destruct (severity_raised_never_lowered openShard signalWorse 0 openIncident at0900
              Hfound Hdate)
    as (shard' & incident' & Hup & _ & Hsev & _).
  exists shard', incident'. split; [exact Hup|].
  destruct (Hsev 2 1) as [-> _]; by vm_compute.
Defined.

Lemma updates_append_only_deduplicated_witness :
  let shard := {| Shard.period := "2024-03";
                  Shard.items :=
                    Shard.items (loadShard (applyEvents utc Store.empty [signalOpen])
                                           marchPath "2024-03") |} in
  Event.receivedAt signalAgain = IsoDate at1000
  /\ exists shard' idx incident',
       upsertIncidentInShard shard signalAgain = Ok (shard', (idx, incident'))
       /\ Sorted byTimestamp (Incident.updates incident').
Proof.
  intros shard.
  assert (Event.receivedAt signalAgain = IsoDate at1000) as Hdate by (by vm_compute).
  split; [exact Hdate|].
  destruct (updates_append_only_deduplicated utc [signalOpen] marchPath "2024-03"
              signalAgain at1000 Hdate)
    as (shard' & idx & incident' & Hup & _ & _ & _ & _ & _ & Hsorted).
  exists shard', idx, incident'. exact (conj Hup Hsorted).
Defined.

(** A mail with neither a date nor a subject is not rejected: it opens an
    incident dated by the clock under the key "no-subject". *)
Lemma missing_fields_not_rejected :
  Message.receivedAt bareMail = None
  /\ Message.subject bareMail = ""
  /\ exists store' incident,
       ingestMessage utc at0800 Store.empty bareMail = (store', Ok incident)
       /\ observe (collectAllIncidents store')
          = [("inc-2024-03-01-no-subject", "investigating", 1%nat)]
       /\ collectAllIncidents store' <> collectAllIncidents Store.empty.
Proof.
  split; [done|]. split; [done|].
  eexists _, _. split; [vm_compute; reflexivity|].
  split; [by vm_compute|].
  intros Heq. apply (f_equal observe) in Heq. vm_compute in Heq. congruence.
Qed.

(** The two examples read in the milliseconds of the code: the measure of
    the union is 15 and 5, the downtime counted is the one minute touched.
    A segment of one millisecond counts as a whole minute. *)
Lemma downtime_is_not_the_measure :
  unionMeasure [seg 0 10 "major"; seg 5 15 "minor"] 0 15 = 15
  /\ mergedDowntimeBuckets [seg 0 10 "major"; seg 5 15 "minor"] 0 15 = 1
  /\ unionMeasure [seg (-5) 5 "major"] 0 10 = 5
  /\ mergedDowntimeBuckets [seg (-5) 5 "major"] 0 10 = 1
  /\ unionMeasure [seg 0 1 "major"] 0 2 = 1
  /\ 60000 * mergedDowntimeBuckets [seg 0 1 "major"] 0 2 = 60000.
Proof. split_and!; by vm_compute. Qed.

(** A window of a minute and a half with its first minute down: the
    duration is 90000 ms and the downtime 60000 ms, so the formula gives a
    third, as the earlier revision does; the code counts one bucket out of
    two and gives a half. *)
Lemma uptime_not_over_duration :
  unionMeasure [seg 0 60000 "major"] 0 90000 = 60000
  /\ (uptimeForWindow [seg 0 60000 "major"] 0 90000 == 50)%Q
  /\ ~ (uptimeForWindow [seg 0 60000 "major"] 0 90000
        == 100 * inject_Z (90000 - 60000) / inject_Z (90000 - 0))%Q
  /\ (Legacy.uptimeForWindow [seg 0 60000 "major"] 0 90000
      == 100 * inject_Z (90000 - 60000) / inject_Z (90000 - 0))%Q.
Proof.
  split_and!.
  - rewrite <- mergedDowntimeMs_measure. by vm_compute.
  - by vm_compute.
  - intros Heq. vm_compute in Heq. discriminate.
  - by vm_compute.
Qed.

(** A day with twenty minutes down has an uptime of about 98.6: between 97
    and 99, where the specification says major, and the row says
    operational. *)
Lemma daily_band_at_98_6 :
  let row := recentDay [seg 0 1200000 "major"] 0 0 in
  last (recentDays [seg 0 1200000 "major"] 0) = Some row
  /\ (97 <= DayRow.uptime_percent row)%Q
  /\ (DayRow.uptime_percent row < 99)%Q
  /\ DayRow.uptime_band row = "operational"
  /\ DayRow.uptime_band row <> "major".
Proof.
  split_and!; try (by vm_compute).
Qed.

End Scenarios.

(** * The further properties on the scenarios *)

Section MoreScenarios.
Import Scenario.

Lemma repository_append_only_witness :
  exists shard' incident',
    Store.shards (applyEventToRepo utc openStore signalResolved).1 !! marchPath
    = Some shard'
    /\ incident' ∈ Shard.items shard'
    /\ continues openIncident incident'.
Proof.
  destruct (repository_append_only utc openStore signalResolved marchPath
              openShard openIncident)
    as (shard' & incident' & Hlook & _ & Hin & Hcont & _).
  - by vm_compute.
  - left.
  - exists shard', incident'. exact (conj Hlook (conj Hin Hcont)).
Defined.

Lemma main_rerun_witness :
  main utc credentials at1000 afterFirstRun [delayMail]
  = ({| Files.store := Files.store afterFirstRun;
        Files.state :=
          Some {| IngestState.processed_message_ids := ["m1"];
                  IngestState.last_run_at := Some at1000 |};
        Files.current := Files.current afterFirstRun |}, [7], None).
Proof.
  apply (main_rerun utc credentials at0900 at1000 noFiles afterFirstRun [delayMail] [7]
           {| IngestState.processed_message_ids := ["m1"];
              IngestState.last_run_at := Some at0900 |}).
  - by vm_compute.
  - by vm_compute.
  - simpl. lia.
Defined.

Lemma main_reconciles_new_messages_witness :
  Files.store afterFirstRun
  = applyEvents utc Store.empty [eventOf at0900 delayMail].
Proof.
  apply (main_reconciles_new_messages utc credentials at0900 noFiles afterFirstRun
           [delayMail] [7]).
  by vm_compute.
Defined.

Lemma null_resolved_at_counts_nothing_witness :
  buildOutageSegments (entryOf <$> Shard.items openShard) at1000 = [].
Proof.
  destruct (null_resolved_at_counts_nothing (entryOf <$> Shard.items openShard) at1000)
    as [Hnone _]; [|exact Hnone].
  repeat constructor. by vm_compute.
Defined.

Lemma more_downtime_less_uptime_witness :
  (uptimeForWindow [seg 0 120000 "major"] 0 180000
   <= uptimeForWindow [seg 0 60000 "minor"] 0 180000)%Q.
Proof.
  destruct (more_downtime_less_uptime [seg 0 60000 "minor"] [seg 0 120000 "major"]
              0 180000) as [Hle _]; [|exact Hle].
  constructor; [|constructor]. apply Exists_cons_hd. unfold insideOf. simpl. lia.
Defined.

Lemma uptime_all_or_nothing_witness :
  (uptimeForWindow [seg 0 60000 "minor"; seg (-5) 200000 "major"] 60000 180000 == 0)%Q
  /\ (Legacy.uptimeForWindow [seg 0 60000 "minor"; seg (-5) 200000 "major"]
        60000 180000 == 0)%Q.
Proof.
  apply (uptime_all_or_nothing [seg 0 60000 "minor"; seg (-5) 200000 "major"] 60000 180000).
  - reflexivity.
  - apply Exists_cons_tl, Exists_cons_hd. simpl. lia.
Defined.

Lemma downtime_adds_up_witness :
  mergedDowntimeBuckets [seg 30000 90000 "minor"] (60000 * 0) (60000 * 2)
  = mergedDowntimeBuckets [seg 30000 90000 "minor"] (60000 * 0) (60000 * 1)
    + mergedDowntimeBuckets [seg 30000 90000 "minor"] (60000 * 1) (60000 * 2).
Proof.
  destruct (downtime_adds_up [seg 30000 90000 "minor"] 0 1 2 0 45000 120000)
    as [Hsum _]; [lia|lia|exact Hsum].
Defined.

(** The new models on a few inputs. *)
Example scenario_delay_minutes :
  parseDelayMinutes "train 101 is 10-15 mins late" = Some 15
  /\ parseDelayMinutes "15 minutesago" = None
  /\ parseDelayMinutes "x007min" = Some 7.
Proof. by vm_compute. Qed.

Example scenario_env_lines :
  map (fun line => parseDotEnvLine (Text.chars line))
      ["# comment"; "KEY=value"; " A = 'quoted value' "; "=v"; "novalue"; "D=a=b"]
  = [None; Some ("KEY", "value"); Some ("A", "quoted value"); Some ("", "v"); None;
     Some ("D", "a=b")].
Proof. by vm_compute. Qed.

(** The names every object inherits: a line of the environment file that
    defines one sets nothing, and as severities they compare as the text
    of what is found under them, or not at all against a number. *)
Example scenario_inherited_names :
  (let env := parseDotEnvFile (Some ("toString=abc" +:+ newline +:+ "KEY=value")) ∅ in
   env !! "toString" = None /\ env !! "KEY" = Some "value")
  /\ rankGt (severityRank "toString") (severityRank "constructor") = true
  /\ rankGt (severityRank "constructor") (severityRank "toString") = false
  /\ rankGt (severityRank "toString") (severityRank "critical") = false
  /\ rankGt (severityRank "critical") (severityRank "toString") = false.
Proof. by vm_compute. Qed.

Example scenario_escape :
  escapeHtml "<a href='x'>T&C</a>" = "&lt;a href=&#39;x&#39;&gt;T&amp;C&lt;/a&gt;".
Proof. by vm_compute. Qed.

Example scenario_first_run :
  let '(files, seen, error) := main utc credentials at0900 noFiles [delayMail] in
  error = None
  /\ seen = [7]
  /\ observe (collectAllIncidents (Files.store files))
     = [("inc-2024-03-01-signal-problem", "investigating", 1%nat)]
  /\ (CurrentStatus.overall_status <$> Files.current files) = Some "degraded"
  /\ (CurrentStatus.active_incident_ids <$> Files.current files)
     = Some ["inc-2024-03-01-signal-problem"].
Proof. by vm_compute. Qed.

(** The open incident of the scenario counts as downtime only when its
    [resolved_at] is absent from the file. *)
Example scenario_open_incident :
  buildOutageSegments [entryOf openIncident] at1000 = []
  /\ buildOutageSegments
       [{| Entry.title := Incident.title openIncident;
           Entry.summary := Incident.summary openIncident;
           Entry.severity := JsString (Incident.severity openIncident);
           Entry.started_at := DateText (IsoDate at0800);
           Entry.resolved_at := DateAbsent;
           Entry.updates := [] |}] at1000
     = [seg at0800 at1000 "minor"].
Proof. by vm_compute. Qed.

End MoreScenarios.
